(** * The evaluation core of the financial-onboarding pipeline

    A shallow embedding of [core/evaluation_generator.py] (the flattener, the
    missing-field stripper, the field comparator, the reconciler and the two
    metric aggregators), of the stripper duplicated in
    [core/conversation_generator.py], of the fence stripper of [core/base.py]
    and of the conversation names of [utils/paths.py], followed by the
    properties the specification states about them and by further properties
    read off the code.

    Conventions of the embedding:
    - a JSON document, as [json.load] returns it, is a [json] tree; a Python
      [dict] inside a document is an association list in insertion order;
    - the flat field maps and the field-result mapping are [gmap]s keyed by
      canonical path (no property below depends on their iteration order);
    - Python text is a [string] of code points below 256 (one [ascii] each),
      on which [str.lower], [str.strip], [str.splitlines] and [\d] are
      modelled code point by code point;
    - [int / int] and the float arithmetic of the metrics are exact rationals
      (no rounding, no infinities); an [int] too large for a float is refused
      where Python refuses it;
    - a Python exception is a [Raise] result. *)

From Stdlib Require Import ZArith QArith Ascii List Lia Lqa DecimalString DecimalNat.
From stdpp Require Import base option list sorting gmap strings fin_maps.

Set Warnings "-register-all".
Close Scope Q_scope.

(** ** Documents *)

Inductive json : Type :=
| JNull
| JBool (b : bool)
| JInt (z : Z)
| JFloat (q : Q)
| JStr (s : string)
| JList (l : list json)
| JDict (d : list (string * json)).

(** Induction over documents, through the lists nested in them. *)
Section json_induction.
Variable P : json → Prop.
Hypothesis Hnull : P JNull.
Hypothesis Hbool : ∀ b, P (JBool b).
Hypothesis Hint : ∀ z, P (JInt z).
Hypothesis Hfloat : ∀ q, P (JFloat q).
Hypothesis Hstr : ∀ s, P (JStr s).
Hypothesis Hlist : ∀ l, Forall P l → P (JList l).
Hypothesis Hdict : ∀ d, Forall (λ kv, P kv.2) d → P (JDict d).

Fixpoint json_ind' (v : json) : P v :=
  match v with
  | JNull => Hnull
  | JBool b => Hbool b
  | JInt z => Hint z
  | JFloat q => Hfloat q
  | JStr s => Hstr s
  | JList l =>
      Hlist l ((fix go (l : list json) : Forall P l :=
                  match l with
                  | [] => Forall_nil_2 P
                  | x :: l' => Forall_cons_2 P x l' (json_ind' x) (go l')
                  end) l)
  | JDict d =>
      Hdict d ((fix go (d : list (string * json)) : Forall (λ kv, P kv.2) d :=
                  match d with
                  | [] => Forall_nil_2 _
                  | (k, x) :: d' => Forall_cons_2 (λ kv, P kv.2) (k, x) d' (json_ind' x) (go d')
                  end) d)
  end.
End json_induction.

(** [isinstance(v, dict)], [isinstance(v, list)], [isinstance(v, (dict, list))]. *)
Definition is_dict (v : json) : bool := match v with JDict _ => true | _ => false end.
Definition is_list (v : json) : bool := match v with JList _ => true | _ => false end.
Definition is_container (v : json) : bool := is_dict v || is_list v.

(** Python exceptions the modelled code can raise. *)
Inductive exn : Type :=
| TypeError | AttributeError | KeyError | IndexError
| FileNotFoundError | JSONDecodeError | PermissionError
| UnicodeDecodeError | OverflowError.

Inductive result (A : Type) : Type :=
| Ok (a : A)
| Raise (e : exn).
Arguments Ok {A} a.
Arguments Raise {A} e.

#[global] Instance result_ret : MRet result := λ A a, Ok a.
#[global] Instance result_bind : MBind result := λ A B f m,
  match m with
  | Ok a => f a
  | Raise e => Raise e
  end.

(** ** Text *)

(** [utils.MISSING_FIELD]. *)
Definition MISSING_FIELD : string := "MISSING INFORMATION".

(** [needle in hay] on [str]. *)
Fixpoint str_contains (needle hay : string) : bool :=
  String.prefix needle hay ||
  match hay with
  | EmptyString => false
  | String _ hay' => str_contains needle hay'
  end.

(** [str.lower] on one code point below 256: the letters A to Z and the
    letters U+00C0 to U+00DE, the multiplication sign U+00D7 apart, move up
    by 32; every other code point stays. *)
Definition lower_code_point (a : ascii) : ascii :=
  let n := nat_of_ascii a in
  if ((65 <=? n)%nat && (n <=? 90)%nat)
     || ((192 <=? n)%nat && (n <=? 222)%nat && negb (n =? 215)%nat)
  then ascii_of_nat (n + 32) else a.

Fixpoint str_lower (s : string) : string :=
  match s with
  | EmptyString => EmptyString
  | String a s' => String (lower_code_point a) (str_lower s')
  end.

(** [str.isspace] on one code point below 256: tab to carriage return, the
    four separators 28 to 31, the space, next line (U+0085) and the
    no-break space (U+00A0). *)
Definition is_whitespace (a : ascii) : bool :=
  let n := nat_of_ascii a in
  ((9 <=? n)%nat && (n <=? 13)%nat) || ((28 <=? n)%nat && (n <=? 32)%nat)
  || (n =? 133)%nat || (n =? 160)%nat.

Fixpoint str_lstrip (s : string) : string :=
  match s with
  | EmptyString => EmptyString
  | String a s' => if is_whitespace a then str_lstrip s' else s
  end.

Fixpoint str_rstrip (s : string) : string :=
  match s with
  | EmptyString => EmptyString
  | String a s' =>
      match str_rstrip s' with
      | EmptyString => if is_whitespace a then EmptyString else String a EmptyString
      | r => String a r
      end
  end.

(** [str.strip()]. *)
Definition str_strip (s : string) : string := str_rstrip (str_lstrip s).

(** [str(i)] for an index. *)
Definition str_of_nat (i : nat) : string := NilZero.string_of_uint (Nat.to_uint i).

(** ** Operators on documents *)

(** [value == s] for a [str] [s]. *)
Definition py_eq_str (value : json) (s : string) : bool :=
  match value with
  | JStr s' => bool_decide (s' = s)
  | _ => false
  end.

(** [d.get(key)] on a dict of a document. *)
Fixpoint dict_get (key : string) (d : list (string * json)) : option json :=
  match d with
  | [] => None
  | (k, v) :: rest => if decide (k = key) then Some v else dict_get key rest
  end.

(** [needle in value] for a [str] [needle]: a substring test on a [str],
    membership on a list, key membership on a dict, and a [TypeError] on
    anything else (argument of type int, float, bool or NoneType is not
    iterable). *)
Definition py_in (needle : string) (value : json) : result bool :=
  match value with
  | JStr s => Ok (str_contains needle s)
  | JList l => Ok (existsb (λ x, py_eq_str x needle) l)
  | JDict d => Ok (bool_decide (is_Some (dict_get needle d)))
  | JNull | JBool _ | JInt _ | JFloat _ => Raise TypeError
  end.

(** ** Path-flattener *)

(** [dict(items)]: a later pair overrides an earlier one with the same key. *)
Definition dict_of_items {A} (items : list (string * A)) : gmap string A :=
  list_to_map (reverse items).

(** [f"{parent_key}{sep}{k}" if parent_key else k], with [sep = '.']. *)
Definition child_key (parent_key k : string) : string :=
  if decide (parent_key = "") then k else parent_key +:+ "." +:+ k.

(** [f"{new_key}[{i}]"]. *)
Definition index_key (new_key : string) (i : nat) : string :=
  new_key +:+ "[" +:+ str_of_nat i +:+ "]".

(** [_flatten_dict] on a dict [d]: the list [items] is built by the two
    inner loops and turned into a dict on return. The function calls itself on
    dict values and on dict elements of list values only; any other element of
    a list value is appended as it is. *)
Fixpoint flatten_dict_rec (v : json) (parent_key : string) {struct v} : gmap string json :=
  match v with
  | JDict d =>
      dict_of_items
        ((fix entries (d : list (string * json)) : list (string * json) :=
            match d with
            | [] => []
            | (k, v) :: rest =>
                let new_key := child_key parent_key k in
                match v with
                | JDict _ => map_to_list (flatten_dict_rec v new_key)
                | JList l =>
                    (fix elements (l : list json) (i : nat) : list (string * json) :=
                       match l with
                       | [] => []
                       | item :: l' =>
                           match item with
                           | JDict _ => map_to_list (flatten_dict_rec item (index_key new_key i))
                           | _ => [(index_key new_key i, item)]
                           end ++ elements l' (S i)
                       end) l 0%nat
                | _ => [(new_key, v)]
                end ++ entries rest
            end) d)
  | _ => ∅
  end.

(** The inner loop over a list value, from index [i] on. *)
Fixpoint flatten_elements (new_key : string) (l : list json) (i : nat) : list (string * json) :=
  match l with
  | [] => []
  | item :: l' =>
      match item with
      | JDict _ => map_to_list (flatten_dict_rec item (index_key new_key i))
      | _ => [(index_key new_key i, item)]
      end ++ flatten_elements new_key l' (S i)
  end.

(** What one entry [(k, v)] of a dict adds to [items]. *)
Definition flatten_entry (parent_key : string) (kv : string * json) : list (string * json) :=
  let new_key := child_key parent_key kv.1 in
  match kv.2 with
  | JDict _ => map_to_list (flatten_dict_rec kv.2 new_key)
  | JList l => flatten_elements new_key l 0
  | _ => [(new_key, kv.2)]
  end.

(** The outer loop: [items] after all entries of the dict. *)
Definition flatten_items (parent_key : string) (d : list (string * json)) : list (string * json) :=
  concat (map (flatten_entry parent_key) d).

(** [_flatten_dict(d, parent_key)]: [d.items()] raises [AttributeError] when
    [d] is not a dict. *)
Definition flatten_dict (d : json) (parent_key : string) : result (gmap string json) :=
  match d with
  | JDict _ => Ok (flatten_dict_rec d parent_key)
  | _ => Raise AttributeError
  end.

(** ** Missing-field stripper, on values

    [Evaluator._find_missing_fields] as a function from the document it is
    given to the document it returns and the paths it appends to
    [missing_fields]. (The store-level model, which also tells whether the
    caller's own object is changed, is in [Module Store] below.) *)

(** [value == MISSING_FIELD]. *)
Definition is_missing (v : json) : bool := py_eq_str v MISSING_FIELD.

(** [del data[key]] on a dict: [KeyError] when the key is absent. *)
Fixpoint dict_del (key : string) (d : list (string * json)) : result (list (string * json)) :=
  match d with
  | [] => Raise KeyError
  | (k, v) :: rest =>
      if decide (k = key) then Ok rest
      else rest' ← dict_del key rest; Ok ((k, v) :: rest')
  end.

(** [del data[index]] on a list: [IndexError] when out of range. *)
Fixpoint list_del (index : nat) (l : list json) : result (list json) :=
  match l, index with
  | [], _ => Raise IndexError
  | _ :: rest, O => Ok rest
  | x :: rest, S i => rest' ← list_del i rest; Ok (x :: rest')
  end.

(** [for key in keys_to_delete: del data[key]]. *)
Fixpoint del_keys (keys : list string) (d : list (string * json)) : result (list (string * json)) :=
  match keys with
  | [] => Ok d
  | key :: keys' => d' ← dict_del key d; del_keys keys' d'
  end.

(** [for index in ...: del data[index]], in the order given. *)
Fixpoint del_indices (indices : list nat) (l : list json) : result (list json) :=
  match indices with
  | [] => Ok l
  | index :: indices' => l' ← list_del index l; del_indices indices' l'
  end.

(** [sorted(indices, reverse=True)], by insertion. *)
Fixpoint insert_desc (i : nat) (l : list nat) : list nat :=
  match l with
  | [] => [i]
  | j :: l' => if (j <=? i)%nat then i :: j :: l' else j :: insert_desc i l'
  end.

Definition sorted_reverse (indices : list nat) : list nat :=
  foldr insert_desc [] indices.

(** The two scanning loops return the container with the recursive results
    stored back, [missing_fields], and the keys or indices to delete. *)
Fixpoint find_missing_fields_rec (data : json) (path : string) (missing_fields : list string)
    {struct data} : result (json * list string) :=
  match data with
  | JDict d =>
      '(d1, missing_fields, keys_to_delete) ←
        (fix scan (d : list (string * json)) (missing_fields : list string)
             (keys_to_delete : list string)
             : result (list (string * json) * list string * list string) :=
           match d with
           | [] => Ok ([], missing_fields, keys_to_delete)
           | (key, value) :: rest =>
               let current_path := child_key path key in
               if is_container value then
                 '(value', missing_fields) ←
                   find_missing_fields_rec value current_path missing_fields;
                 '(rest', missing_fields, keys_to_delete) ←
                   scan rest missing_fields keys_to_delete;
                 Ok ((key, value') :: rest', missing_fields, keys_to_delete)
               else if is_missing value then
                 '(rest', missing_fields, keys_to_delete) ←
                   scan rest (missing_fields ++ [current_path]) (keys_to_delete ++ [key]);
                 Ok ((key, value) :: rest', missing_fields, keys_to_delete)
               else
                 '(rest', missing_fields, keys_to_delete) ←
                   scan rest missing_fields keys_to_delete;
                 Ok ((key, value) :: rest', missing_fields, keys_to_delete)
           end) d missing_fields [];
      d2 ← del_keys keys_to_delete d1;
      Ok (JDict d2, missing_fields)
  | JList l =>
      '(l1, missing_fields, indices_to_delete) ←
        (fix scan (l : list json) (i : nat) (missing_fields : list string)
             (indices_to_delete : list nat)
             : result (list json * list string * list nat) :=
           match l with
           | [] => Ok ([], missing_fields, indices_to_delete)
           | item :: rest =>
               let current_path := path +:+ "[" +:+ str_of_nat i +:+ "]" in
               if is_container item then
                 '(item', missing_fields) ←
                   find_missing_fields_rec item current_path missing_fields;
                 '(rest', missing_fields, indices_to_delete) ←
                   scan rest (S i) missing_fields indices_to_delete;
                 Ok (item' :: rest', missing_fields, indices_to_delete)
               else if is_missing item then
                 '(rest', missing_fields, indices_to_delete) ←
                   scan rest (S i) (missing_fields ++ [current_path]) (indices_to_delete ++ [i]);
                 Ok (item :: rest', missing_fields, indices_to_delete)
               else
                 '(rest', missing_fields, indices_to_delete) ←
                   scan rest (S i) missing_fields indices_to_delete;
                 Ok (item :: rest', missing_fields, indices_to_delete)
           end) l 0%nat missing_fields [];
      l2 ← del_indices (sorted_reverse indices_to_delete) l1;
      Ok (JList l2, missing_fields)
  | _ => Ok (data, missing_fields)
  end.

(** [_find_missing_fields(data, path, missing_fields)]: a [None] accumulator
    starts a fresh list (and a deep copy, which on values is the identity). *)
Definition find_missing_fields (data : json) (path : string)
    (missing_fields : option (list string)) : result (json * list string) :=
  find_missing_fields_rec data path (default [] missing_fields).

(** The two scanning loops by name. *)
Fixpoint scan_dict (path : string) (d : list (string * json)) (missing_fields : list string)
    (keys_to_delete : list string)
    : result (list (string * json) * list string * list string) :=
  match d with
  | [] => Ok ([], missing_fields, keys_to_delete)
  | (key, value) :: rest =>
      let current_path := child_key path key in
      if is_container value then
        '(value', missing_fields) ←
          find_missing_fields_rec value current_path missing_fields;
        '(rest', missing_fields, keys_to_delete) ←
          scan_dict path rest missing_fields keys_to_delete;
        Ok ((key, value') :: rest', missing_fields, keys_to_delete)
      else if is_missing value then
        '(rest', missing_fields, keys_to_delete) ←
          scan_dict path rest (missing_fields ++ [current_path]) (keys_to_delete ++ [key]);
        Ok ((key, value) :: rest', missing_fields, keys_to_delete)
      else
        '(rest', missing_fields, keys_to_delete) ←
          scan_dict path rest missing_fields keys_to_delete;
        Ok ((key, value) :: rest', missing_fields, keys_to_delete)
  end.

Fixpoint scan_list (path : string) (l : list json) (i : nat) (missing_fields : list string)
    (indices_to_delete : list nat)
    : result (list json * list string * list nat) :=
  match l with
  | [] => Ok ([], missing_fields, indices_to_delete)
  | item :: rest =>
      let current_path := path +:+ "[" +:+ str_of_nat i +:+ "]" in
      if is_container item then
        '(item', missing_fields) ←
          find_missing_fields_rec item current_path missing_fields;
        '(rest', missing_fields, indices_to_delete) ←
          scan_list path rest (S i) missing_fields indices_to_delete;
        Ok (item' :: rest', missing_fields, indices_to_delete)
      else if is_missing item then
        '(rest', missing_fields, indices_to_delete) ←
          scan_list path rest (S i) (missing_fields ++ [current_path]) (indices_to_delete ++ [i]);
        Ok (item :: rest', missing_fields, indices_to_delete)
      else
        '(rest', missing_fields, indices_to_delete) ←
          scan_list path rest (S i) missing_fields indices_to_delete;
        Ok (item :: rest', missing_fields, indices_to_delete)
  end.

(** ** Field results and metrics *)

(** One entry of [field_results]; [error] is [None] when the key is absent. *)
Record FieldResult : Type := {
  ground_truth : json;
  extracted : json;
  match_ : bool;
  category : string;
  error : option string;
}.

(** One entry of the [categories] counters, and of [category_metrics]. *)
Record CategoryCount : Type := { total : nat; matched : nat }.
Record CategoryMetric : Type := { cm_total : nat; cm_matched : nat; cm_accuracy : Q }.

Record Metrics : Type := {
  overall_accuracy : Q;
  precision : Q;
  recall : Q;
  f1_score : Q;
  true_positives : nat;
  false_positives : nat;
  false_negatives : nat;
  total_fields : nat;
  missing_fields_count : nat;
  categories : gmap string CategoryMetric;
}.

(** The counters of the loop of [_calculate_metrics]. *)
Record Counters : Type := {
  c_true_positives : nat;
  c_false_positives : nat;
  c_false_negatives : nat;
  c_categories : gmap string CategoryCount;
}.

Definition initial_counters : Counters :=
  {| c_true_positives := 0; c_false_positives := 0; c_false_negatives := 0;
     c_categories :=
       <["present" := {| total := 0; matched := 0 |}]>
       (<["extra" := {| total := 0; matched := 0 |}]>
       (<["missing" := {| total := 0; matched := 0 |}]> ∅)) |}.

(** The body of [for field, result in field_results.items()]. *)
Definition count_result (st : Counters) (result : FieldResult) : Counters :=
  let category := category result in
  let is_match := match_ result in
  let categories :=
    if bool_decide (is_Some (c_categories st !! category)) then
      alter (λ c, {| total := S (total c);
                     matched := if is_match then S (matched c) else matched c |})
            category (c_categories st)
    else c_categories st in
  if bool_decide (category = "present") then
    if bool_decide (error result = Some "missing_field") then
      {| c_true_positives := c_true_positives st;
         c_false_positives := c_false_positives st;
         c_false_negatives := S (c_false_negatives st);
         c_categories := categories |}
    else if is_match then
      {| c_true_positives := S (c_true_positives st);
         c_false_positives := c_false_positives st;
         c_false_negatives := c_false_negatives st;
         c_categories := categories |}
    else
      {| c_true_positives := c_true_positives st;
         c_false_positives := S (c_false_positives st);
         c_false_negatives := c_false_negatives st;
         c_categories := categories |}
  else if bool_decide (category = "extra") then
    {| c_true_positives := c_true_positives st;
       c_false_positives := S (c_false_positives st);
       c_false_negatives := c_false_negatives st;
       c_categories := categories |}
  else
    {| c_true_positives := c_true_positives st;
       c_false_positives := c_false_positives st;
       c_false_negatives := c_false_negatives st;
       c_categories := categories |}.

Definition count_results (results : list (string * FieldResult)) : Counters :=
  foldl (λ st fr, count_result st fr.2) initial_counters results.

Definition Qnat (n : nat) : Q := inject_Z (Z.of_nat n).

(** [x > 0] on the rationals. *)
Definition Qpositive (x : Q) : bool := negb (Qle_bool x 0).

(** [_calculate_metrics(field_results, missing_fields)]. *)
Definition calculate_metrics (field_results : gmap string FieldResult)
    (missing_fields : option (list string)) : Metrics :=
  let st := count_results (map_to_list field_results) in
  let true_positives := c_true_positives st in
  let false_positives := c_false_positives st in
  let false_negatives := c_false_negatives st in
  let precision :=
    if (0 <? true_positives + false_positives)%nat
    then (Qnat true_positives / Qnat (true_positives + false_positives))%Q else 0%Q in
  let recall :=
    if (0 <? true_positives + false_negatives)%nat
    then (Qnat true_positives / Qnat (true_positives + false_negatives))%Q else 0%Q in
  let f1_score :=
    if Qpositive (precision + recall)
    then (2 * (precision * recall) / (precision + recall))%Q else 0%Q in
  let total_judgments := (true_positives + false_positives + false_negatives)%nat in
  let accuracy :=
    if (0 <? total_judgments)%nat
    then (Qnat true_positives / Qnat total_judgments)%Q else 0%Q in
  let category_metrics :=
    (λ counts, {| cm_total := total counts; cm_matched := matched counts;
                  cm_accuracy := if (0 <? total counts)%nat
                                 then (Qnat (matched counts) / Qnat (total counts))%Q
                                 else 0%Q |}) <$> c_categories st in
  {| overall_accuracy := accuracy;
     precision := precision;
     recall := recall;
     f1_score := f1_score;
     true_positives := true_positives;
     false_positives := false_positives;
     false_negatives := false_negatives;
     total_fields := map_fold (λ _ cat acc, (total cat + acc)%nat) 0%nat (c_categories st);
     missing_fields_count := match missing_fields with
                             | Some l => length l
                             | None => 0%nat
                             end;
     categories := category_metrics |}.

(** ** Field comparator and reconciler *)

Record Evaluation : Type := {
  ev_metrics : Metrics;
  ev_field_results : gmap string FieldResult;
  ev_missing_fields : list string;
}.

(** [MISSING_FIELD in value]. *)
Definition contains_marker (value : json) : result bool := py_in MISSING_FIELD value.

(** Computations that may raise and may call the oracle: the state is the
    sequence of oracle calls made so far. *)
Definition Eval (A : Type) : Type :=
  list (string * string) → result A * list (string * string).

#[global] Instance eval_ret : MRet Eval := λ A a calls, (Ok a, calls).

#[global] Instance eval_bind : MBind Eval := λ A B f m calls,
  match m calls with
  | (Ok a, calls') => f a calls'
  | (Raise e, calls') => (Raise e, calls')
  end.

Definition lift {A} (r : result A) : Eval A := λ calls, (r, calls).

Section Evaluator.
(** The equivalence oracle behind [_semantic_match]: the text the model
    answers for the two values, or [None] when the call raises. *)
Variable oracle : string → string → option string.

(** [str(value)] for a value that is not a [str]. *)
Variable py_repr : json → string.

Definition py_str (value : json) : string :=
  match value with
  | JStr s => s
  | _ => py_repr value
  end.

(** [_semantic_match(value1, value2)]; every exception of the call is
    caught and answered [False]. *)
Definition semantic_match (value1 value2 : string) : Eval bool :=
  if (20 <? Z.abs (Z.of_nat (String.length value1) - Z.of_nat (String.length value2)))%Z
     || (Nat.min (String.length value1) (String.length value2) <? 3)%nat
  then mret false
  else λ calls,
    match oracle value1 value2 with
    | Some output_text =>
        (Ok (str_contains "yes" (str_lower (str_strip output_text))),
         calls ++ [(value1, value2)])
    | None => (Ok false, calls ++ [(value1, value2)])
    end.

(** [_compare_values(value1, value2)], with the left-to-right evaluation
    of [and] and [or]. *)
Definition compare_values (value1 value2 : json) : Eval bool :=
  match value1, value2 with
  | JNull, JNull => mret true
  | JNull, _ | _, JNull => mret false
  | _, _ =>
      both ← (in1 ← lift (contains_marker value1);
              if (in1 : bool) then lift (contains_marker value2) else mret false);
      if (both : bool) then (mret true : Eval bool) else
      either ← (in1 ← lift (contains_marker value1);
                if (in1 : bool) then mret true else lift (contains_marker value2));
      if (either : bool) then (mret false : Eval bool) else
      let str1 := str_strip (str_lower (py_str value1)) in
      let str2 := str_strip (str_lower (py_str value2)) in
      if bool_decide (str1 = str2) then mret true
      else semantic_match str1 str2
  end.

(** The body of the first loop of [_evaluate_data]. *)
Definition present_result (flat_extracted : gmap string json)
    (field : string) (truth_value : json) : Eval FieldResult :=
  match flat_extracted !! field with
  | Some extracted_value =>
      is_match ← compare_values truth_value extracted_value;
      mret {| ground_truth := truth_value; extracted := extracted_value;
              match_ := is_match; category := "present"; error := None |}
  | None =>
      mret {| ground_truth := truth_value; extracted := JNull;
              match_ := false; category := "present"; error := Some "missing_field" |}
  end.

Fixpoint present_loop (flat_extracted : gmap string json)
    (items : list (string * json)) (field_results : gmap string FieldResult)
    : Eval (gmap string FieldResult) :=
  match items with
  | [] => mret field_results
  | (field, truth_value) :: rest =>
      r ← present_result flat_extracted field truth_value;
      present_loop flat_extracted rest (<[field := r]> field_results)
  end.

(** The body of the second loop. *)
Definition extra_result (extracted_value : json) : FieldResult :=
  if is_missing extracted_value then
    {| ground_truth := JStr MISSING_FIELD; extracted := extracted_value;
       match_ := true; category := "missing"; error := None |}
  else
    {| ground_truth := JNull; extracted := extracted_value;
       match_ := false; category := "extra"; error := Some "extra_field" |}.

Definition extra_loop (flat_ground_truth : gmap string json)
    (items : list (string * json)) (field_results : gmap string FieldResult)
    : gmap string FieldResult :=
  foldl (λ field_results item,
           if bool_decide (is_Some (flat_ground_truth !! item.1)) then field_results
           else <[item.1 := extra_result item.2]> field_results)
        field_results items.

(** [_evaluate_data(ground_truth, extracted, missing_fields)]. *)
Definition evaluate_data (ground_truth extracted : json)
    (missing_fields : option (list string)) : Eval Evaluation :=
  let missing_fields := default [] missing_fields in
  flat_ground_truth ← lift (flatten_dict ground_truth "");
  flat_extracted ← lift (flatten_dict extracted "");
  field_results ← present_loop flat_extracted (map_to_list flat_ground_truth) ∅;
  let field_results :=
    extra_loop flat_ground_truth (map_to_list flat_extracted) field_results in
  let metrics := calculate_metrics field_results (Some missing_fields) in
  mret {| ev_metrics := metrics; ev_field_results := field_results;
          ev_missing_fields := missing_fields |}.

(** [Evaluator.generate] after the two documents are loaded. *)
Definition evaluator_generate (ground_truth extracted : json) : Eval Evaluation :=
  stripped ← lift (find_missing_fields ground_truth "" (Some []));
  evaluate_data stripped.1 extracted (Some stripped.2).

End Evaluator.

(** ** Aggregator across runs *)

Record AggregatedResults : Type := {
  experiment : string;
  total_conversations : nat;
  aggregated_metrics : gmap string Q;
}.

(** [if value:], the truth value of a document. *)
Definition truthy (value : json) : bool :=
  match value with
  | JNull => false
  | JBool b => b
  | JInt z => negb (z =? 0)%Z
  | JFloat q => negb (Qeq_bool q 0)
  | JStr s => negb (bool_decide (s = ""))
  | JList l => negb (bool_decide (l = []))
  | JDict d => negb (bool_decide (d = []))
  end.

(** [metrics[key]] for a [str] key: the value on a dict ([KeyError] when
    absent), a [TypeError] on a list or a [str] (indices must be integers)
    and on anything that is not subscriptable. *)
Definition getitem (metrics : json) (key : string) : result json :=
  match metrics with
  | JDict d =>
      match dict_get key d with
      | Some v => Ok v
      | None => Raise KeyError
      end
  | _ => Raise TypeError
  end.

(** The integers Python converts to a float: those that round to a finite
    double, which are the ones below [2^1024 - 2^970] in absolute value. *)
Definition fits_float (z : Z) : bool := (Z.abs z <? 2 ^ 1024 - 2 ^ 970)%Z.

(** [total + value] for a float [total]: defined on numbers (a [bool] is an
    [int]; an [int] is converted to a float first, which raises
    [OverflowError] when it is too large), a [TypeError] otherwise. *)
Definition add_number (total : Q) (value : json) : result Q :=
  match value with
  | JInt z => if fits_float z then Ok (total + inject_Z z)%Q else Raise OverflowError
  | JFloat q => Ok (total + q)%Q
  | JBool b => Ok (total + (if b then 1 else 0))%Q
  | JNull | JStr _ | JList _ | JDict _ => Raise TypeError
  end.

(** The keys of [metrics_sum], in the order the dict is written. *)
Definition metric_keys : list string :=
  ["overall_accuracy"; "precision"; "recall"; "f1_score"].

Definition initial_metrics_sum : gmap string Q :=
  <["overall_accuracy" := 0%Q]>
  (<["precision" := 0%Q]>
  (<["recall" := 0%Q]>
  (<["f1_score" := 0%Q]> ∅))).

(** [if key in metrics: metrics_sum[key] += metrics[key]]. *)
Definition add_metric (metrics : json) (metrics_sum : gmap string Q) (key : string)
    : result (gmap string Q) :=
  present ← py_in key metrics;
  if (present : bool) then
    value ← getitem metrics key;
    total ← add_number (default 0%Q (metrics_sum !! key)) value;
    Ok (<[key := total]> metrics_sum)
  else Ok metrics_sum.

(** [for key in metrics_sum.keys(): ...]. *)
Fixpoint add_metrics (metrics : json) (keys : list string) (metrics_sum : gmap string Q)
    : result (gmap string Q) :=
  match keys with
  | [] => Ok metrics_sum
  | key :: keys' =>
      metrics_sum ← add_metric metrics metrics_sum key;
      add_metrics metrics keys' metrics_sum
  end.

(** The body of the loop over the conversations, on the outcome of
    [load_json]. [evaluation.get] needs a dict; the [except] clause catches
    [FileNotFoundError] and [json.JSONDecodeError] only. *)
Definition aggregate_step (st : nat * gmap string Q) (loaded : result json)
    : result (nat * gmap string Q) :=
  match loaded with
  | Ok evaluation =>
      match evaluation with
      | JDict d =>
          let metrics := default (JDict []) (dict_get "metrics" d) in
          if truthy metrics then
            metrics_sum ← add_metrics metrics metric_keys st.2;
            Ok (S st.1, metrics_sum)
          else Ok st
      | _ => Raise AttributeError
      end
  | Raise FileNotFoundError | Raise JSONDecodeError => Ok st
  | Raise e => Raise e
  end.

Fixpoint aggregate_loop (conversations : list (result json))
    (st : nat * gmap string Q) : result (nat * gmap string Q) :=
  match conversations with
  | [] => Ok st
  | loaded :: rest => st' ← aggregate_step st loaded; aggregate_loop rest st'
  end.

(** [EvaluationAggregator.generate], given the outcome of loading the
    evaluation file of each listed conversation, in order. The bare [return]
    of the empty case is [None]. *)
Definition aggregator_generate (experiment_name : string)
    (conversations : list (result json)) : result (option AggregatedResults) :=
  match conversations with
  | [] => Ok None
  | _ =>
      '(total_conversations, metrics_sum) ←
        aggregate_loop conversations (0%nat, initial_metrics_sum);
      let aggregated_metrics :=
        if (0 <? total_conversations)%nat
        then (λ value, (value / Qnat total_conversations)%Q) <$> metrics_sum
        else ∅ in
      Ok (Some {| experiment := experiment_name;
                  total_conversations := total_conversations;
                  aggregated_metrics := aggregated_metrics |})
  end.

(** ** The stripper on a store of objects

    Whether the caller's record is changed depends on which objects the code
    writes to, so here dicts and lists are objects in a store, reached
    through references, and [del] and item assignment update the store.
    Recursion through references is bounded by [fuel]; [None] stands for
    fuel that does not cover the depth of the record (none does when the
    stripper is sent round a cycle), and for operations on objects or items
    that are not there. *)
Module Store.

Definition loc : Type := nat.

Inductive value : Type :=
| VNull
| VBool (b : bool)
| VInt (z : Z)
| VFloat (q : Q)
| VStr (s : string)
| VRef (l : loc).

Inductive object : Type :=
| ODict (entries : list (string * value))
| OList (items : list value).

(** The object at location [l] is the [l]-th of the store; a new object is
    added at the end. *)
Definition store : Type := list object.

Definition alloc (st : store) (o : object) : value * store :=
  (VRef (length st), st ++ [o]).

(** [json.load]: every dict and list of the document is a new object. *)
Fixpoint load (doc : json) (st : store) {struct doc} : value * store :=
  match doc with
  | JNull => (VNull, st)
  | JBool b => (VBool b, st)
  | JInt z => (VInt z, st)
  | JFloat q => (VFloat q, st)
  | JStr s => (VStr s, st)
  | JList l =>
      let '(items, st) :=
        (fix go (l : list json) (st : store) : list value * store :=
           match l with
           | [] => ([], st)
           | x :: l' =>
               let '(v, st) := load x st in
               let '(vs, st) := go l' st in
               (v :: vs, st)
           end) l st in
      alloc st (OList items)
  | JDict d =>
      let '(entries, st) :=
        (fix go (d : list (string * json)) (st : store) : list (string * value) * store :=
           match d with
           | [] => ([], st)
           | (k, x) :: d' =>
               let '(v, st) := load x st in
               let '(kvs, st) := go d' st in
               ((k, v) :: kvs, st)
           end) d st in
      alloc st (ODict entries)
  end.

(** The document a value stands for. *)
Fixpoint dump (fuel : nat) (st : store) (v : value) : option json :=
  match v with
  | VNull => Some JNull
  | VBool b => Some (JBool b)
  | VInt z => Some (JInt z)
  | VFloat q => Some (JFloat q)
  | VStr s => Some (JStr s)
  | VRef l =>
      match fuel with
      | O => None
      | S fuel =>
          match st !! l with
          | Some (OList items) => JList <$> mapM (dump fuel st) items
          | Some (ODict entries) =>
              JDict <$> mapM (λ kv, pair kv.1 <$> dump fuel st kv.2) entries
          | None => None
          end
      end
  end.

(** [copy.deepcopy(x, memo)]. The memo maps every dict and list copied so
    far to its copy, so that an object reached twice is copied once and a
    cycle is closed. The copy [y] of a list or dict is created empty and
    entered in the memo before the items are copied; each copied item is then
    appended ([y.append(...)]) or stored ([y[key] = ...]). Scalars are
    returned as they are. *)
Definition memo : Type := gmap loc loc.

(** [y.append(v)] on the list at [y]. *)
Definition list_append (st : store) (y : loc) (v : value) : option store :=
  match st !! y with
  | Some (OList items) => Some (<[y := OList (items ++ [v])]> st)
  | _ => None
  end.

(** [y[key] = v] on the dict at [y]: a key the dict has keeps its place, a
    new key is added at the end. *)
Definition dict_store (st : store) (y : loc) (key : string) (v : value) : option store :=
  match st !! y with
  | Some (ODict entries) =>
      if bool_decide (key ∈ entries.*1)
      then Some (<[y := ODict (map (λ kv, if decide (kv.1 = key) then (key, v) else kv)
                                   entries)]> st)
      else Some (<[y := ODict (entries ++ [(key, v)])]> st)
  | _ => None
  end.

(** [for a in x: y.append(deepcopy(a, memo))]. *)
Fixpoint copy_items (copy : store → memo → value → option (value * store * memo))
    (y : loc) (items : list value) (st : store) (m : memo) : option (store * memo) :=
  match items with
  | [] => Some (st, m)
  | a :: rest =>
      '(a', st, m) ← copy st m a;
      st ← list_append st y a';
      copy_items copy y rest st m
  end.

(** [for key, value in x.items(): y[key] = deepcopy(value, memo)]; the keys
    of a document are strings, which [deepcopy] returns as they are. *)
Fixpoint copy_entries (copy : store → memo → value → option (value * store * memo))
    (y : loc) (entries : list (string * value)) (st : store) (m : memo)
    : option (store * memo) :=
  match entries with
  | [] => Some (st, m)
  | (key, value) :: rest =>
      '(value', st, m) ← copy st m value;
      st ← dict_store st y key value';
      copy_entries copy y rest st m
  end.

Fixpoint deepcopy (fuel : nat) (st : store) (m : memo) (x : value)
    : option (value * store * memo) :=
  match x with
  | VRef l =>
      match m !! l with
      | Some y => Some (VRef y, st, m)
      | None =>
          match fuel with
          | O => None
          | S fuel =>
              match st !! l with
              | Some (OList items) =>
                  let y := length st in
                  '(st, m) ← copy_items (deepcopy fuel) y items (st ++ [OList []])
                                        (<[l := y]> m);
                  Some (VRef y, st, m)
              | Some (ODict entries) =>
                  let y := length st in
                  '(st, m) ← copy_entries (deepcopy fuel) y entries (st ++ [ODict []])
                                          (<[l := y]> m);
                  Some (VRef y, st, m)
              | None => None
              end
          end
      end
  | _ => Some (x, st, m)
  end.

(** [isinstance(value, (dict, list))]: the references are the dicts and lists. *)
Definition is_container (v : value) : bool :=
  match v with VRef _ => true | _ => false end.

(** [value == MISSING_FIELD]. *)
Definition is_missing (v : value) : bool :=
  match v with
  | VStr s => bool_decide (s = MISSING_FIELD)
  | _ => false
  end.

(** [data[key] = v] for a key the dict has, [data[i] = v], [del data[key]]
    and [del data[index]], on the object at [l]. *)
Definition dict_setitem (st : store) (l : loc) (key : string) (v : value) : option store :=
  match st !! l with
  | Some (ODict entries) =>
      Some (<[l := ODict (map (λ kv, if decide (kv.1 = key) then (key, v) else kv) entries)]> st)
  | _ => None
  end.

Definition list_setitem (st : store) (l : loc) (i : nat) (v : value) : option store :=
  match st !! l with
  | Some (OList items) =>
      if decide (i < length items) then Some (<[l := OList (<[i := v]> items)]> st) else None
  | _ => None
  end.

Fixpoint remove_key (key : string) (entries : list (string * value))
    : option (list (string * value)) :=
  match entries with
  | [] => None
  | (k, v) :: rest =>
      if decide (k = key) then Some rest
      else rest' ← remove_key key rest; Some ((k, v) :: rest')
  end.

Definition dict_delitem (st : store) (l : loc) (key : string) : option store :=
  match st !! l with
  | Some (ODict entries) =>
      entries' ← remove_key key entries; Some (<[l := ODict entries']> st)
  | _ => None
  end.

Definition list_delitem (st : store) (l : loc) (index : nat) : option store :=
  match st !! l with
  | Some (OList items) =>
      if decide (index < length items) then Some (<[l := OList (delete index items)]> st)
      else None
  | _ => None
  end.

(** [for key in keys_to_delete: del data[key]] and
    [for index in ...: del data[index]]. *)
Fixpoint dict_delitems (st : store) (l : loc) (keys : list string) : option store :=
  match keys with
  | [] => Some st
  | key :: keys' => st ← dict_delitem st l key; dict_delitems st l keys'
  end.

Fixpoint list_delitems (st : store) (l : loc) (indices : list nat) : option store :=
  match indices with
  | [] => Some st
  | index :: indices' => st ← list_delitem st l index; list_delitems st l indices'
  end.

(** The two scanning loops of [Evaluator._find_missing_fields] on the
    object at [l], over the items it has on entry; [find] is the recursive
    call, whose result is stored back. *)
Fixpoint evaluator_scan_dict
    (find : store → value → string → list string → option (value * store * list string))
    (l : loc) (path : string) (entries : list (string * value)) (st : store)
    (missing_fields keys_to_delete : list string)
    : option (store * list string * list string) :=
  match entries with
  | [] => Some (st, missing_fields, keys_to_delete)
  | (key, value) :: rest =>
      let current_path := child_key path key in
      if is_container value then
        '(value', st, missing_fields) ← find st value current_path missing_fields;
        st ← dict_setitem st l key value';
        evaluator_scan_dict find l path rest st missing_fields keys_to_delete
      else if is_missing value then
        evaluator_scan_dict find l path rest st (missing_fields ++ [current_path])
                            (keys_to_delete ++ [key])
      else evaluator_scan_dict find l path rest st missing_fields keys_to_delete
  end.

Fixpoint evaluator_scan_list
    (find : store → value → string → list string → option (value * store * list string))
    (l : loc) (path : string) (items : list value) (i : nat) (st : store)
    (missing_fields : list string) (indices_to_delete : list nat)
    : option (store * list string * list nat) :=
  match items with
  | [] => Some (st, missing_fields, indices_to_delete)
  | item :: rest =>
      let current_path := path +:+ "[" +:+ str_of_nat i +:+ "]" in
      if is_container item then
        '(item', st, missing_fields) ← find st item current_path missing_fields;
        st ← list_setitem st l i item';
        evaluator_scan_list find l path rest (S i) st missing_fields indices_to_delete
      else if is_missing item then
        evaluator_scan_list find l path rest (S i) st (missing_fields ++ [current_path])
                            (indices_to_delete ++ [i])
      else evaluator_scan_list find l path rest (S i) st missing_fields indices_to_delete
  end.

(** [Evaluator._find_missing_fields] once [missing_fields] is a list. The
    deletions are made on the object [data] refers to, and [data] itself is
    returned. *)
Fixpoint evaluator_find_rec (fuel : nat) (st : store) (data : value) (path : string)
    (missing_fields : list string) : option (value * store * list string) :=
  match fuel with
  | O => None
  | S fuel =>
      match data with
      | VRef l =>
          match st !! l with
          | Some (ODict entries) =>
              '(st, missing_fields, keys_to_delete) ←
                evaluator_scan_dict (evaluator_find_rec fuel) l path entries st
                                    missing_fields [];
              st ← dict_delitems st l keys_to_delete;
              Some (data, st, missing_fields)
          | Some (OList items) =>
              '(st, missing_fields, indices_to_delete) ←
                evaluator_scan_list (evaluator_find_rec fuel) l path items 0 st
                                    missing_fields [];
              st ← list_delitems st l (sorted_reverse indices_to_delete);
              Some (data, st, missing_fields)
          | None => None
          end
      | _ => Some (data, st, missing_fields)
      end
  end.

(** [Evaluator._find_missing_fields(data, path, missing_fields)]: the deep
    copy is made only when no [missing_fields] list is passed. *)
Definition evaluator_find_missing_fields (fuel : nat) (st : store) (data : value)
    (path : string) (missing_fields : option (list string))
    : option (value * store * list string) :=
  match missing_fields with
  | None =>
      '(data, st, _) ← deepcopy fuel st ∅ data;
      evaluator_find_rec fuel st data path []
  | Some missing_fields => evaluator_find_rec fuel st data path missing_fields
  end.

(** The two loops of [ConversationGenerator._find_missing_fields]: the same
    walk, without the assignments. *)
Fixpoint conversation_scan_dict
    (find : store → value → string → list string → option (store * list string))
    (path : string) (entries : list (string * value)) (st : store)
    (missing_fields keys_to_delete : list string)
    : option (store * list string * list string) :=
  match entries with
  | [] => Some (st, missing_fields, keys_to_delete)
  | (key, value) :: rest =>
      let current_path := child_key path key in
      if is_container value then
        '(st, missing_fields) ← find st value current_path missing_fields;
        conversation_scan_dict find path rest st missing_fields keys_to_delete
      else if is_missing value then
        conversation_scan_dict find path rest st (missing_fields ++ [current_path])
                               (keys_to_delete ++ [key])
      else conversation_scan_dict find path rest st missing_fields keys_to_delete
  end.

Fixpoint conversation_scan_list
    (find : store → value → string → list string → option (store * list string))
    (path : string) (items : list value) (i : nat) (st : store)
    (missing_fields : list string) (indices_to_delete : list nat)
    : option (store * list string * list nat) :=
  match items with
  | [] => Some (st, missing_fields, indices_to_delete)
  | item :: rest =>
      let current_path := path +:+ "[" +:+ str_of_nat i +:+ "]" in
      if is_container item then
        '(st, missing_fields) ← find st item current_path missing_fields;
        conversation_scan_list find path rest (S i) st missing_fields indices_to_delete
      else if is_missing item then
        conversation_scan_list find path rest (S i) st (missing_fields ++ [current_path])
                               (indices_to_delete ++ [i])
      else conversation_scan_list find path rest (S i) st missing_fields indices_to_delete
  end.

(** [ConversationGenerator._find_missing_fields]; it returns
    [missing_fields]. *)
Fixpoint conversation_find_rec (fuel : nat) (st : store) (data : value) (path : string)
    (missing_fields : list string) : option (store * list string) :=
  match fuel with
  | O => None
  | S fuel =>
      match data with
      | VRef l =>
          match st !! l with
          | Some (ODict entries) =>
              '(st, missing_fields, keys_to_delete) ←
                conversation_scan_dict (conversation_find_rec fuel) path entries st
                                       missing_fields [];
              st ← dict_delitems st l keys_to_delete;
              Some (st, missing_fields)
          | Some (OList items) =>
              '(st, missing_fields, indices_to_delete) ←
                conversation_scan_list (conversation_find_rec fuel) path items 0 st
                                       missing_fields [];
              st ← list_delitems st l (sorted_reverse indices_to_delete);
              Some (st, missing_fields)
          | None => None
          end
      | _ => Some (st, missing_fields)
      end
  end.

(** [ConversationGenerator.process_ground_truth]. *)
Definition process_ground_truth (fuel : nat) (st : store) (ground_truth : value)
    : option (value * store * list string) :=
  '(processed_gt, st, _) ← deepcopy fuel st ∅ ground_truth;
  '(st, missing_fields) ← conversation_find_rec fuel st processed_gt "" [];
  Some (processed_gt, st, missing_fields).

End Store.

(** ** Markdown fences ([core/base.py]) *)

(** The line boundaries of [str.splitlines] among the code points below
    256: line feed to carriage return, the separators 28 to 30, and next
    line (U+0085). *)
Definition is_line_boundary (a : ascii) : bool :=
  let n := nat_of_ascii a in
  ((10 <=? n)%nat && (n <=? 13)%nat) || ((28 <=? n)%nat && (n <=? 30)%nat)
  || (n =? 133)%nat.

Definition line_feed : ascii := ascii_of_nat 10.
Definition carriage_return : ascii := ascii_of_nat 13.

(** The separator of ["\n".join]. *)
Definition LF : string := String line_feed EmptyString.

(** [str.splitlines()]: a carriage return followed by a line feed is one
    boundary, and a boundary at the very end opens no further line. *)
Fixpoint str_splitlines (s : string) : list string :=
  match s with
  | EmptyString => []
  | String a s' =>
      if is_line_boundary a then
        EmptyString ::
          match s' with
          | String b s'' =>
              if bool_decide (a = carriage_return) && bool_decide (b = line_feed)
              then str_splitlines s'' else str_splitlines s'
          | EmptyString => []
          end
      else
        match str_splitlines s' with
        | [] => [String a EmptyString]
        | line :: rest => String a line :: rest
        end
  end.

(** [line.strip().startswith("```")]. *)
Definition is_fence (line : string) : bool := String.prefix "```" (str_strip line).

(** [BaseGenerator.strip_markdown_code_block]. *)
Definition strip_markdown_code_block (md_string : string) : string :=
  let lines := str_splitlines md_string in
  let filtered := filter (λ line, is_fence line = false) lines in
  String.concat LF filtered.

(** ** Conversation names ([utils/paths.py]) *)

(** [\d] on a code point below 256: the digits 0 to 9. *)
Definition is_digit (a : ascii) : bool :=
  let n := nat_of_ascii a in (48 <=? n)%nat && (n <=? 57)%nat.

(** [\d*$] from the current position: digits up to the end of the string,
    or up to a line feed that is its last code point. *)
Fixpoint digits_to_end (s : string) : bool :=
  match s with
  | EmptyString => true
  | String a s' =>
      if is_digit a then digits_to_end s'
      else bool_decide (a = line_feed) && bool_decide (s' = "")
  end.

(** What follows [prefix] in [s], when [s] starts with it. *)
Fixpoint strip_prefix (prefix s : string) : option string :=
  match prefix, s with
  | EmptyString, _ => Some s
  | String a prefix', String b s' =>
      if bool_decide (a = b) then strip_prefix prefix' s' else None
  | String _ _, EmptyString => None
  end.

(** [re.match(r"^conversation_\d+$", item)]. *)
Definition is_conversation_name (item : string) : bool :=
  match strip_prefix "conversation_" item with
  | Some (String a rest) => is_digit a && digits_to_end rest
  | _ => false
  end.

(** The order of [list.sort] on [str]: code point by code point. *)
Definition str_le (s1 s2 : string) : Prop := String.leb s1 s2 = true.

#[global] Instance str_le_dec : RelDecision str_le :=
  λ s1 s2, decide (String.leb s1 s2 = true).

(** [ExperimentPathManager.list_conversations], given the entries of the
    experiment directory, [None] when the directory does not exist. *)
Definition list_conversations (entries : option (list string)) : list string :=
  match entries with
  | None | Some [] => []
  | Some items =>
      merge_sort str_le (filter (λ item, is_conversation_name item = true) items)
  end.

(** [f"conversation_{count}"]. *)
Definition conversation (count : nat) : string := "conversation_" +:+ str_of_nat count.

(** [ExperimentPathManager.conversation_count] and [next_conversation_name]
    (the name [set_next_conversation] makes the current one). *)
Definition conversation_count (entries : option (list string)) : nat :=
  length (list_conversations entries).

Definition next_conversation_name (entries : option (list string)) : string :=
  conversation (length (list_conversations entries) + 1).

(** [f"{conversation_dir}_backup_{timestamp}"] of [delete_conversation], as
    an entry of the experiment directory. *)
Definition backup_name (conversation_name timestamp : string) : string :=
  conversation_name +:+ "_backup_" +:+ timestamp.

(** ** Notions the properties are stated with *)

(** A document with no leaf equal to [MISSING_FIELD]. *)
Fixpoint marker_free (v : json) : bool :=
  match v with
  | JStr s => negb (bool_decide (s = MISSING_FIELD))
  | JList l => forallb marker_free l
  | JDict d => forallb (λ kv, marker_free kv.2) d
  | _ => true
  end.

(** The positions, counted from [i], of the elements of a list that are
    equal to [MISSING_FIELD]. *)
Fixpoint marker_indices (l : list json) (i : nat) : list nat :=
  match l with
  | [] => []
  | x :: rest =>
      if is_missing x then i :: marker_indices rest (S i) else marker_indices rest (S i)
  end.

(** What one call of the stripper does to its argument and to
    [missing_fields]: it returns, paths are only appended, and a marker comes
    back as a marker. *)
Definition strips_well (v : json) : Prop :=
  ∀ path missing_fields,
    ∃ v' added,
      find_missing_fields_rec v path missing_fields = Ok (v', missing_fields ++ added) ∧
      is_missing v' = is_missing v.

(** A document with no list directly inside a list. *)
Fixpoint no_seq_in_seq (v : json) : bool :=
  match v with
  | JList l => forallb (λ x, negb (is_list x) && no_seq_in_seq x) l
  | JDict d => forallb (λ kv, no_seq_in_seq kv.2) d
  | _ => true
  end.

(** A record in which the empty string, as a key of the root, holds no map. *)
Definition no_map_under_empty_key (v : json) : bool :=
  match v with
  | JDict d => forallb (λ kv, negb (bool_decide (kv.1 = "") && is_dict kv.2)) d
  | _ => true
  end.

(** The paths of the specification (its section 4.1): a map entry has path
    [parent.key], or [key] at the root; a sequence entry has path
    [parent[index]], or [[index]] at the root, 0-based. The root itself has
    no path, [None]. *)
Definition spec_key_path (parent : option string) (key : string) : string :=
  match parent with
  | Some parent => parent +:+ "." +:+ key
  | None => key
  end.

Definition spec_index_path (parent : option string) (index : nat) : string :=
  match parent with
  | Some parent => parent +:+ "[" +:+ str_of_nat index +:+ "]"
  | None => "[" +:+ str_of_nat index +:+ "]"
  end.

(** The flattening of the specification: maps and sequences are recursed
    into at the paths of their entries, and a scalar is a leaf at its path. *)
Fixpoint spec_flatten (v : json) (path : option string) {struct v} : list (string * json) :=
  match v with
  | JDict d =>
      (fix entries (d : list (string * json)) : list (string * json) :=
         match d with
         | [] => []
         | (k, x) :: rest => spec_flatten x (Some (spec_key_path path k)) ++ entries rest
         end) d
  | JList l =>
      (fix elements (l : list json) (i : nat) : list (string * json) :=
         match l with
         | [] => []
         | x :: rest => spec_flatten x (Some (spec_index_path path i)) ++ elements rest (S i)
         end) l 0%nat
  | _ => [(default "" path, v)]
  end.

Fixpoint spec_flatten_entries (path : option string) (d : list (string * json))
    : list (string * json) :=
  match d with
  | [] => []
  | (k, x) :: rest =>
      spec_flatten x (Some (spec_key_path path k)) ++ spec_flatten_entries path rest
  end.

Fixpoint spec_flatten_elements (path : option string) (l : list json) (i : nat)
    : list (string * json) :=
  match l with
  | [] => []
  | x :: rest =>
      spec_flatten x (Some (spec_index_path path i)) ++ spec_flatten_elements path rest (S i)
  end.

(** What a value found at [path] adds to [items] in [_flatten_dict]. *)
Definition flatten_value (v : json) (path : string) : list (string * json) :=
  match v with
  | JDict _ => map_to_list (flatten_dict_rec v path)
  | JList l => flatten_elements path l 0
  | _ => [(path, v)]
  end.

(** An empty dict or an empty list. *)
Definition is_empty_container (v : json) : bool :=
  match v with
  | JDict [] | JList [] => true
  | _ => false
  end.

(** [empty_entry_removed r r']: [r'] is [r] without one entry whose value is
    an empty dict or an empty list, the entry being in the root dict, in a
    dict that is the value of an entry, or in a dict that is an element of a
    list value (the places the flattener reaches). *)
Inductive empty_entry_removed : json → json → Prop :=
| eer_here d1 k v d2 :
    is_empty_container v = true →
    empty_entry_removed (JDict (d1 ++ (k, v) :: d2)) (JDict (d1 ++ d2))
| eer_value d1 k v v' d2 :
    empty_entry_removed v v' →
    empty_entry_removed (JDict (d1 ++ (k, v) :: d2)) (JDict (d1 ++ (k, v') :: d2))
| eer_element d1 k l1 v v' l2 d2 :
    empty_entry_removed v v' →
    empty_entry_removed (JDict (d1 ++ (k, JList (l1 ++ v :: l2)) :: d2))
                        (JDict (d1 ++ (k, JList (l1 ++ v' :: l2)) :: d2)).

(** [value is None]. *)
Definition is_null (v : json) : bool :=
  match v with JNull => true | _ => false end.

(** Values on which [MISSING_FIELD in value] is defined, and pairs of values
    that [_compare_values] can compare. *)
Definition is_text (v : json) : bool :=
  match v with
  | JStr _ | JList _ | JDict _ => true
  | _ => false
  end.

Definition comparable (v1 v2 : json) : bool :=
  match v1, v2 with
  | JNull, _ | _, JNull => true
  | _, _ => is_text v1 && is_text v2
  end.

(** What the first loop of [_evaluate_data] stores for a ground-truth field. *)
Definition present_shape (flat_extracted : gmap string json) (field : string)
    (truth_value : json) (r : FieldResult) : Prop :=
  ground_truth r = truth_value ∧ category r = "present" ∧
  match flat_extracted !! field with
  | Some extracted_value => extracted r = extracted_value ∧ error r = None
  | None => extracted r = JNull ∧ match_ r = false ∧ error r = Some "missing_field"
  end.

(** The three counts of section 4.5, as predicates on a field result. *)
Definition is_true_positive (r : FieldResult) : bool :=
  bool_decide (category r = "present")
  && negb (bool_decide (error r = Some "missing_field")) && match_ r.

Definition is_false_negative (r : FieldResult) : bool :=
  bool_decide (category r = "present") && bool_decide (error r = Some "missing_field").

Definition is_present_mismatch (r : FieldResult) : bool :=
  bool_decide (category r = "present")
  && negb (bool_decide (error r = Some "missing_field")) && negb (match_ r).

Definition is_extra (r : FieldResult) : bool := bool_decide (category r = "extra").

Definition count (P : FieldResult → bool) (field_results : gmap string FieldResult) : nat :=
  length (filter (λ fr, P fr.2 = true) (map_to_list field_results)).

(** A number of a document that can be added to a float, as a rational: a
    float, a [bool], or an [int] that converts to a float. *)
Definition number_value (value : json) : option Q :=
  match value with
  | JInt z => if fits_float z then Some (inject_Z z) else None
  | JFloat q => Some q
  | JBool b => Some (if b then 1 else 0)%Q
  | _ => None
  end.

(** The metrics object of a run the aggregator counts: the file loaded to a
    dict whose ["metrics"] entry is a non-empty dict. *)
Definition counted_metrics (loaded : result json) : option (list (string * json)) :=
  match loaded with
  | Ok (JDict d) =>
      match dict_get "metrics" d with
      | Some (JDict (entry :: metrics)) => Some (entry :: metrics)
      | _ => None
      end
  | _ => None
  end.

(** A run the loop gets past: its file is absent or unparseable, or it
    loaded to a dict in which ["metrics"] is absent, falsy, or a dict whose
    entries for the four keys, where present, are numbers. *)
Definition loaded_or_skipped (loaded : result json) : bool :=
  match loaded with
  | Raise FileNotFoundError | Raise JSONDecodeError => true
  | Raise _ => false
  | Ok (JDict d) =>
      match dict_get "metrics" d with
      | None => true
      | Some (JDict metrics) =>
          forallb (λ key, match dict_get key metrics with
                          | Some value => bool_decide (is_Some (number_value value))
                          | None => true
                          end) metric_keys
      | Some value => negb (truthy value)
      end
  | Ok _ => false
  end.

(** [sums_differ_by delta s s']: the running totals [s'] have the keys of
    [s], each total larger by [delta]. *)
Definition sums_differ_by (delta : string → Q) (s s' : gmap string Q) : Prop :=
  ∀ k, match s !! k, s' !! k with
       | Some q, Some q' => (q' == q + delta k)%Q
       | None, None => True
       | _, _ => False
       end.

(** The value of one metric in a metrics object (0 when the key is absent),
    and its sum over the counted runs. *)
Definition metric_value (key : string) (metrics : list (string * json)) : Q :=
  default 0%Q (dict_get key metrics ≫= number_value).

Fixpoint sum_metric (key : string) (runs : list (list (string * json))) : Q :=
  match runs with
  | [] => 0%Q
  | metrics :: rest => (metric_value key metrics + sum_metric key rest)%Q
  end.

(** The evaluation file of a run records the metrics [m]: it loaded to a
    dict whose ["metrics"] entry is a dict that binds each of the four keys
    the aggregator reads to a number, the value [m] has for it. *)
Definition records_metrics (evaluation : json) (m : Metrics) : Prop :=
  ∃ d metrics,
    evaluation = JDict d ∧ dict_get "metrics" d = Some (JDict metrics) ∧
    dict_get "overall_accuracy" metrics ≫= number_value = Some (overall_accuracy m) ∧
    dict_get "precision" metrics ≫= number_value = Some (precision m) ∧
    dict_get "recall" metrics ≫= number_value = Some (recall m) ∧
    dict_get "f1_score" metrics ≫= number_value = Some (f1_score m).

(** The references of a value, and of an object, lie in [[n, m)]. *)
Definition value_in (n m : nat) (v : Store.value) : Prop :=
  match v with
  | Store.VRef l => n ≤ l < m
  | _ => True
  end.

Definition object_in (n m : nat) (o : Store.object) : Prop :=
  match o with
  | Store.ODict entries => Forall (λ kv, value_in n m kv.2) entries
  | Store.OList items => Forall (value_in n m) items
  end.

(** From location [n] on, the objects of the store refer only to objects
    from [n] on. *)
Definition closed_from (n : nat) (st : Store.store) : Prop :=
  ∀ l o, n ≤ l → st !! l = Some o → object_in n (length st) o.

(** [st'] has as many objects as [st], and those below [n] unchanged. *)
Definition keeps_below (n : nat) (st st' : Store.store) : Prop :=
  length st' = length st ∧ ∀ l, l < n → st' !! l = st !! l.

(** The copies the memo holds lie in the store, from [n] on. *)
Definition memo_in (n : nat) (st : Store.store) (m : Store.memo) : Prop :=
  ∀ l y, m !! l = Some y → n ≤ y < length st.

(** [st'] holds the objects of [st] and maybe more, those below [n]
    unchanged. *)
Definition grows_above (n : nat) (st st' : Store.store) : Prop :=
  length st ≤ length st' ∧ ∀ l, l < n → st' !! l = st !! l.

(** A copying function, run on a store closed from [n] with a memo of
    copies from [n] on, writes from [n] on only, leaves the store closed and
    the memo as it was found, and returns a value that refers to no object
    below [n]. *)
Definition copies_above
    (copy : Store.store → Store.memo → Store.value
            → option (Store.value * Store.store * Store.memo)) : Prop :=
  ∀ n st m x x' st' m',
    n ≤ length st → closed_from n st → memo_in n st m →
    copy st m x = Some (x', st', m') →
    grows_above n st st' ∧ closed_from n st' ∧ memo_in n st' m' ∧
    value_in n (length st') x'.

(** A stripping function, called on a value of a region closed from [n],
    writes in that region only and leaves it closed. *)
Definition evaluator_find_framed
    (find : Store.store → Store.value → string → list string
            → option (Store.value * Store.store * list string)) : Prop :=
  ∀ n st data path missing_fields data' st' missing_fields',
    closed_from n st → value_in n (length st) data →
    find st data path missing_fields = Some (data', st', missing_fields') →
    data' = data ∧ keeps_below n st st' ∧ closed_from n st'.

Definition conversation_find_framed
    (find : Store.store → Store.value → string → list string
            → option (Store.store * list string)) : Prop :=
  ∀ n st data path missing_fields st' missing_fields',
    closed_from n st → value_in n (length st) data →
    find st data path missing_fields = Some (st', missing_fields') →
    keeps_below n st st' ∧ closed_from n st'.

(** A result of category [c], and one that is also a match. *)
Definition in_category (c : string) (r : FieldResult) : bool :=
  bool_decide (category r = c).

Definition matched_in_category (c : string) (r : FieldResult) : bool :=
  bool_decide (category r = c) && match_ r.

(** The keys of the [categories] counters. *)
Definition category_names : list string := ["present"; "extra"; "missing"].

(** A ratio between 0 and 1. *)
Definition in_unit (x : Q) : Prop := (0 <= x)%Q ∧ (x <= 1)%Q.

(** What the first loop of [_evaluate_data] stores for a field that was not
    extracted, and for a field extracted with a matching value. *)
Definition missing_field_result (truth_value : json) : FieldResult :=
  {| ground_truth := truth_value; extracted := JNull; match_ := false;
     category := "present"; error := Some "missing_field" |}.

Definition matched_result (value : json) : FieldResult :=
  {| ground_truth := value; extracted := value; match_ := true;
     category := "present"; error := None |}.

(** Every dict of the document has distinct keys, as every Python dict has. *)
Fixpoint unique_keys (v : json) : bool :=
  match v with
  | JList l => forallb unique_keys l
  | JDict d => bool_decide (NoDup (map fst d)) && forallb (λ kv, unique_keys kv.2) d
  | _ => true
  end.

(** The document without the entries and elements equal to [MISSING_FIELD],
    at every depth. *)
Fixpoint prune (v : json) : json :=
  match v with
  | JList l => JList (filter (λ x, is_missing x = false) (map prune l))
  | JDict d =>
      JDict (filter (λ kv, is_missing kv.2 = false) (map (λ kv, (kv.1, prune kv.2)) d))
  | _ => v
  end.

(** The paths of those entries and elements, in document order; a list
    position is the one the element has in the list as given. *)
Fixpoint marker_paths (v : json) (path : string) {struct v} : list string :=
  match v with
  | JDict d =>
      (fix entries (d : list (string * json)) : list string :=
         match d with
         | [] => []
         | (key, value) :: rest =>
             (if is_container value then marker_paths value (child_key path key)
              else if is_missing value then [child_key path key] else [])
             ++ entries rest
         end) d
  | JList l =>
      (fix elements (l : list json) (i : nat) : list string :=
         match l with
         | [] => []
         | item :: rest =>
             (if is_container item then marker_paths item (index_key path i)
              else if is_missing item then [index_key path i] else [])
             ++ elements rest (S i)
         end) l 0%nat
  | _ => []
  end.

Fixpoint marker_paths_entries (path : string) (d : list (string * json)) : list string :=
  match d with
  | [] => []
  | (key, value) :: rest =>
      (if is_container value then marker_paths value (child_key path key)
       else if is_missing value then [child_key path key] else [])
      ++ marker_paths_entries path rest
  end.

Fixpoint marker_paths_elements (path : string) (l : list json) (i : nat) : list string :=
  match l with
  | [] => []
  | item :: rest =>
      (if is_container item then marker_paths item (index_key path i)
       else if is_missing item then [index_key path i] else [])
      ++ marker_paths_elements path rest (S i)
  end.

(** The keys of the entries of a dict that are equal to [MISSING_FIELD]. *)
Definition marker_keys (d : list (string * json)) : list string :=
  (filter (λ kv, is_missing kv.2 = true) d).*1.

(** The number of dicts and lists of a document: the objects [Store.load]
    makes for it. *)
Fixpoint objects (v : json) : nat :=
  match v with
  | JList l => S (list_sum (map objects l))
  | JDict d => S (list_sum (map (λ kv, objects kv.2) d))
  | _ => 0
  end.

(** The nesting depth of a document: 0 for a scalar. *)
Fixpoint depth (v : json) : nat :=
  match v with
  | JList l => S (list_max (map depth l))
  | JDict d => S (list_max (map (λ kv, depth kv.2) d))
  | _ => 0
  end.

(** Where the object of a dict or list lies among the objects of its
    items: [json.load] makes it after them, [copy.deepcopy] before them. *)
Inductive placement : Type := Loaded | Copied.

(** The place of a container among the objects of its items, the location
    of the first of these when the container starts at [base], and the
    location of the container when its items make [n] objects. *)
Definition place (o : placement) (parent : Store.object) (items : list Store.object)
    : list Store.object :=
  match o with
  | Loaded => items ++ [parent]
  | Copied => parent :: items
  end.

Definition inner (o : placement) (base : nat) : nat :=
  match o with
  | Loaded => base
  | Copied => S base
  end.

Definition root_loc (o : placement) (base n : nat) : nat :=
  match o with
  | Loaded => base + n
  | Copied => base
  end.

(** The value that stands for a document whose objects lie in the store
    from [base] on ([Store.load] returns it for a document loaded into a
    store of [base] objects). *)
Definition root (o : placement) (base : nat) (v : json) : Store.value :=
  match v with
  | JNull => Store.VNull
  | JBool b => Store.VBool b
  | JInt z => Store.VInt z
  | JFloat q => Store.VFloat q
  | JStr s => Store.VStr s
  | JList _ | JDict _ => Store.VRef (root_loc o base (pred (objects v)))
  end.

(** The objects of a document, the first at [base]. *)
Fixpoint layout (o : placement) (base : nat) (v : json) {struct v} : list Store.object :=
  match v with
  | JList l =>
      place o
        (Store.OList
           ((fix values (l : list json) (base : nat) : list Store.value :=
               match l with
               | [] => []
               | x :: rest => root o base x :: values rest (base + objects x)
               end) l (inner o base)))
        ((fix items (l : list json) (base : nat) : list Store.object :=
            match l with
            | [] => []
            | x :: rest => layout o base x ++ items rest (base + objects x)
            end) l (inner o base))
  | JDict d =>
      place o
        (Store.ODict
           ((fix values (d : list (string * json)) (base : nat)
               : list (string * Store.value) :=
               match d with
               | [] => []
               | (k, x) :: rest => (k, root o base x) :: values rest (base + objects x)
               end) d (inner o base)))
        ((fix items (d : list (string * json)) (base : nat) : list Store.object :=
            match d with
            | [] => []
            | (_, x) :: rest => layout o base x ++ items rest (base + objects x)
            end) d (inner o base))
  | _ => []
  end.

(** The objects and the values of the items of a list, and the values of
    the entries of a dict. *)
Fixpoint layouts (o : placement) (base : nat) (l : list json) : list Store.object :=
  match l with
  | [] => []
  | x :: rest => layout o base x ++ layouts o (base + objects x) rest
  end.

Fixpoint roots (o : placement) (base : nat) (l : list json) : list Store.value :=
  match l with
  | [] => []
  | x :: rest => root o base x :: roots o (base + objects x) rest
  end.

Fixpoint entry_roots (o : placement) (base : nat) (d : list (string * json))
    : list (string * Store.value) :=
  match d with
  | [] => []
  | (k, x) :: rest => (k, root o base x) :: entry_roots o (base + objects x) rest
  end.

(** The store before and behind the objects of the items of a container
    whose objects follow [pre] and are followed by [post]. *)
Definition front_of (o : placement) (pre : list Store.object) (parent : Store.object)
    : list Store.object :=
  match o with
  | Loaded => pre
  | Copied => pre ++ [parent]
  end.

Definition back_of (o : placement) (parent : Store.object) (post : list Store.object)
    : list Store.object :=
  match o with
  | Loaded => parent :: post
  | Copied => post
  end.

(** What [copy.deepcopy] does on the objects of a loaded document [x] that
    the memo does not know: it adds the objects of [x] at the end of the
    store, the object of a dict or list before those of its items, and
    enters only objects of [x] in the memo. *)
Definition copies_document
    (copy : Store.store → Store.memo → Store.value
            → option (Store.value * Store.store * Store.memo)) (x : json) : Prop :=
  ∀ pre post (m : Store.memo) st,
    st = pre ++ layout Loaded (length pre) x ++ post →
    (∀ k, length pre ≤ k < length pre + objects x → m !! k = None) →
    ∃ m', copy st m (root Loaded (length pre) x)
          = Some (root Copied (length st) x, st ++ layout Copied (length st) x, m') ∧
          ∀ k, ¬ (length pre ≤ k < length pre + objects x) → m' !! k = m !! k.

(** A string with no line boundary in it. *)
Fixpoint one_line (s : string) : bool :=
  match s with
  | EmptyString => true
  | String a s' => negb (is_line_boundary a) && one_line s'
  end.

(** * Properties *)

(** ** The loops by name *)

Lemma flatten_dict_rec_unfold d parent_key :
  flatten_dict_rec (JDict d) parent_key = dict_of_items (flatten_items parent_key d).
Proof.
  cbn [flatten_dict_rec]. f_equal.
  induction d as [|[k v] rest IH]; [done|].
  unfold flatten_items in *. cbn [map concat]. rewrite <- IH. f_equal.
  unfold flatten_entry. cbn [fst snd].
  destruct v; try done.
  generalize 0%nat. induction l as [|item l IHl]; intros i; [done|].
  cbn [flatten_elements]. by rewrite <- IHl.
Qed.

Lemma find_missing_fields_rec_dict d path missing_fields :
  find_missing_fields_rec (JDict d) path missing_fields =
    '(d1, missing_fields, keys_to_delete) ← scan_dict path d missing_fields [];
    d2 ← del_keys keys_to_delete d1;
    Ok (JDict d2, missing_fields).
Proof.
  cbn [find_missing_fields_rec]. f_equal.
  match goal with
  | |- ?scan d missing_fields [] = _ =>
      enough (∀ d mf keys, scan d mf keys = scan_dict path d mf keys) as -> by done
  end.
  clear. intros d.
  induction d as [|[key value] rest IH]; intros mf keys; [done|].
  cbn -[find_missing_fields_rec is_container is_missing].
  destruct (is_container value).
  - destruct (find_missing_fields_rec value _ mf) as [[value' mf']|e]; [|done].
    cbn -[find_missing_fields_rec]. by rewrite IH.
  - destruct (is_missing value); by rewrite IH.
Qed.

Lemma find_missing_fields_rec_list l path missing_fields :
  find_missing_fields_rec (JList l) path missing_fields =
    '(l1, missing_fields, indices_to_delete) ← scan_list path l 0 missing_fields [];
    l2 ← del_indices (sorted_reverse indices_to_delete) l1;
    Ok (JList l2, missing_fields).
Proof.
  cbn [find_missing_fields_rec]. f_equal.
  match goal with
  | |- ?scan l 0%nat missing_fields [] = _ =>
      enough (∀ l i mf idx, scan l i mf idx = scan_list path l i mf idx) as -> by done
  end.
  clear. intros l.
  induction l as [|item rest IH]; intros i mf idx; [done|].
  cbn -[find_missing_fields_rec is_container is_missing].
  destruct (is_container item).
  - destruct (find_missing_fields_rec item _ mf) as [[item' mf']|e]; [|done].
    cbn -[find_missing_fields_rec]. by rewrite IH.
  - destruct (is_missing item); by rewrite IH.
Qed.

(** ** [dict(items)] *)

Lemma list_to_map_app_union {A} (l1 l2 : list (string * A)) :
  (list_to_map (l1 ++ l2) : gmap string A) = list_to_map l1 ∪ list_to_map l2.
Proof.
  induction l1 as [|[i x] l1 IH]; simpl.
  - by rewrite (left_id_L ∅ (∪)).
  - by rewrite IH, insert_union_l.
Qed.

Lemma dict_of_items_nil {A} : dict_of_items (@nil (string * A)) = ∅.
Proof. done. Qed.

Lemma dict_of_items_app {A} (l1 l2 : list (string * A)) :
  dict_of_items (l1 ++ l2) = dict_of_items l2 ∪ dict_of_items l1.
Proof. unfold dict_of_items. by rewrite reverse_app, list_to_map_app_union. Qed.

Lemma dict_of_items_singleton {A} k (x : A) : dict_of_items [(k, x)] = {[k := x]}.
Proof. done. Qed.

Lemma dict_of_items_to_list {A} (m : gmap string A) : dict_of_items (map_to_list m) = m.
Proof.
  unfold dict_of_items.
  rewrite <- (list_to_map_to_list m) at 2.
  apply list_to_map_proper.
  - rewrite fmap_reverse, reverse_Permutation. apply NoDup_fst_map_to_list.
  - apply reverse_Permutation.
Qed.

Lemma dom_dict_of_items {A} (items : list (string * A)) :
  dom (dict_of_items items) = list_to_set items.*1.
Proof.
  unfold dict_of_items. rewrite dom_list_to_map_L, fmap_reverse.
  apply set_eq. intros k. rewrite !elem_of_list_to_set. by rewrite elem_of_reverse.
Qed.

(** ** C10: empty containers leave no trace *)

Lemma flatten_items_app parent_key d1 d2 :
  flatten_items parent_key (d1 ++ d2) =
  flatten_items parent_key d1 ++ flatten_items parent_key d2.
Proof. unfold flatten_items. by rewrite map_app, concat_app. Qed.

Lemma flatten_items_cons parent_key kv d :
  flatten_items parent_key (kv :: d) = flatten_entry parent_key kv ++ flatten_items parent_key d.
Proof. done. Qed.

Lemma flatten_entry_empty parent_key k v :
  is_empty_container v = true → flatten_entry parent_key (k, v) = [].
Proof.
  intros Hv. destruct v as [| | | | |[|]|[|]]; try discriminate Hv.
  - done.
  - unfold flatten_entry. cbn [snd]. rewrite flatten_dict_rec_unfold.
    unfold flatten_items. cbn [map concat].
    by rewrite dict_of_items_nil, map_to_list_empty.
Qed.

Lemma flatten_elements_app new_key l1 l2 i :
  flatten_elements new_key (l1 ++ l2) i =
  flatten_elements new_key l1 i ++ flatten_elements new_key l2 (length l1 + i).
Proof.
  revert i. induction l1 as [|x l1 IH]; intros i; [done|].
  cbn [app flatten_elements length]. rewrite IH, <- app_assoc.
  by replace (length l1 + S i)%nat with (S (length l1) + i)%nat by lia.
Qed.

Lemma empty_entry_removed_dict r r' :
  empty_entry_removed r r' → is_dict r = true ∧ is_dict r' = true.
Proof. by destruct 1. Qed.

Lemma flatten_dict_rec_removed r r' :
  empty_entry_removed r r' →
  ∀ parent_key, flatten_dict_rec r parent_key = flatten_dict_rec r' parent_key.
Proof.
  induction 1 as [d1 k v d2 Hv|d1 k v v' d2 Hr IH|d1 k l1 v v' l2 d2 Hr IH];
    intros parent_key; rewrite !flatten_dict_rec_unfold; f_equal;
    rewrite !flatten_items_app, !flatten_items_cons; f_equal.
  - by rewrite flatten_entry_empty.
  - f_equal. apply empty_entry_removed_dict in Hr as Hd.
    destruct v, v'; try (by destruct Hd).
    unfold flatten_entry. cbn [fst snd]. by rewrite IH.
  - f_equal. unfold flatten_entry. cbn [fst snd].
    rewrite !flatten_elements_app. f_equal.
    apply empty_entry_removed_dict in Hr as Hd.
    destruct v, v'; try (by destruct Hd).
    cbn [flatten_elements]. by rewrite IH.
Qed.

Lemma flatten_dict_removed r r' parent_key :
  empty_entry_removed r r' → flatten_dict r parent_key = flatten_dict r' parent_key.
Proof.
  intros Hr. pose proof (flatten_dict_rec_removed _ _ Hr parent_key) as Heq.
  apply empty_entry_removed_dict in Hr as [? ?].
  destruct r, r'; try done. unfold flatten_dict. by rewrite Heq.
Qed.

(** C10, as the code has it. An entry whose value is an empty dict or an
    empty list adds nothing to [items], so the flat map of a record is the
    flat map of the record without the entry, wherever in the record the
    flattener reaches the entry (in the root dict, in a dict that is the
    value of an entry, in a dict that is an element of a list value); and
    the reconciler, which looks at the records only through their
    flat maps, returns the same field results and the same metrics (or
    raises the same exception) with and without the entry, on either side. *)
Theorem empty_container_vanishes :
  (∀ parent_key k v, is_empty_container v = true →
     flatten_entry parent_key (k, v) = []) ∧
  (∀ r r' parent_key, empty_entry_removed r r' →
     flatten_dict r parent_key = flatten_dict r' parent_key) ∧
  (∀ oracle py_repr r r' other missing_fields calls, empty_entry_removed r r' →
     evaluate_data oracle py_repr r other missing_fields calls =
       evaluate_data oracle py_repr r' other missing_fields calls ∧
     evaluate_data oracle py_repr other r missing_fields calls =
       evaluate_data oracle py_repr other r' missing_fields calls).
Proof.
  split; [apply flatten_entry_empty|].
  split; [intros; by apply flatten_dict_removed|].
  intros oracle py_repr r r' other mf calls Hr.
  unfold evaluate_data. by rewrite (flatten_dict_removed r r' "" Hr).
Qed.

Lemma empty_container_vanishes_witness :
  flatten_dict (JDict [("name", JStr "Jane"); ("accounts", JList []); ("address", JDict [])]) "" =
  flatten_dict (JDict [("name", JStr "Jane"); ("address", JDict [])]) "".
Proof.
  apply (proj1 (proj2 empty_container_vanishes)).
  apply (eer_here [("name", JStr "Jane")] "accounts" (JList []) [("address", JDict [])]).
  reflexivity.
Defined.

(** C10 as stated fails below a list that is an element of a list, which
    the flattener records whole: the entry ["k"] with an empty list stays
    inside the leaf at ["a[0]"], the flat map differs from that of the
    record without the entry, and so do the metrics. Against the same
    extraction the record with the entry scores a true positive, and the
    record without it a false positive after a question to the oracle (the
    [str] of the two leaves is given for [py_repr]). *)
Lemma empty_container_vanishes_counterexample :
  let r := JDict [("a", JList [JList [JDict [("k", JList [])]]])] in
  let r' := JDict [("a", JList [JList [JDict []]])] in
  let py_repr := λ v, match v with
                      | JList [JDict []] => "[{}]"
                      | _ => "[{'k': []}]"
                      end in
  let oracle := λ _ _ : string, Some "NO" in
  flatten_dict r "" = Ok {["a[0]" := JList [JDict [("k", JList [])]]]} ∧
  flatten_dict r' "" = Ok {["a[0]" := JList [JDict []]]} ∧
  ∃ out out',
    evaluate_data oracle py_repr r r None [] = (Ok out, []) ∧
    evaluate_data oracle py_repr r' r None [] = (Ok out', [("[{}]", "[{'k': []}]")]) ∧
    true_positives (ev_metrics out) = 1%nat ∧ false_positives (ev_metrics out) = 0%nat ∧
    true_positives (ev_metrics out') = 0%nat ∧ false_positives (ev_metrics out') = 1%nat.
Proof.
  cbv zeta. split_and!; [vm_compute; reflexivity..|].
  eexists _, _. split_and!; vm_compute; reflexivity.
Qed.

(** ** C6: the flattener against the flattening of the specification *)

Lemma spec_flatten_dict d path :
  spec_flatten (JDict d) path = spec_flatten_entries path d.
Proof.
  cbn [spec_flatten]. induction d as [|[k x] rest IH]; [done|].
  cbn [spec_flatten_entries]. by rewrite <- IH.
Qed.

Lemma spec_flatten_list l path :
  spec_flatten (JList l) path = spec_flatten_elements path l 0.
Proof.
  cbn [spec_flatten]. generalize 0%nat.
  induction l as [|x rest IH]; intros i; [done|].
  cbn [spec_flatten_elements]. by rewrite <- IH.
Qed.

Lemma spec_flatten_leaves v path :
  Forall (λ item, is_container item.2 = false) (spec_flatten v path).
Proof.
  revert path. induction v as [| | | | |l IH|d IH] using json_ind'; intros path;
    try (by repeat constructor).
  - rewrite spec_flatten_list. generalize 0%nat.
    induction IH as [|x l Hx _ IHl]; intros i; [constructor|].
    cbn [spec_flatten_elements]. apply Forall_app. split; [apply Hx|apply IHl].
  - rewrite spec_flatten_dict.
    induction IH as [|[k x] d Hx _ IHd]; [constructor|].
    cbn [spec_flatten_entries]. apply Forall_app. split; [apply Hx|apply IHd].
Qed.

Lemma dict_of_items_Forall {A} (P : A → Prop) (items : list (string * A)) :
  Forall (λ item, P item.2) items → map_Forall (λ _ x, P x) (dict_of_items items).
Proof.
  intros Hall k x Hk. unfold dict_of_items in Hk.
  apply elem_of_list_to_map_2 in Hk. rewrite elem_of_reverse in Hk.
  rewrite Forall_forall in Hall. exact (Hall (k, x) Hk).
Qed.

Lemma flatten_entry_value parent_key k v :
  flatten_entry parent_key (k, v) = flatten_value v (child_key parent_key k).
Proof. by destruct v. Qed.

Lemma str_app_not_empty (s1 s2 : string) : s1 ≠ "" → s1 +:+ s2 ≠ "".
Proof. by destruct s1. Qed.

Lemma index_key_not_empty new_key i : index_key new_key i ≠ "".
Proof. unfold index_key. by destruct new_key. Qed.

Lemma child_key_nested parent_key k :
  parent_key ≠ "" →
  child_key parent_key k = spec_key_path (Some parent_key) k ∧ child_key parent_key k ≠ "".
Proof.
  intros Hne. unfold child_key. rewrite decide_False by done.
  split; [done|]. by apply str_app_not_empty.
Qed.

(** Below the root, and at the root for anything but a dict, the code's
    items and the specification's give the same flat map. *)
Lemma flatten_value_spec v :
  no_seq_in_seq v = true →
  ∀ path, path ≠ "" ∨ is_dict v = false →
    dict_of_items (flatten_value v path) = dict_of_items (spec_flatten v (Some path)).
Proof.
  induction v as [| | | | |l IH|d IH] using json_ind'; try done; intros Hns path Hpath.
  - (* a list: its elements are dicts or scalars *)
    rewrite spec_flatten_list. cbn [flatten_value no_seq_in_seq] in *.
    clear Hpath. generalize 0%nat.
    induction IH as [|x l Hx _ IHl]; intros i; [done|].
    cbn [forallb] in Hns. apply andb_prop in Hns as [Hx' Hl].
    apply andb_prop in Hx' as [Hnl Hnsx].
    cbn [flatten_elements spec_flatten_elements].
    rewrite !dict_of_items_app, (IHl Hl). f_equal.
    change (spec_index_path (Some path) i) with (index_key path i).
    rewrite <- (Hx Hnsx (index_key path i)) by (left; apply index_key_not_empty).
    by destruct x.
  - (* a dict, below the root *)
    destruct Hpath as [Hpath|?]; [|done].
    cbn [flatten_value]. rewrite dict_of_items_to_list.
    rewrite flatten_dict_rec_unfold, spec_flatten_dict.
    cbn [no_seq_in_seq] in Hns.
    induction IH as [|[k x] d Hx _ IHd]; [done|].
    cbn [forallb snd] in Hns, Hx. apply andb_prop in Hns as [Hnsx Hnsd].
    rewrite flatten_items_cons. cbn [spec_flatten_entries].
    rewrite !dict_of_items_app, (IHd Hnsd). f_equal.
    rewrite flatten_entry_value.
    destruct (child_key_nested path k Hpath) as [<- Hne]. apply Hx; [done|by left].
Qed.

(** The root dict: an entry has its key as path. *)
Lemma flatten_dict_rec_spec_root d :
  no_seq_in_seq (JDict d) = true → no_map_under_empty_key (JDict d) = true →
  flatten_dict_rec (JDict d) "" = dict_of_items (spec_flatten (JDict d) None).
Proof.
  rewrite flatten_dict_rec_unfold, spec_flatten_dict.
  cbn [no_seq_in_seq no_map_under_empty_key].
  induction d as [|[k x] d IHd]; intros Hns Hroot; [done|].
  cbn [forallb fst snd] in Hns, Hroot.
  apply andb_prop in Hns as [Hnsx Hnsd]. apply andb_prop in Hroot as [Hx Hrootd].
  rewrite flatten_items_cons. cbn [spec_flatten_entries spec_key_path].
  rewrite !dict_of_items_app, (IHd Hnsd Hrootd). f_equal.
  rewrite flatten_entry_value. change (child_key "" k) with k.
  apply flatten_value_spec; [done|].
  apply negb_true_iff, andb_false_iff in Hx as [Hk|Hd]; [|by right].
  left. by apply bool_decide_eq_false in Hk.
Qed.

(** C6, as the code has it. For a record whose root is a dict, in which no
    list is an element of a list and the empty string, as a key of the root,
    holds no dict, [_flatten_dict] returns the flat map of the
    specification's flattening: map entries recurse with path [parent.key]
    ([key] at the root), the elements of a list recurse with path
    [parent[index]], 0-based, nested dicts and lists are recursed into, and
    every leaf recorded is a scalar. Called below the root, with a parent
    path that is not empty, it returns the flat map of the specification's
    flattening under that path. *)
Theorem flatten_dict_refines_spec (record : json) :
  is_dict record = true → no_seq_in_seq record = true →
  (no_map_under_empty_key record = true →
   flatten_dict record "" = Ok (dict_of_items (spec_flatten record None))) ∧
  (∀ parent_key, parent_key ≠ "" →
     flatten_dict record parent_key
       = Ok (dict_of_items (spec_flatten record (Some parent_key)))) ∧
  (∀ path, map_Forall (λ _ leaf, is_container leaf = false)
                      (dict_of_items (spec_flatten record path))).
Proof.
  intros Hd Hns. destruct record as [| | | | | |d]; try done. split_and!.
  - intros Hroot. unfold flatten_dict. f_equal. by apply flatten_dict_rec_spec_root.
  - intros parent_key Hne. unfold flatten_dict. f_equal.
    rewrite <- (flatten_value_spec _ Hns parent_key) by (by left).
    cbn [flatten_value]. by rewrite dict_of_items_to_list.
  - intros path. apply dict_of_items_Forall, spec_flatten_leaves.
Qed.

Lemma flatten_dict_refines_spec_witness :
  flatten_dict
    (JDict [("address", JDict [("history", JList [JDict [("city", JStr "Leeds")]])]);
            ("tags", JList [JStr "a"; JNull])]) "" =
  Ok (dict_of_items [("address.history[0].city", JStr "Leeds");
                     ("tags[0]", JStr "a"); ("tags[1]", JNull)]).
Proof.
  exact (proj1 (flatten_dict_refines_spec
    (JDict [("address", JDict [("history", JList [JDict [("city", JStr "Leeds")]])]);
            ("tags", JList [JStr "a"; JNull])]) eq_refl eq_refl) eq_refl).
Defined.

(** C6 as stated fails three times. A record whose root is a list is
    refused ([d.items()] raises), so no path [[index]] at the root exists. A
    list that is an element of a list is recorded whole at [parent[index]],
    with no path into it. And the code writes [key] for [parent.key]
    whenever the parent path is the empty string, which it also is for a
    dict held by the empty-string key of the root: its entry ["a"] gets
    path ["a"] where the specification has [".a"], and is overwritten by
    the root entry ["a"]. *)
Lemma flatten_dict_counterexample :
  flatten_dict (JList [JInt 1]) "" = Raise AttributeError ∧
  (∃ flat, flatten_dict (JDict [("a", JList [JList [JInt 1]])]) "" = Ok flat ∧
           flat !! "a[0]" = Some (JList [JInt 1]) ∧
           flat !! "a[0][0]" = None) ∧
  flatten_dict (JDict [("", JDict [("a", JStr "x")]); ("a", JStr "y")]) ""
    = Ok {["a" := JStr "y"]} ∧
  spec_flatten (JDict [("", JDict [("a", JStr "x")]); ("a", JStr "y")]) None
    = [(".a", JStr "x"); ("a", JStr "y")].
Proof.
  split_and!; [reflexivity| |vm_compute; reflexivity|reflexivity].
  eexists. repeat split; vm_compute; reflexivity.
Qed.

(** ** The comparator *)

Section Comparator.
Variable oracle : string → string → option string.
Variable py_repr : json → string.

Lemma contains_marker_text v :
  is_text v = true → ∃ b, contains_marker v = Ok b.
Proof. destruct v; try done; intros _; eexists; reflexivity. Qed.

Lemma contains_marker_not_text v :
  v ≠ JNull → is_text v = false → contains_marker v = Raise TypeError.
Proof. by destruct v. Qed.

(** With both markers tests defined, the comparison runs to its end. *)
Lemma compare_values_text v1 v2 b1 b2 calls :
  v1 ≠ JNull → v2 ≠ JNull →
  contains_marker v1 = Ok b1 → contains_marker v2 = Ok b2 →
  compare_values oracle py_repr v1 v2 calls =
    if b1 && b2 then (Ok true, calls)
    else if b1 || b2 then (Ok false, calls)
    else
      let str1 := str_strip (str_lower (py_str py_repr v1)) in
      let str2 := str_strip (str_lower (py_str py_repr v2)) in
      if bool_decide (str1 = str2) then (Ok true, calls)
      else semantic_match oracle str1 str2 calls.
Proof.
  intros Hn1 Hn2 H1 H2.
  destruct v1; try done; destruct v2; try done;
    unfold compare_values, mbind, eval_bind, lift, mret, eval_ret;
    rewrite ?H1, ?H2; destruct b1; rewrite ?H2; destruct b2;
    cbn [andb orb]; try case_bool_decide; reflexivity.
Qed.

Lemma semantic_match_returns value1 value2 calls :
  ∃ b calls', semantic_match oracle value1 value2 calls = (Ok b, calls').
Proof.
  unfold semantic_match.
  destruct (_ || _); [by eexists _, _|].
  destruct (oracle value1 value2); by eexists _, _.
Qed.

Lemma compare_values_null_l v calls :
  compare_values oracle py_repr JNull v calls = (Ok (is_null v), calls).
Proof. by destruct v. Qed.

Lemma compare_values_null_r v calls :
  compare_values oracle py_repr v JNull calls = (Ok (is_null v), calls).
Proof. by destruct v. Qed.

Lemma compare_values_comparable v1 v2 calls :
  comparable v1 v2 = true →
  ∃ b calls', compare_values oracle py_repr v1 v2 calls = (Ok b, calls').
Proof.
  intros Hc.
  destruct (is_null v1) eqn:Hn1;
    [destruct v1; try done; rewrite compare_values_null_l; by eexists _, _|].
  destruct (is_null v2) eqn:Hn2;
    [destruct v2; try done; rewrite compare_values_null_r; by eexists _, _|].
  assert (is_text v1 = true ∧ is_text v2 = true) as [Ht1 Ht2].
  { destruct v1, v2; try done. }
  assert (v1 ≠ JNull) as Hn1' by (by intros ->).
  assert (v2 ≠ JNull) as Hn2' by (by intros ->).
  destruct (contains_marker_text _ Ht1) as [b1 H1].
  destruct (contains_marker_text _ Ht2) as [b2 H2].
  rewrite (compare_values_text _ _ _ _ _ Hn1' Hn2' H1 H2).
  destruct (b1 && b2); [by eexists _, _|].
  destruct (b1 || b2); [by eexists _, _|].
  cbv zeta. case_bool_decide; [by eexists _, _|].
  apply semantic_match_returns.
Qed.

(** A number or a boolean on either side of two non-null values: the
    marker test raises. *)
Lemma compare_values_raises v1 v2 calls :
  v1 ≠ JNull → v2 ≠ JNull → is_text v1 && is_text v2 = false →
  compare_values oracle py_repr v1 v2 calls = (Raise TypeError, calls).
Proof.
  intros Hn1 Hn2 Ht.
  destruct v1; try done; destruct v2; try done;
    unfold compare_values, mbind, eval_bind, lift, mret, eval_ret;
    unfold contains_marker; cbn [py_in];
    repeat (destruct (str_contains _ _) || destruct (existsb _ _)
            || destruct (bool_decide _));
    reflexivity.
Qed.

End Comparator.

(** C3, at numbers and booleans. [_compare_values] tests
    [MISSING_FIELD in value1] before it converts the values with [str]: on two
    non-null values of which one is a number or a boolean the test raises
    [TypeError], where the claim has it return a boolean. *)
Theorem compare_values_number_raises oracle py_repr calls :
  compare_values oracle py_repr (JInt 42) (JInt 42) calls = (Raise TypeError, calls) ∧
  compare_values oracle py_repr (JStr "42") (JInt 42) calls = (Raise TypeError, calls) ∧
  compare_values oracle py_repr (JBool true) (JBool true) calls = (Raise TypeError, calls).
Proof. repeat split. Qed.

(** ** C8: the short circuit of the equivalence check *)








(** ** The reconciler *)

Section Reconciler.
Variable oracle : string → string → option string.
Variable py_repr : json → string.

Lemma present_result_shape flat_extracted field truth_value calls r calls' :
  present_result oracle py_repr flat_extracted field truth_value calls = (Ok r, calls') →
  present_shape flat_extracted field truth_value r.
Proof.
  unfold present_result, present_shape.
  destruct (flat_extracted !! field) as [extracted_value|].
  - unfold mbind, eval_bind, mret, eval_ret.
    destruct (compare_values _ _ _ _ calls) as [[b|e] calls1]; [|done].
    by intros [= <- <-].
  - unfold mret, eval_ret. by intros [= <- <-].
Qed.

Lemma present_result_returns flat_extracted field truth_value calls :
  (∀ extracted_value, flat_extracted !! field = Some extracted_value →
     comparable truth_value extracted_value = true) →
  ∃ r calls', present_result oracle py_repr flat_extracted field truth_value calls
              = (Ok r, calls').
Proof.
  intros Hc. unfold present_result.
  destruct (flat_extracted !! field) as [extracted_value|]; [|by eexists _, _].
  destruct (compare_values_comparable oracle py_repr truth_value extracted_value calls)
    as (b & calls' & Hb); [by apply Hc|].
  unfold mbind, eval_bind. rewrite Hb. by eexists _, _.
Qed.

(** The first loop, when it ends: the fields of [items] are added, each
    with a result of the present shape, and nothing else changes. *)
Lemma present_loop_spec flat_extracted items :
  NoDup items.*1 →
  ∀ field_results calls field_results' calls',
    present_loop oracle py_repr flat_extracted items field_results calls
      = (Ok field_results', calls') →
    (∀ field, field ∉ items.*1 → field_results' !! field = field_results !! field) ∧
    (∀ field truth_value, (field, truth_value) ∈ items →
       ∃ r, field_results' !! field = Some r ∧
            present_shape flat_extracted field truth_value r).
Proof.
  induction items as [|[field truth_value] rest IH]; intros Hnd fr calls fr' calls' Hrun.
  - cbn in Hrun. injection Hrun as <- <-. split; [done|]. by intros ?? ?%elem_of_nil.
  - cbn [present_loop] in Hrun. unfold mbind, eval_bind in Hrun.
    destruct (present_result _ _ _ _ _ calls) as [[r|e] calls1] eqn:Hr; [|done].
    apply present_result_shape in Hr.
    apply NoDup_cons in Hnd as [Hfresh Hnd].
    destruct (IH Hnd _ _ _ _ Hrun) as [Hout Hin]. split.
    + intros f Hf. cbn in Hf. apply not_elem_of_cons in Hf as [Hne Hf].
      rewrite (Hout f Hf). by rewrite lookup_insert_ne.
    + intros f v [[= -> ->]|Hmem]%elem_of_cons.
      * exists r. split; [|done]. rewrite (Hout field Hfresh).
        by rewrite lookup_insert_eq.
      * by apply Hin.
Qed.

Lemma present_loop_returns flat_extracted items :
  (∀ field truth_value extracted_value,
     (field, truth_value) ∈ items → flat_extracted !! field = Some extracted_value →
     comparable truth_value extracted_value = true) →
  ∀ field_results calls,
    ∃ field_results' calls',
      present_loop oracle py_repr flat_extracted items field_results calls
        = (Ok field_results', calls').
Proof.
  induction items as [|[field truth_value] rest IH]; intros Hc fr calls.
  - by eexists _, _.
  - cbn [present_loop]. unfold mbind, eval_bind.
    destruct (present_result_returns flat_extracted field truth_value calls)
      as (r & calls1 & ->).
    { intros ev Hev. apply (Hc field truth_value ev); [left|done]. }
    apply IH. intros f v ev Hmem. apply Hc. by right.
Qed.

(** The second loop: a field of [items] that the ground truth lacks gets
    its [extra_result]; every other field keeps what it had. *)
Lemma extra_loop_lookup flat_ground_truth items :
  NoDup items.*1 →
  ∀ field_results field,
    extra_loop flat_ground_truth items field_results !! field =
      match (list_to_map items : gmap string json) !! field with
      | Some extracted_value =>
          if bool_decide (is_Some (flat_ground_truth !! field))
          then field_results !! field
          else Some (extra_result extracted_value)
      | None => field_results !! field
      end.
Proof.
  unfold extra_loop.
  induction items as [|[f v] rest IH]; intros Hnd fr field; [done|].
  apply NoDup_cons in Hnd as [Hfresh Hnd].
  cbn [foldl fst snd]. rewrite (IH Hnd). rewrite list_to_map_cons.
  destruct (decide (f = field)) as [->|Hne].
  - rewrite lookup_insert_eq.
    rewrite (not_elem_of_list_to_map_1 rest field Hfresh).
    case_bool_decide; [done|]. by rewrite lookup_insert_eq.
  - rewrite lookup_insert_ne by done.
    assert ((if bool_decide (is_Some (flat_ground_truth !! f))
             then fr else <[f:=extra_result v]> fr) !! field = fr !! field) as ->; [|done].
    case_bool_decide; [done|]. by rewrite lookup_insert_ne.
Qed.

Lemma extra_loop_map_lookup flat_ground_truth flat_extracted field_results field :
  extra_loop flat_ground_truth (map_to_list flat_extracted) field_results !! field =
    match flat_extracted !! field with
    | Some extracted_value =>
        if bool_decide (is_Some (flat_ground_truth !! field))
        then field_results !! field
        else Some (extra_result extracted_value)
    | None => field_results !! field
    end.
Proof.
  rewrite extra_loop_lookup by apply NoDup_fst_map_to_list.
  by rewrite list_to_map_to_list.
Qed.

(** [_evaluate_data], when it returns: the two flat maps exist and the
    field results are those of the two loops. *)
Lemma evaluate_data_returned ground_truth extracted missing_fields calls out calls' :
  evaluate_data oracle py_repr ground_truth extracted missing_fields calls
    = (Ok out, calls') →
  ∃ flat_ground_truth flat_extracted present calls0,
    flatten_dict ground_truth "" = Ok flat_ground_truth ∧
    flatten_dict extracted "" = Ok flat_extracted ∧
    present_loop oracle py_repr flat_extracted (map_to_list flat_ground_truth) ∅ calls0
      = (Ok present, calls') ∧
    ev_field_results out =
      extra_loop flat_ground_truth (map_to_list flat_extracted) present ∧
    ev_metrics out =
      calculate_metrics (ev_field_results out) (Some (default [] missing_fields)).
Proof.
  unfold evaluate_data, mbind, eval_bind, lift, mret, eval_ret.
  destruct (flatten_dict ground_truth "") as [fgt|]; [|done].
  destruct (flatten_dict extracted "") as [fex|]; [|done].
  destruct (present_loop _ _ _ _ _ calls) as [[present|] calls1] eqn:Hloop; [|done].
  intros [= <- <-]. by exists fgt, fex, present, calls.
Qed.

(** The field results of a run that returns, path by path. *)
Lemma evaluate_data_lookup ground_truth extracted missing_fields calls out calls'
    flat_ground_truth flat_extracted field :
  evaluate_data oracle py_repr ground_truth extracted missing_fields calls
    = (Ok out, calls') →
  flatten_dict ground_truth "" = Ok flat_ground_truth →
  flatten_dict extracted "" = Ok flat_extracted →
  match flat_ground_truth !! field, flat_extracted !! field with
  | Some truth_value, _ =>
      ∃ r, ev_field_results out !! field = Some r ∧
           present_shape flat_extracted field truth_value r
  | None, Some extracted_value =>
      ev_field_results out !! field = Some (extra_result extracted_value)
  | None, None => ev_field_results out !! field = None
  end.
Proof.
  intros Hrun Hgt Hex.
  destruct (evaluate_data_returned _ _ _ _ _ _ Hrun)
    as (fgt & fex & present & calls0 & Hgt' & Hex' & Hloop & -> & _).
  rewrite Hgt in Hgt'. rewrite Hex in Hex'. injection Hgt' as <-. injection Hex' as <-.
  destruct (present_loop_spec _ _ (NoDup_fst_map_to_list _) _ _ _ _ Hloop)
    as [Hout Hin].
  rewrite extra_loop_map_lookup.
  destruct (flat_ground_truth !! field) as [truth_value|] eqn:Hf.
  - destruct (Hin field truth_value) as (r & Hr & Hshape);
      [by apply elem_of_map_to_list|].
    exists r. split; [|done].
    destruct (flat_extracted !! field); [|done].
    by rewrite bool_decide_eq_true_2 by done.
  - assert (present !! field = None) as Hnone.
    { rewrite Hout; [done|]. intros [[f v] [Heq Hmem]]%list_elem_of_fmap.
      cbn in Heq. subst f. apply elem_of_map_to_list in Hmem. congruence. }
    destruct (flat_extracted !! field); [|done].
    rewrite bool_decide_eq_false_2; [done|]. by intros [? ?].
Qed.

End Reconciler.

(** C1, as the code has it. For two records whose roots are dicts (so that
    both flatten) and whose values at every path they share can be compared,
    the reconciler returns, and its field results have exactly the paths of
    the two flat maps, one result a path; each result has one of the three
    categories, every ground-truth path has category present, and every path
    of the extracted record alone has category missing or extra. *)
Theorem evaluate_data_partition oracle py_repr ground_truth extracted missing_fields calls
    flat_ground_truth flat_extracted :
  flatten_dict ground_truth "" = Ok flat_ground_truth →
  flatten_dict extracted "" = Ok flat_extracted →
  (∀ field truth_value extracted_value,
     flat_ground_truth !! field = Some truth_value →
     flat_extracted !! field = Some extracted_value →
     comparable truth_value extracted_value = true) →
  ∃ out calls',
    evaluate_data oracle py_repr ground_truth extracted missing_fields calls
      = (Ok out, calls') ∧
    dom (ev_field_results out) = dom flat_ground_truth ∪ dom flat_extracted ∧
    (∀ field r, ev_field_results out !! field = Some r →
       category r = "present" ∨ category r = "extra" ∨ category r = "missing") ∧
    (∀ field, field ∈ dom flat_ground_truth →
       ∃ r, ev_field_results out !! field = Some r ∧ category r = "present") ∧
    (∀ field, field ∈ dom flat_extracted → field ∉ dom flat_ground_truth →
       ∃ r, ev_field_results out !! field = Some r ∧
            (category r = "missing" ∨ category r = "extra")).
Proof.
  intros Hgt Hex Hcmp.
  destruct (present_loop_returns oracle py_repr flat_extracted (map_to_list flat_ground_truth))
    with (field_results := (∅ : gmap string FieldResult)) (calls := calls)
    as (present & calls' & Hloop).
  { intros f v ev Hmem. apply elem_of_map_to_list in Hmem. by apply Hcmp. }
  assert (∃ out, evaluate_data oracle py_repr ground_truth extracted missing_fields calls
                 = (Ok out, calls')) as [out Hrun].
  { unfold evaluate_data, mbind, eval_bind, lift, mret, eval_ret.
    rewrite Hgt, Hex, Hloop. by eexists. }
  exists out, calls'. split; [done|].
  pose proof (λ field, evaluate_data_lookup oracle py_repr _ _ _ _ _ _ _ _ field
                         Hrun Hgt Hex) as Hlook.
  assert (∀ v, category (extra_result v) = "missing" ∨ category (extra_result v) = "extra")
    as Hextra.
  { intros v. unfold extra_result. destruct (is_missing v); [by left|by right]. }
  repeat split.
  - apply set_eq. intros field. rewrite elem_of_union, !elem_of_dom.
    specialize (Hlook field).
    destruct (flat_ground_truth !! field) as [tv|], (flat_extracted !! field) as [ev|].
    + destruct Hlook as (r & -> & _). split; eauto.
    + destruct Hlook as (r & -> & _). split; eauto.
    + rewrite Hlook. split; eauto.
    + rewrite Hlook. split; [by intros [? ?]|by intros [[? ?]|[? ?]]].
  - intros field r Hr. specialize (Hlook field).
    destruct (flat_ground_truth !! field) as [tv|].
    + destruct Hlook as (r' & Hr' & _ & Hcat & _). left. congruence.
    + destruct (flat_extracted !! field) as [ev|]; [|congruence].
      rewrite Hlook in Hr. injection Hr as <-. destruct (Hextra ev); auto.
  - intros field [tv Htv]%elem_of_dom. specialize (Hlook field). rewrite Htv in Hlook.
    destruct Hlook as (r & Hr & _ & Hcat & _). by exists r.
  - intros field [ev Hev]%elem_of_dom Hnot. specialize (Hlook field).
    apply not_elem_of_dom in Hnot. rewrite Hnot, Hev in Hlook.
    exists (extra_result ev). split; [done|apply Hextra].
Qed.

Lemma evaluate_data_partition_witness :
  ∃ out calls',
    evaluate_data (λ _ _, Some "NO") (λ _, "")
      (JDict [("name", JStr "Jane Doe"); ("income", JStr "50000")])
      (JDict [("name", JStr "jane doe"); ("phone", JStr MISSING_FIELD)]) None []
      = (Ok out, calls') ∧
    dom (ev_field_results out) = {["name"; "income"]} ∪ {["name"; "phone"]}.
Proof.
  destruct (evaluate_data_partition (λ _ _, Some "NO") (λ _, "")
    (JDict [("name", JStr "Jane Doe"); ("income", JStr "50000")])
    (JDict [("name", JStr "jane doe"); ("phone", JStr MISSING_FIELD)]) None []
    (dict_of_items [("name", JStr "Jane Doe"); ("income", JStr "50000")])
    (dict_of_items [("name", JStr "jane doe"); ("phone", JStr MISSING_FIELD)]))
    as (out & calls' & Hrun & Hdom & _).
  - vm_compute. reflexivity.
  - vm_compute. reflexivity.
  - intros field tv ev Htv Hev.
    destruct (decide (field = "name")) as [->|Hne].
    + vm_compute in Htv, Hev. injection Htv as <-. injection Hev as <-. reflexivity.
    + unfold dict_of_items in Hev. cbn [reverse rev_append list_to_map] in Hev.
      destruct (decide (field = "phone")) as [->|Hne'].
      * vm_compute in Htv. discriminate.
      * exfalso. revert Hev. cbn. rewrite !lookup_insert_ne by done. done.
  - exists out, calls'. split; [exact Hrun|].
    rewrite Hdom. unfold dict_of_items. cbn. rewrite !dom_insert_L, dom_empty_L.
    set_solver.
Defined.

(** C1 as stated fails on a record whose root is a list, which the flattener
    refuses, and on two records that share a path with a number (see C3). *)
Lemma evaluate_data_counterexample :
  evaluate_data (λ _ _, None) (λ _, "") (JList []) (JDict []) None []
    = (Raise AttributeError, []) ∧
  evaluate_data (λ _ _, None) (λ _, "")
    (JDict [("age", JInt 30)]) (JDict [("age", JInt 30)]) None []
    = (Raise TypeError, []).
Proof. split; vm_compute; reflexivity. Qed.

(** C4, as the code has it. Whenever the reconciler returns, a path of the
    extracted flat map that the ground-truth flat map lacks has this result:
    if the extracted value equals [MISSING_FIELD], category missing, match
    true, and [MISSING_FIELD] as ground truth; otherwise category extra,
    match false, and the error tag [extra_field]. *)
Theorem evaluate_data_extracted_only oracle py_repr ground_truth extracted missing_fields
    calls out calls' flat_ground_truth flat_extracted field extracted_value :
  evaluate_data oracle py_repr ground_truth extracted missing_fields calls
    = (Ok out, calls') →
  flatten_dict ground_truth "" = Ok flat_ground_truth →
  flatten_dict extracted "" = Ok flat_extracted →
  flat_extracted !! field = Some extracted_value →
  flat_ground_truth !! field = None →
  ev_field_results out !! field =
    Some (if is_missing extracted_value
          then {| ground_truth := JStr MISSING_FIELD; extracted := extracted_value;
                  match_ := true; category := "missing"; error := None |}
          else {| ground_truth := JNull; extracted := extracted_value;
                  match_ := false; category := "extra"; error := Some "extra_field" |}).
Proof.
  intros Hrun Hgt Hex Hev Hnone.
  pose proof (evaluate_data_lookup oracle py_repr _ _ _ _ _ _ _ _ field Hrun Hgt Hex)
    as Hlook.
  rewrite Hnone, Hev in Hlook. rewrite Hlook. unfold extra_result.
  by destruct (is_missing extracted_value).
Qed.

Lemma evaluate_data_extracted_only_witness :
  ∃ out calls',
    evaluate_data (λ _ _, Some "NO") (λ _, "")
      (JDict [("name", JStr "Jane Doe")])
      (JDict [("name", JStr "jane doe"); ("phone", JStr MISSING_FIELD)]) None []
      = (Ok out, calls') ∧
    ev_field_results out !! "phone" =
      Some {| ground_truth := JStr MISSING_FIELD; extracted := JStr MISSING_FIELD;
              match_ := true; category := "missing"; error := None |}.
Proof.
  eexists _, _. split; [vm_compute; reflexivity|].
  eapply (evaluate_data_extracted_only (λ _ _, Some "NO") (λ _, "")
            (JDict [("name", JStr "Jane Doe")])
            (JDict [("name", JStr "jane doe"); ("phone", JStr MISSING_FIELD)]) None []
            _ _ _ _ "phone" (JStr MISSING_FIELD)).
  - vm_compute. reflexivity.
  - reflexivity.
  - reflexivity.
  - vm_compute. reflexivity.
  - vm_compute. reflexivity.
Defined.

(** C4 as stated fails on an extracted value that contains the marker
    without being equal to it: the test is [==], and the field is an extra. *)
Lemma evaluate_data_marker_substring_counterexample :
  str_contains MISSING_FIELD "MISSING INFORMATION (not given)" = true ∧
  ∃ out calls',
    evaluate_data (λ _ _, None) (λ _, "") (JDict [])
      (JDict [("phone", JStr "MISSING INFORMATION (not given)")]) None []
      = (Ok out, calls') ∧
    ev_field_results out !! "phone" =
      Some {| ground_truth := JNull; extracted := JStr "MISSING INFORMATION (not given)";
              match_ := false; category := "extra"; error := Some "extra_field" |}.
Proof.
  split; [reflexivity|]. eexists _, _. split; vm_compute; reflexivity.
Qed.

(** The end-to-end scenario of the specification (section 8), with an oracle
    that answers NO: the stripped ground truth, the three field results and
    the metrics are as the specification lists them, and the oracle is asked
    once, about the two incomes. *)
Remark end_to_end_scenario :
  ∃ out,
    evaluator_generate (λ _ _, Some "NO") (λ _, "")
      (JDict [("name", JStr "Jane Doe"); ("income", JStr "50000");
              ("phone", JStr MISSING_FIELD)])
      (JDict [("name", JStr "jane doe"); ("income", JStr "50500");
              ("phone", JStr MISSING_FIELD)]) []
      = (Ok out, [("50000", "50500")]) ∧
    ev_missing_fields out = ["phone"] ∧
    ev_field_results out !! "name" =
      Some {| ground_truth := JStr "Jane Doe"; extracted := JStr "jane doe";
              match_ := true; category := "present"; error := None |} ∧
    ev_field_results out !! "income" =
      Some {| ground_truth := JStr "50000"; extracted := JStr "50500";
              match_ := false; category := "present"; error := None |} ∧
    ev_field_results out !! "phone" =
      Some {| ground_truth := JStr MISSING_FIELD; extracted := JStr MISSING_FIELD;
              match_ := true; category := "missing"; error := None |} ∧
    true_positives (ev_metrics out) = 1 ∧
    false_positives (ev_metrics out) = 1 ∧
    false_negatives (ev_metrics out) = 0 ∧
    (precision (ev_metrics out) == 1 # 2)%Q ∧
    (recall (ev_metrics out) == 1)%Q ∧
    (f1_score (ev_metrics out) == 2 # 3)%Q ∧
    (overall_accuracy (ev_metrics out) == 1 # 2)%Q.
Proof. eexists. split_and!; vm_compute; reflexivity. Qed.

(** ** C2: the metrics of one run *)

Lemma count_results_step (P : FieldResult → bool) (fr : string * FieldResult) l :
  length (filter (λ fr : string * FieldResult, P fr.2 = true) (fr :: l)) =
  ((if P fr.2 then 1 else 0) + length (filter (λ fr : string * FieldResult, P fr.2 = true) l))%nat.
Proof.
  rewrite filter_cons. destruct (decide (P fr.2 = true)) as [->|Hn]; [done|].
  by apply not_true_is_false in Hn as ->.
Qed.

Lemma count_result_counters st r :
  c_true_positives (count_result st r) =
    ((if is_true_positive r then 1 else 0) + c_true_positives st)%nat ∧
  c_false_positives (count_result st r) =
    ((if is_present_mismatch r then 1 else 0) + (if is_extra r then 1 else 0)
     + c_false_positives st)%nat ∧
  c_false_negatives (count_result st r) =
    ((if is_false_negative r then 1 else 0) + c_false_negatives st)%nat.
Proof.
  unfold count_result, is_true_positive, is_present_mismatch, is_extra, is_false_negative.
  destruct (bool_decide (category r = "present")) eqn:Hp.
  - apply bool_decide_eq_true in Hp. rewrite Hp.
    destruct (bool_decide (error r = Some "missing_field")); [done|].
    by destruct (match_ r).
  - destruct (bool_decide (category r = "extra")); done.
Qed.

Lemma count_results_fold l st :
  let st' := foldl (λ st fr, count_result st fr.2) st l in
  c_true_positives st' =
    (c_true_positives st + length (filter (λ fr : string * FieldResult, is_true_positive fr.2 = true) l))%nat ∧
  c_false_positives st' =
    (c_false_positives st
     + (length (filter (λ fr : string * FieldResult, is_present_mismatch fr.2 = true) l)
        + length (filter (λ fr : string * FieldResult, is_extra fr.2 = true) l)))%nat ∧
  c_false_negatives st' =
    (c_false_negatives st + length (filter (λ fr : string * FieldResult, is_false_negative fr.2 = true) l))%nat.
Proof.
  revert st. induction l as [|fr l IH]; intros st; cbn [foldl].
  - rewrite !filter_nil. cbn. lia.
  - destruct (IH (count_result st fr.2)) as (Htp & Hfp & Hfn).
    destruct (count_result_counters st fr.2) as (Htp' & Hfp' & Hfn').
    rewrite !count_results_step. cbv zeta. rewrite Htp, Hfp, Hfn, Htp', Hfp', Hfn'.
    repeat split; lia.
Qed.

Lemma Qpositive_spec x : Qpositive x = true ↔ (0 < x)%Q.
Proof.
  unfold Qpositive. rewrite negb_true_iff. split.
  - intros Hle. apply Qnot_le_lt. intros Hx. apply Qle_bool_iff in Hx. congruence.
  - intros Hlt. apply not_true_is_false. intros Hx. apply Qle_bool_iff in Hx.
    by apply Qlt_not_le in Hlt.
Qed.

(** C2. The counters are the counts the specification describes: a false
    positive is a present result that is neither the missing-field error nor
    a match, or an extra result; the four ratios are the quotients of these
    counts when the denominator is positive and 0 otherwise; and on an empty
    mapping all four are 0. *)
Theorem calculate_metrics_spec (field_results : gmap string FieldResult)
    (missing_fields : option (list string)) :
  let m := calculate_metrics field_results missing_fields in
  let tp := true_positives m in
  let fp := false_positives m in
  let fn := false_negatives m in
  fp = (count is_present_mismatch field_results + count is_extra field_results)%nat ∧
  tp = count is_true_positive field_results ∧
  fn = count is_false_negative field_results ∧
  precision m = (if (0 <? tp + fp)%nat then Qnat tp / Qnat (tp + fp) else 0)%Q ∧
  recall m = (if (0 <? tp + fn)%nat then Qnat tp / Qnat (tp + fn) else 0)%Q ∧
  f1_score m = (if Qpositive (precision m + recall m)
                then 2 * (precision m * recall m) / (precision m + recall m) else 0)%Q ∧
  overall_accuracy m =
    (if (0 <? tp + fp + fn)%nat then Qnat tp / Qnat (tp + fp + fn) else 0)%Q ∧
  ((tp + fp = 0)%nat → precision m = 0%Q) ∧
  ((tp + fn = 0)%nat → recall m = 0%Q) ∧
  (¬ (0 < precision m + recall m)%Q → f1_score m = 0%Q) ∧
  ((tp + fp + fn = 0)%nat → overall_accuracy m = 0%Q) ∧
  (field_results = ∅ →
     precision m = 0%Q ∧ recall m = 0%Q ∧ f1_score m = 0%Q ∧ overall_accuracy m = 0%Q).
Proof.
  cbv zeta.
  destruct (count_results_fold (map_to_list field_results) initial_counters)
    as (Htp & Hfp & Hfn). cbn in Htp, Hfp, Hfn.
  set (m := calculate_metrics field_results missing_fields).
  assert (precision m =
            (if (0 <? true_positives m + false_positives m)%nat
             then Qnat (true_positives m) / Qnat (true_positives m + false_positives m)
             else 0)%Q) as Hp by reflexivity.
  assert (recall m =
            (if (0 <? true_positives m + false_negatives m)%nat
             then Qnat (true_positives m) / Qnat (true_positives m + false_negatives m)
             else 0)%Q) as Hr by reflexivity.
  assert (f1_score m =
            (if Qpositive (precision m + recall m)
             then 2 * (precision m * recall m) / (precision m + recall m) else 0)%Q)
    as Hf by reflexivity.
  assert (overall_accuracy m =
            (if (0 <? true_positives m + false_positives m + false_negatives m)%nat
             then Qnat (true_positives m)
                  / Qnat (true_positives m + false_positives m + false_negatives m)
             else 0)%Q) as Ha by reflexivity.
  split_and!; try done.
  - intros H0. by rewrite Hp, H0.
  - intros H0. by rewrite Hr, H0.
  - intros Hn. rewrite Hf. destruct (Qpositive _) eqn:Hpos; [|done].
    by apply Qpositive_spec in Hpos.
  - intros H0. by rewrite Ha, H0.
  - intros ->. subst m. unfold calculate_metrics. by rewrite map_to_list_empty.
Qed.

Lemma calculate_metrics_spec_witness :
  let m := calculate_metrics ∅ None in
  precision m = 0%Q ∧ recall m = 0%Q ∧ f1_score m = 0%Q ∧ overall_accuracy m = 0%Q.
Proof.
  exact (proj2 (proj2 (proj2 (proj2 (proj2 (proj2 (proj2 (proj2 (proj2 (proj2 (proj2
    (calculate_metrics_spec ∅ None))))))))))) eq_refl).
Defined.

(** ** C7: the aggregator across runs *)

Lemma add_number_value total value x :
  number_value value = Some x → add_number total value = Ok (total + x)%Q.
Proof.
  destruct value; cbn; try done; try (by intros [= <-]).
  destruct (fits_float z); [by intros [= <-]|done].
Qed.

Lemma sums_differ_by_trans delta1 delta2 delta s1 s2 s3 :
  (∀ k, (delta k == delta1 k + delta2 k)%Q) →
  sums_differ_by delta1 s1 s2 → sums_differ_by delta2 s2 s3 →
  sums_differ_by delta s1 s3.
Proof.
  intros Hd H12 H23 k. specialize (H12 k). specialize (H23 k).
  destruct (s1 !! k), (s2 !! k), (s3 !! k); try done.
  rewrite H23, H12, Hd. ring.
Qed.

Lemma sums_differ_by_refl s : sums_differ_by (λ _, 0%Q) s s.
Proof. intros k. destruct (s !! k); [|done]. ring. Qed.

(** One key of one run. *)
Lemma add_metric_spec metrics metrics_sum key :
  match dict_get key metrics with
  | Some value => is_Some (number_value value)
  | None => True
  end →
  is_Some (metrics_sum !! key) →
  ∃ metrics_sum',
    add_metric (JDict metrics) metrics_sum key = Ok metrics_sum' ∧
    sums_differ_by (λ k, if bool_decide (k = key) then metric_value key metrics else 0%Q)
                   metrics_sum metrics_sum'.
Proof.
  intros Hnum [q Hq]. unfold add_metric, metric_value. cbn [py_in getitem].
  destruct (dict_get key metrics) as [value|] eqn:Hget; cbn.
  - destruct Hnum as [x Hx]. rewrite Hq. cbn. rewrite (add_number_value _ _ _ Hx). cbn.
    eexists. split; [done|]. intros k. case_bool_decide as Hk.
    + subst k. rewrite Hq, lookup_insert_eq, Hx. reflexivity.
    + rewrite lookup_insert_ne by done. destruct (metrics_sum !! k); [|done]. ring.
  - eexists. split; [done|]. intros k. destruct (metrics_sum !! k); [|done].
    case_bool_decide; ring.
Qed.

Lemma sums_differ_by_is_Some delta s s' k :
  sums_differ_by delta s s' → is_Some (s !! k) → is_Some (s' !! k).
Proof.
  intros H [q Hq]. specialize (H k). rewrite Hq in H. by destruct (s' !! k).
Qed.

(** The four keys of one run. *)
Lemma add_metrics_spec metrics keys :
  NoDup keys →
  Forall (λ key, match dict_get key metrics with
                 | Some value => is_Some (number_value value)
                 | None => True
                 end) keys →
  ∀ metrics_sum,
    Forall (λ key, is_Some (metrics_sum !! key)) keys →
    ∃ metrics_sum',
      add_metrics (JDict metrics) keys metrics_sum = Ok metrics_sum' ∧
      sums_differ_by (λ k, if bool_decide (k ∈ keys) then metric_value k metrics else 0%Q)
                     metrics_sum metrics_sum'.
Proof.
  induction 1 as [|key keys Hfresh _ IH]; intros Hnum metrics_sum Hkeys.
  - exists metrics_sum. split; [done|]. intros k. destruct (metrics_sum !! k); [|done].
    rewrite bool_decide_eq_false_2 by apply not_elem_of_nil. ring.
  - apply Forall_cons in Hnum as [Hn Hnum]. apply Forall_cons in Hkeys as [Hk Hkeys].
    destruct (add_metric_spec metrics metrics_sum key Hn Hk) as (s1 & Hrun1 & Hd1).
    destruct (IH Hnum s1) as (s2 & Hrun2 & Hd2).
    { eapply Forall_impl; [exact Hkeys|]. intros k. cbn.
      by apply sums_differ_by_is_Some with (1 := Hd1). }
    exists s2. cbn [add_metrics]. rewrite Hrun1. cbn. split; [done|].
    eapply sums_differ_by_trans; [|exact Hd1|exact Hd2].
    intros k. cbn. destruct (decide (k = key)) as [->|Hne].
    + rewrite (bool_decide_eq_true_2 (key = key)) by done.
      rewrite (bool_decide_eq_true_2 (key ∈ key :: keys)) by (by left).
      rewrite (bool_decide_eq_false_2 (key ∈ keys)) by done. ring.
    + rewrite (bool_decide_eq_false_2 (k = key)) by done.
      destruct (decide (k ∈ keys)) as [Hin|Hnin].
      * rewrite (bool_decide_eq_true_2 (k ∈ keys)) by done.
        rewrite (bool_decide_eq_true_2 (k ∈ key :: keys)) by (by right). ring.
      * rewrite (bool_decide_eq_false_2 (k ∈ keys)) by done.
        rewrite (bool_decide_eq_false_2 (k ∈ key :: keys)); [ring|].
        by intros [?|?]%elem_of_cons.
Qed.

(** One run. *)
Lemma aggregate_step_spec st loaded :
  loaded_or_skipped loaded = true →
  Forall (λ key, is_Some (st.2 !! key)) metric_keys →
  ∃ metrics_sum',
    aggregate_step st loaded =
      Ok (match counted_metrics loaded with
          | Some _ => S st.1
          | None => st.1
          end, metrics_sum') ∧
    sums_differ_by (λ k, if bool_decide (k ∈ metric_keys)
                         then match counted_metrics loaded with
                              | Some metrics => metric_value k metrics
                              | None => 0%Q
                              end
                         else 0%Q) st.2 metrics_sum'.
Proof.
  intros Hok Hkeys. destruct st as [n metrics_sum]. cbn [fst snd] in *.
  assert (sums_differ_by (λ k, if bool_decide (k ∈ metric_keys) then 0%Q else 0%Q)
            metrics_sum metrics_sum) as Hskip.
  { intros k. destruct (metrics_sum !! k); [|done]. case_bool_decide; ring. }
  unfold aggregate_step, counted_metrics, loaded_or_skipped in *.
  destruct loaded as [evaluation|e]; [|destruct e; try done; by eexists].
  destruct evaluation as [|b|z|q|s|l|d]; try done. cbv zeta.
  destruct (dict_get "metrics" d) as [metrics|]; [|by eexists].
  change (default (JDict []) (Some metrics)) with metrics.
  destruct metrics as [|b|z|q|s|l|m];
    try (apply negb_true_iff in Hok; rewrite Hok; by eexists).
  destruct m as [|entry m]; [by eexists|].
  change (truthy (JDict (entry :: m))) with true. cbv iota.
  destruct (add_metrics_spec (entry :: m) metric_keys) with (metrics_sum := metrics_sum)
    as (s' & Hrun & Hd).
  - by apply (bool_decide_unpack _).
  - apply Forall_forall. intros key Hkey. apply list_elem_of_In in Hkey.
    pose proof (proj1 (forallb_forall _ _) Hok key Hkey) as Hnum. cbn beta in Hnum.
    destruct (dict_get key (entry :: m)); [|done]. by apply bool_decide_eq_true in Hnum.
  - done.
  - cbn [fst snd]. rewrite Hrun. cbn. by eexists.
Qed.

(** The loop over runs that load or fail with a caught exception: the
    counter grows by the number of counted runs, and each running total by
    the sum of its metric over them. *)
Lemma aggregate_loop_spec conversations :
  Forall (λ loaded, loaded_or_skipped loaded = true) conversations →
  ∀ n metrics_sum,
    Forall (λ key, is_Some (metrics_sum !! key)) metric_keys →
    ∃ metrics_sum',
      aggregate_loop conversations (n, metrics_sum) =
        Ok ((n + length (omap counted_metrics conversations))%nat, metrics_sum') ∧
      sums_differ_by (λ k, if bool_decide (k ∈ metric_keys)
                           then sum_metric k (omap counted_metrics conversations)
                           else 0%Q) metrics_sum metrics_sum'.
Proof.
  induction 1 as [|loaded rest Hl _ IH]; intros n metrics_sum Hkeys.
  - exists metrics_sum. cbn. split; [f_equal; f_equal; lia|].
    intros k. destruct (metrics_sum !! k); [|done]. case_bool_decide; ring.
  - cbn [aggregate_loop].
    destruct (aggregate_step_spec (n, metrics_sum) loaded Hl Hkeys) as (s1 & -> & Hd1).
    cbn [mbind result_bind fst snd] in *.
    change (omap counted_metrics (loaded :: rest))
      with (match counted_metrics loaded with
            | Some metrics => metrics :: omap counted_metrics rest
            | None => omap counted_metrics rest
            end).
    assert (Forall (λ key, is_Some (s1 !! key)) metric_keys) as Hkeys1.
    { eapply Forall_impl; [exact Hkeys|]. intros k. cbn.
      by apply sums_differ_by_is_Some with (1 := Hd1). }
    destruct (counted_metrics loaded) as [metrics|].
    + destruct (IH (S n) s1 Hkeys1) as (s2 & Hrun & Hd2).
      exists s2. split.
      { rewrite Hrun. cbn [length]. do 2 f_equal. lia. }
      eapply sums_differ_by_trans; [|exact Hd1|exact Hd2].
      intros k. cbn. case_bool_decide; ring.
    + destruct (IH n s1 Hkeys1) as (s2 & Hrun & Hd2).
      exists s2. split; [done|].
      eapply sums_differ_by_trans; [|exact Hd1|exact Hd2].
      intros k. cbn. case_bool_decide; ring.
Qed.

Lemma initial_metrics_sum_lookup key :
  initial_metrics_sum !! key = if bool_decide (key ∈ metric_keys) then Some 0%Q else None.
Proof.
  unfold initial_metrics_sum, metric_keys.
  case_bool_decide as Hkey.
  - repeat (apply elem_of_cons in Hkey as [->|Hkey]; [by vm_compute|]).
    by apply elem_of_nil in Hkey.
  - rewrite !lookup_insert_ne, lookup_empty; [done|..]; intros <-; apply Hkey; set_solver.
Qed.

(** C7, as the code has it. With at least one run listed, and every run
    either failed with [FileNotFoundError] or [JSONDecodeError] or loaded to
    a dict whose ["metrics"] entry is absent, falsy, or a dict in which each
    of the four keys, where present, holds a number that can be added to a
    float, the aggregator returns a report: it gives the number N of counted
    runs (the loaded ones with a non-empty metrics dict; the others are
    passed over), for N > 0 the mean over them of each of the four metrics
    (a run that lacks the key adding 0), and for N = 0 an empty mapping. *)
Theorem aggregator_generate_spec (experiment_name : string)
    (conversations : list (result json)) :
  conversations ≠ [] →
  Forall (λ loaded, loaded_or_skipped loaded = true) conversations →
  let counted := omap counted_metrics conversations in
  ∃ report,
    aggregator_generate experiment_name conversations = Ok (Some report) ∧
    experiment report = experiment_name ∧
    total_conversations report = length counted ∧
    (length counted = 0%nat → aggregated_metrics report = ∅) ∧
    (0 < length counted →
       dom (aggregated_metrics report) = list_to_set metric_keys ∧
       ∀ key, key ∈ metric_keys →
         ∃ mean, aggregated_metrics report !! key = Some mean ∧
                 (mean == sum_metric key counted / Qnat (length counted))%Q).
Proof.
  intros Hne Hall. cbv zeta.
  destruct (aggregate_loop_spec conversations Hall 0%nat initial_metrics_sum)
    as (metrics_sum & Hrun & Hsum).
  { apply Forall_forall. intros key Hkey. rewrite initial_metrics_sum_lookup.
    by rewrite bool_decide_eq_true_2. }
  unfold aggregator_generate. destruct conversations as [|c cs]; [done|].
  rewrite Hrun. cbn [mbind result_bind Nat.add].
  eexists. split; [reflexivity|]. cbn [experiment total_conversations aggregated_metrics].
  split_and!; try done.
  - by intros ->.
  - intros Hpos. apply Nat.ltb_lt in Hpos as Hpos'. rewrite Hpos'. split.
    + apply set_eq. intros key. rewrite elem_of_dom, lookup_fmap, fmap_is_Some.
      specialize (Hsum key). rewrite initial_metrics_sum_lookup in Hsum.
      rewrite elem_of_list_to_set. case_bool_decide.
      * destruct (metrics_sum !! key); [|done]. split; eauto.
      * destruct (metrics_sum !! key); [done|]. split; [by intros [? ?]|done].
    + intros key Hkey. specialize (Hsum key). rewrite lookup_fmap.
      rewrite initial_metrics_sum_lookup in Hsum.
      rewrite bool_decide_eq_true_2 in Hsum by done.
      destruct (metrics_sum !! key) as [q'|]; [|done].
      eexists. split; [reflexivity|]. rewrite Hsum. by rewrite Qplus_0_l.
Qed.

Lemma aggregator_generate_spec_witness :
  ∃ report,
    aggregator_generate "experiment_1"
      [Ok (JDict [("metrics", JDict [("precision", JFloat (1 # 2)); ("recall", JInt 1)])]);
       Raise JSONDecodeError;
       Ok (JDict [("metrics", JDict [("precision", JInt 1); ("recall", JInt 0)])])]
      = Ok (Some report) ∧
    total_conversations report = 2%nat.
Proof.
  destruct (aggregator_generate_spec "experiment_1"
    [Ok (JDict [("metrics", JDict [("precision", JFloat (1 # 2)); ("recall", JInt 1)])]);
     Raise JSONDecodeError;
     Ok (JDict [("metrics", JDict [("precision", JInt 1); ("recall", JInt 0)])])])
    as (report & Hrun & _ & Htotal & _).
  - discriminate.
  - repeat constructor.
  - exists report. split; [exact Hrun|exact Htotal].
Defined.

(** Any other failure of a load is not caught: it ends the aggregation. *)
Remark aggregator_generate_other_error :
  aggregator_generate "experiment_1"
    [Ok (JDict [("metrics", JDict [("precision", JInt 1)])]); Raise PermissionError]
  = Raise PermissionError.
Proof. reflexivity. Qed.

(** C7 as stated fails in three ways. When no run is listed at all the
    aggregator returns from its guard with no report, where the claim has it
    report zero conversations and an empty mapping. A run whose file cannot
    be read as text ([UnicodeDecodeError], which is not a
    [json.JSONDecodeError]) is not skipped: the error leaves [generate] and
    the runs counted before it are lost. And a run whose file was loaded is
    not always counted: a file whose root is a list raises [AttributeError]
    at [evaluation.get], a metric that is a string raises [TypeError] and an
    integer too large for a float raises [OverflowError] at [+=], each
    ending the batch with no report. *)
Lemma aggregator_generate_counterexample :
  aggregator_generate "experiment_1" [] = Ok None ∧
  aggregator_generate "experiment_1"
    [Ok (JDict [("metrics", JDict [("precision", JInt 1)])]); Raise UnicodeDecodeError]
    = Raise UnicodeDecodeError ∧
  aggregator_generate "experiment_1" [Raise FileNotFoundError; Ok (JList [])]
    = Raise AttributeError ∧
  aggregator_generate "experiment_1"
    [Ok (JDict [("metrics", JDict [("precision", JStr "0.5")])])] = Raise TypeError ∧
  aggregator_generate "experiment_1"
    [Ok (JDict [("metrics", JDict [("precision", JInt (10 ^ 400))])])] = Raise OverflowError.
Proof. split_and!; vm_compute; reflexivity. Qed.

(** ** C9: the stripper *)

Lemma is_missing_marker v : is_missing v = true → v = JStr MISSING_FIELD.
Proof. destruct v; try done. cbn. by intros ->%bool_decide_eq_true. Qed.

Lemma is_missing_not_container v : is_missing v = true → is_container v = false.
Proof. by intros ->%is_missing_marker. Qed.

Lemma marker_free_not_missing v : marker_free v = true → is_missing v = false.
Proof. destruct v; try done. cbn. by intros ->%negb_true_iff. Qed.

(** *** A record without markers is returned as it is *)

Lemma find_missing_fields_rec_marker_free v :
  marker_free v = true →
  ∀ path missing_fields, find_missing_fields_rec v path missing_fields = Ok (v, missing_fields).
Proof.
  induction v as [| | | | |l IH|d IH] using json_ind'; try done; intros Hfree path mf.
  - rewrite find_missing_fields_rec_list.
    assert (∀ i mf idx, scan_list path l i mf idx = Ok (l, mf, idx)) as ->.
    { cbn [marker_free] in Hfree. clear mf.
      induction IH as [|x l Hx _ IHl]; intros i mf idx; [done|].
      cbn [forallb] in Hfree. apply andb_prop in Hfree as [Hfx Hfl].
      cbn [scan_list]. rewrite (Hx Hfx), (marker_free_not_missing _ Hfx).
      destruct (is_container x); cbn; by rewrite (IHl Hfl). }
    done.
  - rewrite find_missing_fields_rec_dict.
    assert (∀ mf keys, scan_dict path d mf keys = Ok (d, mf, keys)) as ->.
    { cbn [marker_free] in Hfree. clear mf.
      induction IH as [|[k x] d Hx _ IHd]; intros mf keys; [done|].
      cbn [forallb snd] in Hfree, Hx. apply andb_prop in Hfree as [Hfx Hfd].
      cbn [scan_dict]. rewrite (Hx Hfx), (marker_free_not_missing _ Hfx).
      destruct (is_container x); cbn; by rewrite (IHd Hfd). }
    done.
Qed.

(** *** Deleting in descending order *)

Lemma marker_indices_bounds l i j :
  j ∈ marker_indices l i → i ≤ j < i + length l.
Proof.
  revert i. induction l as [|x l IH]; intros i; cbn [marker_indices length].
  - by intros ?%elem_of_nil.
  - destruct (is_missing x).
    + intros [->|Hj%IH]%elem_of_cons; lia.
    + intros Hj%IH. lia.
Qed.

Lemma marker_indices_lookup l i j :
  j ∈ marker_indices l i ↔ ∃ x, i ≤ j ∧ l !! (j - i) = Some x ∧ is_missing x = true.
Proof.
  revert i. induction l as [|x l IH]; intros i; cbn [marker_indices].
  - split; [by intros ?%elem_of_nil|]. by intros (? & _ & ? & _).
  - assert (j ∈ marker_indices l (S i) ↔
            ∃ y, i ≤ j ∧ j ≠ i ∧ (x :: l) !! (j - i) = Some y ∧ is_missing y = true) as Hrest.
    { rewrite IH. split.
      - intros (y & Hle & Hy & Hm). exists y. split_and!; [lia|lia| |done].
        by replace (j - i) with (S (j - S i)) by lia.
      - intros (y & Hle & Hne & Hy & Hm). exists y. split_and!; [lia| |done].
        by replace (j - i) with (S (j - S i)) in Hy by lia. }
    destruct (is_missing x) eqn:Hx.
    + rewrite elem_of_cons, Hrest. split.
      * intros [->|(y & ? & ? & ? & ?)]; [|by eauto].
        exists x. rewrite Nat.sub_diag. by split_and!.
      * intros (y & Hle & Hy & Hm). destruct (decide (j = i)) as [->|Hne]; [by left|].
        right. by exists y.
    + rewrite Hrest. split; [intros (y & ? & ? & ? & ?); by eauto|].
      intros (y & Hle & Hy & Hm). exists y. split_and!; try done.
      intros ->. rewrite Nat.sub_diag in Hy. cbn in Hy. congruence.
Qed.

Lemma marker_indices_sorted l i : StronglySorted lt (marker_indices l i).
Proof.
  revert i. induction l as [|x l IH]; intros i; cbn [marker_indices]; [constructor|].
  destruct (is_missing x); [|apply IH].
  constructor; [apply IH|]. apply Forall_forall. intros j Hj%marker_indices_bounds. lia.
Qed.

Lemma marker_indices_app l1 l2 i :
  marker_indices (l1 ++ l2) i = marker_indices l1 i ++ marker_indices l2 (i + length l1).
Proof.
  revert i. induction l1 as [|x l1 IH]; intros i; cbn [app marker_indices length].
  - by rewrite Nat.add_0_r.
  - rewrite IH. replace (S i + length l1) with (i + S (length l1)) by lia.
    by destruct (is_missing x).
Qed.

Lemma insert_desc_below i l : Forall (λ j, i < j) l → insert_desc i l = l ++ [i].
Proof.
  induction 1 as [|j l Hj _ IH]; [done|]. cbn [insert_desc].
  destruct (j <=? i) eqn:Hle; [apply Nat.leb_le in Hle; lia|]. by rewrite IH.
Qed.

Lemma sorted_reverse_increasing indices :
  StronglySorted lt indices → sorted_reverse indices = reverse indices.
Proof.
  unfold sorted_reverse. induction 1 as [|i l _ IH Hall]; [done|].
  cbn [foldr]. rewrite IH, reverse_cons. apply insert_desc_below.
  apply Forall_forall. intros j Hj. rewrite elem_of_reverse in Hj.
  rewrite Forall_forall in Hall. by apply Hall.
Qed.

Lemma reverse_increasing_descending indices :
  StronglySorted lt indices → StronglySorted (λ a b, b < a) (reverse indices).
Proof.
  induction 1 as [|i l _ IH Hall]; [constructor|].
  rewrite reverse_cons. apply StronglySorted_app_2; [|done|repeat constructor].
  intros a b Ha ->%list_elem_of_singleton. rewrite elem_of_reverse in Ha.
  rewrite Forall_forall in Hall. by apply Hall.
Qed.

Lemma list_del_app index l r tail :
  list_del index l = Ok r → list_del index (l ++ tail) = Ok (r ++ tail).
Proof.
  revert index r. induction l as [|x l IH]; intros [|i] r; cbn; try done.
  - by intros [= <-].
  - destruct (list_del i l) as [r'|] eqn:Hdel; [|done]. cbn. intros [= <-].
    by rewrite (IH _ _ Hdel).
Qed.

Lemma list_del_last l x : list_del (length l) (l ++ [x]) = Ok l.
Proof. induction l as [|y l IH]; [done|]. cbn. by rewrite IH. Qed.

Lemma del_indices_app indices l r tail :
  del_indices indices l = Ok r → del_indices indices (l ++ tail) = Ok (r ++ tail).
Proof.
  revert l. induction indices as [|i indices IH]; intros l; cbn.
  - by intros [= <-].
  - destruct (list_del i l) as [l'|] eqn:Hdel; [|done]. cbn.
    rewrite (list_del_app _ _ _ tail Hdel). cbn. apply IH.
Qed.

(** Deleting the marker positions from the last to the first never runs out
    of range and leaves exactly the elements that are not markers. *)
Lemma del_indices_markers l :
  del_indices (reverse (marker_indices l 0)) l = Ok (filter (λ x, is_missing x = false) l).
Proof.
  induction l as [|x l IH] using rev_ind; [done|].
  rewrite marker_indices_app, filter_app. cbn [marker_indices Nat.add].
  rewrite filter_cons, filter_nil.
  destruct (is_missing x) eqn:Hx.
  - rewrite reverse_app, reverse_singleton. cbn [app del_indices].
    rewrite list_del_last. cbn. rewrite IH. rewrite decide_False by done.
    by rewrite app_nil_r.
  - rewrite app_nil_r. rewrite decide_True by done. by apply del_indices_app.
Qed.

(** *** The stripper always returns *)

Lemma dict_del_ok key d :
  key ∈ d.*1 → ∃ d', dict_del key d = Ok d' ∧ d.*1 ≡ₚ key :: d'.*1.
Proof.
  induction d as [|[k v] d IH]; cbn; [by intros ?%elem_of_nil|].
  destruct (decide (k = key)) as [->|Hne]; [by eexists|].
  intros [?|Hin]%elem_of_cons; [done|].
  destruct (IH Hin) as (d' & -> & Hperm). eexists. split; [done|].
  cbn. rewrite Hperm. apply Permutation_swap.
Qed.

Lemma del_keys_ok keys :
  ∀ d, keys ⊆+ d.*1 → ∃ d', del_keys keys d = Ok d'.
Proof.
  induction keys as [|key keys IH]; intros d Hsub; [by eexists|].
  cbn [del_keys].
  destruct (dict_del_ok key d) as (d' & -> & Hperm).
  { eapply elem_of_submseteq; [|done]. by left. }
  cbn. apply IH. rewrite Hperm in Hsub.
  by apply (submseteq_app_inv_l _ _ [key]).
Qed.

Lemma scan_list_total path l :
  Forall strips_well l →
  ∀ i missing_fields indices_to_delete,
    ∃ l1 added,
      scan_list path l i missing_fields indices_to_delete =
        Ok (l1, missing_fields ++ added, indices_to_delete ++ marker_indices l i) ∧
      marker_indices l1 i = marker_indices l i ∧
      ∀ j, j ∈ marker_indices l i → path +:+ "[" +:+ str_of_nat j +:+ "]" ∈ added.
Proof.
  induction 1 as [|x l Hx _ IH]; intros i mf idx.
  - exists [], []. cbn. rewrite !app_nil_r.
    split_and!; [done|done|by intros ? ?%elem_of_nil].
  - cbn [scan_list marker_indices]. destruct (is_container x) eqn:Hc.
    + destruct (Hx (path +:+ "[" +:+ str_of_nat i +:+ "]") mf) as (x' & a1 & -> & Hm).
      destruct (IH (S i) (mf ++ a1) idx) as (l1 & a2 & Hrun & Hidx & Hpaths).
      cbn. rewrite Hrun. cbn. exists (x' :: l1), (a1 ++ a2).
      assert (is_missing x = false) as Hx0.
      { destruct (is_missing x) eqn:E; [|done].
        apply is_missing_not_container in E. congruence. }
      rewrite Hx0 in *. cbn [marker_indices]. rewrite Hm, Hidx, app_assoc.
      split_and!; try done. intros j Hj. apply elem_of_app. right. by apply Hpaths.
    + destruct (is_missing x) eqn:Hm.
      * destruct (IH (S i) (mf ++ [path +:+ "[" +:+ str_of_nat i +:+ "]"]) (idx ++ [i]))
          as (l1 & a2 & Hrun & Hidx & Hpaths).
        rewrite Hrun. cbn.
        exists (x :: l1), ((path +:+ "[" +:+ str_of_nat i +:+ "]") :: a2).
        cbn [marker_indices]. rewrite Hm, Hidx.
        split_and!; [by rewrite <- !app_assoc|done|].
        intros j [->|Hj]%elem_of_cons; [by left|]. right. by apply Hpaths.
      * destruct (IH (S i) mf idx) as (l1 & a2 & Hrun & Hidx & Hpaths).
        rewrite Hrun. cbn. exists (x :: l1), a2.
        cbn [marker_indices]. by rewrite Hm, Hidx.
Qed.

Lemma scan_dict_total path d :
  Forall (λ kv, strips_well kv.2) d →
  ∀ missing_fields keys_to_delete,
    ∃ d1 added keys,
      scan_dict path d missing_fields keys_to_delete =
        Ok (d1, missing_fields ++ added, keys_to_delete ++ keys) ∧
      d1.*1 = d.*1 ∧ keys `sublist_of` d.*1.
Proof.
  induction 1 as [|[k x] d Hx _ IH]; intros mf keys.
  - exists [], [], []. cbn. by rewrite !app_nil_r.
  - cbn [scan_dict]. cbn [snd] in Hx. destruct (is_container x) eqn:Hc.
    + destruct (Hx (child_key path k) mf) as (x' & a1 & -> & _).
      destruct (IH (mf ++ a1) keys) as (d1 & a2 & ks & Hrun & Hkeys & Hsub).
      cbn. rewrite Hrun. cbn. exists ((k, x') :: d1), (a1 ++ a2), ks.
      rewrite app_assoc. split_and!; [done|by cbn; rewrite Hkeys|by constructor].
    + destruct (is_missing x).
      * destruct (IH (mf ++ [child_key path k]) (keys ++ [k]))
          as (d1 & a2 & ks & Hrun & Hkeys & Hsub).
        rewrite Hrun. cbn. exists ((k, x) :: d1), (child_key path k :: a2), (k :: ks).
        split_and!; [by rewrite <- !app_assoc|by cbn; rewrite Hkeys|by constructor].
      * destruct (IH mf keys) as (d1 & a2 & ks & Hrun & Hkeys & Hsub).
        rewrite Hrun. cbn. exists ((k, x) :: d1), a2, ks.
        split_and!; [done|by cbn; rewrite Hkeys|by constructor].
Qed.

Lemma find_missing_fields_rec_total v : strips_well v.
Proof.
  induction v as [| | | | |l IH|d IH] using json_ind'; intros path mf;
    try (by eexists _, []; rewrite app_nil_r).
  - rewrite find_missing_fields_rec_list.
    destruct (scan_list_total path l IH 0 mf []) as (l1 & added & -> & Hidx & _).
    cbn [mbind result_bind app]. rewrite <- Hidx.
    rewrite sorted_reverse_increasing by apply marker_indices_sorted.
    rewrite del_indices_markers. cbn. by eexists _, _.
  - rewrite find_missing_fields_rec_dict.
    destruct (scan_dict_total path d IH mf []) as (d1 & added & ks & -> & Hkeys & Hsub).
    cbn [mbind result_bind app].
    destruct (del_keys_ok ks d1) as (d2 & ->).
    { rewrite Hkeys. by apply sublist_submseteq. }
    cbn. by eexists _, _.
Qed.

(** C9. A record with no leaf equal to [MISSING_FIELD] is returned as it is,
    with nothing added to [missing_fields]. On any list, the scan returns;
    the indices it collects are the positions the markers have in the list
    as it was given, and the path recorded for each is built from that
    position; [sorted(..., reverse=True)] lists them in strictly descending
    order; and deleting in that order never leaves the list's range and
    removes exactly the markers. *)
Theorem find_missing_fields_spec :
  (∀ record path missing_fields,
     marker_free record = true →
     find_missing_fields record path missing_fields
       = Ok (record, default [] missing_fields)) ∧
  (∀ l path missing_fields,
     ∃ l1 missing_fields' indices_to_delete,
       scan_list path l 0 missing_fields [] = Ok (l1, missing_fields', indices_to_delete) ∧
       indices_to_delete = marker_indices l 0 ∧
       (∀ i, i ∈ indices_to_delete →
          l !! i = Some (JStr MISSING_FIELD) ∧
          path +:+ "[" +:+ str_of_nat i +:+ "]" ∈ missing_fields') ∧
       StronglySorted (λ a b, b < a) (sorted_reverse indices_to_delete) ∧
       sorted_reverse indices_to_delete ≡ₚ indices_to_delete ∧
       del_indices (sorted_reverse indices_to_delete) l1
         = Ok (filter (λ x, is_missing x = false) l1) ∧
       find_missing_fields_rec (JList l) path missing_fields
         = Ok (JList (filter (λ x, is_missing x = false) l1), missing_fields')).
Proof.
  split.
  - intros record path mf Hfree. unfold find_missing_fields.
    by apply find_missing_fields_rec_marker_free.
  - intros l path mf.
    destruct (scan_list_total path l) with (i := 0) (missing_fields := mf)
      (indices_to_delete := @nil nat) as (l1 & added & Hrun & Hidx & Hpaths).
    { apply Forall_forall. intros x _. apply find_missing_fields_rec_total. }
    cbn [app] in Hrun.
    pose proof (marker_indices_sorted l 0) as Hsorted.
    exists l1, (mf ++ added), (marker_indices l 0). split_and!; try done.
    + intros i Hi. split.
      * apply marker_indices_lookup in Hi as (x & _ & Hx & Hm).
        rewrite Nat.sub_0_r in Hx. by apply is_missing_marker in Hm as ->.
      * apply elem_of_app. right. by apply Hpaths.
    + rewrite sorted_reverse_increasing by done. by apply reverse_increasing_descending.
    + rewrite sorted_reverse_increasing by done. apply reverse_Permutation.
    + rewrite sorted_reverse_increasing by done. rewrite <- Hidx.
      apply del_indices_markers.
    + rewrite find_missing_fields_rec_list, Hrun. cbn [mbind result_bind].
      rewrite sorted_reverse_increasing by done. rewrite <- Hidx.
      by rewrite del_indices_markers.
Qed.

Lemma find_missing_fields_spec_witness :
  find_missing_fields
    (JDict [("name", JStr "Jane Doe"); ("accounts", JList [JInt 1; JNull])]) "" None
  = Ok (JDict [("name", JStr "Jane Doe"); ("accounts", JList [JInt 1; JNull])], []).
Proof.
  apply (proj1 find_missing_fields_spec
           (JDict [("name", JStr "Jane Doe"); ("accounts", JList [JInt 1; JNull])]) "" None).
  reflexivity.
Defined.

(** ** C5: whose record the stripper changes *)

(** The record of the specification's end-to-end scenario, loaded into an
    empty store: its root dict is the object at location 0. *)
Lemma load_scenario :
  Store.load (JDict [("name", JStr "Jane Doe"); ("income", JStr "50000");
                     ("phone", JStr MISSING_FIELD)]) [] =
  (Store.VRef 0,
   [Store.ODict [("name", Store.VStr "Jane Doe"); ("income", Store.VStr "50000");
                 ("phone", Store.VStr MISSING_FIELD)]]).
Proof. reflexivity. Qed.

(** C5, at the call [Evaluator.generate] makes. With a [missing_fields] list
    passed in, [_find_missing_fields] skips its deep copy and deletes from
    the caller's own dict: the object the caller holds had three entries
    before the call and has two after it, where the claim has it unchanged. *)
Theorem evaluator_find_missing_fields_mutates :
  let ground_truth := JDict [("name", JStr "Jane Doe"); ("income", JStr "50000");
                             ("phone", JStr MISSING_FIELD)] in
  let '(data, st) := Store.load ground_truth [] in
  Store.dump 2 st data = Some ground_truth ∧
  ∃ st',
    Store.evaluator_find_missing_fields 2 st data "" (Some []) = Some (data, st', ["phone"]) ∧
    Store.dump 2 st' data =
      Some (JDict [("name", JStr "Jane Doe"); ("income", JStr "50000")]).
Proof. cbn zeta. split; [reflexivity|]. eexists. split; vm_compute; reflexivity. Qed.

(** The same record through the two paths that do copy: the evaluator's
    stripper called without a list, and the conversation generator's
    [process_ground_truth]. The caller's object is untouched and the
    stripped record is a new object. *)
Remark strippers_that_copy :
  let ground_truth := JDict [("name", JStr "Jane Doe"); ("income", JStr "50000");
                             ("phone", JStr MISSING_FIELD)] in
  let stripped := JDict [("name", JStr "Jane Doe"); ("income", JStr "50000")] in
  let '(data, st) := Store.load ground_truth [] in
  (∃ copy st',
     Store.evaluator_find_missing_fields 2 st data "" None = Some (copy, st', ["phone"]) ∧
     Store.dump 2 st' data = Some ground_truth ∧ Store.dump 2 st' copy = Some stripped) ∧
  (∃ copy st',
     Store.process_ground_truth 2 st data = Some (copy, st', ["phone"]) ∧
     Store.dump 2 st' data = Some ground_truth ∧ Store.dump 2 st' copy = Some stripped) ∧
  (∃ st',
     Store.conversation_find_rec 2 st data "" [] = Some (st', ["phone"]) ∧
     Store.dump 2 st' data = Some stripped).
Proof.
  cbn zeta. split_and!.
  - eexists _, _. split_and!; vm_compute; reflexivity.
  - eexists _, _. split_and!; vm_compute; reflexivity.
  - eexists. split; vm_compute; reflexivity.
Qed.

(** *** The strippers that copy write to the copy only *)

Module StoreFacts.
Import Store.

Lemma value_in_weaken n m n' m' v :
  n' ≤ n → m ≤ m' → value_in n m v → value_in n' m' v.
Proof. destruct v; cbn; lia. Qed.

Lemma object_in_weaken n m n' m' o :
  n' ≤ n → m ≤ m' → object_in n m o → object_in n' m' o.
Proof.
  intros ? ? Ho. destruct o; cbn in *; (eapply Forall_impl; [exact Ho|]);
    intros ?; by apply value_in_weaken.
Qed.

Lemma keeps_below_refl n st : keeps_below n st st.
Proof. by split. Qed.

Lemma keeps_below_trans n st1 st2 st3 :
  keeps_below n st1 st2 → keeps_below n st2 st3 → keeps_below n st1 st3.
Proof.
  intros [Hl1 H1] [Hl2 H2]. split; [congruence|].
  intros l Hl. by rewrite H2, H1.
Qed.

(** Writing an object at or above [n]. *)
Lemma write_keeps n (st : store) l o : n ≤ l → keeps_below n st (<[l := o]> st).
Proof.
  intros Hl. split; [apply length_insert|].
  intros l' Hl'. apply list_lookup_insert_ne. lia.
Qed.

Lemma write_closed n (st : store) l o :
  closed_from n st → object_in n (length st) o → closed_from n (<[l := o]> st).
Proof.
  unfold closed_from. intros Hclosed Ho l' o' Hl' Hlook.
  unfold store in *. rewrite length_insert.
  rewrite list_lookup_insert in Hlook. case_decide as Hcase.
  - by injection Hlook as <-.
  - by apply (Hclosed l').
Qed.

(** **** The item operations write at their object only *)

(** Case analysis on the object at [l], as the goal reads it. *)
Ltac case_lookup l H :=
  match goal with
  | |- context [@lookup ?K ?A ?M ?I l ?st] =>
      destruct (@lookup K A M I l st) as [[entries|items]|] eqn:H
  end.

Lemma closed_from_lookup n (st : store) l o :
  closed_from n st → n ≤ l → st !! l = Some o → object_in n (length st) o.
Proof. intros Hc ? ?. by apply (Hc l). Qed.

Lemma write_framed n (st : store) l o :
  closed_from n st → n ≤ l → object_in n (length st) o →
  keeps_below n st (<[l := o]> st) ∧ closed_from n (<[l := o]> st).
Proof. intros. split; [by apply write_keeps|by apply write_closed]. Qed.

Lemma setitem_entries_in n m key v (entries : list (string * value)) :
  value_in n m v →
  Forall (λ kv, value_in n m kv.2) entries →
  Forall (λ kv, value_in n m kv.2)
         (map (λ kv, if decide (kv.1 = key) then (key, v) else kv) entries).
Proof.
  intros Hv. induction 1 as [|kv entries Hkv _ IH]; cbn; constructor; [|done].
  by case_decide.
Qed.

Lemma dict_setitem_framed n st l key v st' :
  closed_from n st → n ≤ l → value_in n (length st) v →
  dict_setitem st l key v = Some st' →
  keeps_below n st st' ∧ closed_from n st'.
Proof.
  intros Hc Hl Hv. unfold dict_setitem.
  case_lookup l Hlook; try done. intros [= <-].
  apply write_framed; [done|done|].
  pose proof (closed_from_lookup _ _ _ _ Hc Hl Hlook) as Hentries. cbn in *.
  by apply setitem_entries_in.
Qed.

Lemma list_setitem_framed n st l i v st' :
  closed_from n st → n ≤ l → value_in n (length st) v →
  list_setitem st l i v = Some st' →
  keeps_below n st st' ∧ closed_from n st'.
Proof.
  intros Hc Hl Hv. unfold list_setitem.
  case_lookup l Hlook; try done.
  case_decide; [|done]. intros [= <-].
  apply write_framed; [done|done|].
  pose proof (closed_from_lookup _ _ _ _ Hc Hl Hlook) as Hitems. cbn in *.
  by apply Forall_insert.
Qed.

Lemma remove_key_Forall (P : string * value → Prop) key entries entries' :
  remove_key key entries = Some entries' → Forall P entries → Forall P entries'.
Proof.
  revert entries'. induction entries as [|[k v] rest IH]; intros entries'; cbn; [done|].
  case_decide.
  - intros [= <-] Hall. by apply Forall_cons in Hall as [_ ?].
  - destruct (remove_key key rest) as [rest'|]; [|done]. cbn. intros [= <-] Hall.
    apply Forall_cons in Hall as [? ?]. constructor; [done|]. by apply IH.
Qed.

Lemma dict_delitem_framed n st l key st' :
  closed_from n st → n ≤ l →
  dict_delitem st l key = Some st' →
  keeps_below n st st' ∧ closed_from n st'.
Proof.
  intros Hc Hl. unfold dict_delitem.
  case_lookup l Hlook; try done.
  destruct (remove_key key entries) as [entries'|] eqn:Hrem; [|done]. cbn. intros [= <-].
  apply write_framed; [done|done|].
  pose proof (closed_from_lookup _ _ _ _ Hc Hl Hlook) as Hentries. cbn in *.
  by eapply remove_key_Forall.
Qed.

Lemma list_delitem_framed n st l index st' :
  closed_from n st → n ≤ l →
  list_delitem st l index = Some st' →
  keeps_below n st st' ∧ closed_from n st'.
Proof.
  intros Hc Hl. unfold list_delitem.
  case_lookup l Hlook; try done.
  case_decide; [|done]. intros [= <-].
  apply write_framed; [done|done|].
  pose proof (closed_from_lookup _ _ _ _ Hc Hl Hlook) as Hitems. cbn in *.
  by apply Forall_delete.
Qed.

Lemma dict_delitems_framed n l keys :
  n ≤ l →
  ∀ st st', closed_from n st → dict_delitems st l keys = Some st' →
            keeps_below n st st' ∧ closed_from n st'.
Proof.
  intros Hl. induction keys as [|key keys IH]; intros st st' Hc; cbn.
  - intros [= <-]. split; [apply keeps_below_refl|done].
  - destruct (dict_delitem st l key) as [st1|] eqn:Hdel; [|done]. cbn. intros Hrest.
    destruct (dict_delitem_framed _ _ _ _ _ Hc Hl Hdel) as [Hk1 Hc1].
    destruct (IH _ _ Hc1 Hrest) as [Hk2 Hc2].
    split; [by eapply keeps_below_trans|done].
Qed.

Lemma list_delitems_framed n l indices :
  n ≤ l →
  ∀ st st', closed_from n st → list_delitems st l indices = Some st' →
            keeps_below n st st' ∧ closed_from n st'.
Proof.
  intros Hl. induction indices as [|index indices IH]; intros st st' Hc; cbn.
  - intros [= <-]. split; [apply keeps_below_refl|done].
  - destruct (list_delitem st l index) as [st1|] eqn:Hdel; [|done]. cbn. intros Hrest.
    destruct (list_delitem_framed _ _ _ _ _ Hc Hl Hdel) as [Hk1 Hc1].
    destruct (IH _ _ Hc1 Hrest) as [Hk2 Hc2].
    split; [by eapply keeps_below_trans|done].
Qed.

(** **** The strippers write in the region of their argument only *)

Lemma evaluator_scan_dict_framed find n l path entries :
  evaluator_find_framed find → n ≤ l →
  ∀ st missing_fields keys st' missing_fields' keys',
    closed_from n st →
    Forall (λ kv, value_in n (length st) kv.2) entries →
    evaluator_scan_dict find l path entries st missing_fields keys
      = Some (st', missing_fields', keys') →
    keeps_below n st st' ∧ closed_from n st'.
Proof.
  intros Hfind Hl.
  induction entries as [|[key value] rest IH]; intros st mf keys st' mf' keys' Hc Hall;
    cbn [evaluator_scan_dict].
  - intros [= <- _ _]. split; [apply keeps_below_refl|done].
  - apply Forall_cons in Hall as [Hv Hrest]. cbn [snd] in Hv.
    destruct (is_container value).
    + destruct (find st value _ mf) as [[[value' st1] mf1]|] eqn:Hrec; [|done]. cbn.
      destruct (Hfind _ _ _ _ _ _ _ _ Hc Hv Hrec) as (-> & [Hlen1 Hk1] & Hc1).
      destruct (dict_setitem st1 l key value) as [st2|] eqn:Hset; [|done]. cbn.
      destruct (dict_setitem_framed n st1 l key value st2) as [[Hlen2 Hk2] Hc2];
        [done|done|by rewrite Hlen1|done|].
      intros Hrun.
      assert (Forall (λ kv, value_in n (length st2) kv.2) rest) as Hrest2
        by (by rewrite Hlen2, Hlen1).
      destruct (IH _ _ _ _ _ _ Hc2 Hrest2 Hrun) as [Hk3 Hc3].
      split; [|done].
      eapply keeps_below_trans; [|exact Hk3].
      eapply keeps_below_trans; by split.
    + destruct (is_missing value); intros Hrun; by eapply IH.
Qed.

Lemma evaluator_scan_list_framed find n l path items :
  evaluator_find_framed find → n ≤ l →
  ∀ i st missing_fields indices st' missing_fields' indices',
    closed_from n st →
    Forall (value_in n (length st)) items →
    evaluator_scan_list find l path items i st missing_fields indices
      = Some (st', missing_fields', indices') →
    keeps_below n st st' ∧ closed_from n st'.
Proof.
  intros Hfind Hl.
  induction items as [|item rest IH]; intros i st mf idx st' mf' idx' Hc Hall;
    cbn [evaluator_scan_list].
  - intros [= <- _ _]. split; [apply keeps_below_refl|done].
  - apply Forall_cons in Hall as [Hv Hrest].
    destruct (is_container item).
    + destruct (find st item _ mf) as [[[item' st1] mf1]|] eqn:Hrec; [|done]. cbn.
      destruct (Hfind _ _ _ _ _ _ _ _ Hc Hv Hrec) as (-> & [Hlen1 Hk1] & Hc1).
      destruct (list_setitem st1 l i item) as [st2|] eqn:Hset; [|done]. cbn.
      destruct (list_setitem_framed n st1 l i item st2) as [[Hlen2 Hk2] Hc2];
        [done|done|by rewrite Hlen1|done|].
      intros Hrun.
      assert (Forall (value_in n (length st2)) rest) as Hrest2
        by (by rewrite Hlen2, Hlen1).
      destruct (IH _ _ _ _ _ _ _ Hc2 Hrest2 Hrun) as [Hk3 Hc3].
      split; [|done].
      eapply keeps_below_trans; [|exact Hk3].
      eapply keeps_below_trans; by split.
    + destruct (is_missing item); intros Hrun; by eapply IH.
Qed.

Lemma evaluator_find_rec_framed fuel : evaluator_find_framed (evaluator_find_rec fuel).
Proof.
  induction fuel as [|fuel IH]; intros n st data path mf data' st' mf' Hc Hv; [done|].
  cbn [evaluator_find_rec].
  destruct data as [| | | | |l];
    try (intros [= <- <- _]; split_and!; [done|apply keeps_below_refl|done]).
  cbn in Hv. case_lookup l Hlook; [| |done].
  - pose proof (closed_from_lookup _ _ _ _ Hc (proj1 Hv) Hlook) as Hentries. cbn in Hentries.
    destruct (evaluator_scan_dict _ l path entries st mf [])
      as [[[st1 mf1] keys]|] eqn:Hscan; [|done]. cbn.
    destruct (evaluator_scan_dict_framed _ n l path entries IH (proj1 Hv)
                _ _ _ _ _ _ Hc Hentries Hscan) as [Hk1 Hc1].
    destruct (dict_delitems st1 l keys) as [st2|] eqn:Hdel; [|done]. cbn.
    destruct (dict_delitems_framed n l keys (proj1 Hv) _ _ Hc1 Hdel) as [Hk2 Hc2].
    intros [= <- <- _]. split_and!; [done|by eapply keeps_below_trans|done].
  - pose proof (closed_from_lookup _ _ _ _ Hc (proj1 Hv) Hlook) as Hitems. cbn in Hitems.
    destruct (evaluator_scan_list _ l path items 0 st mf [])
      as [[[st1 mf1] idx]|] eqn:Hscan; [|done]. cbn.
    destruct (evaluator_scan_list_framed _ n l path items IH (proj1 Hv)
                _ _ _ _ _ _ _ Hc Hitems Hscan) as [Hk1 Hc1].
    destruct (list_delitems st1 l (sorted_reverse idx)) as [st2|] eqn:Hdel; [|done]. cbn.
    destruct (list_delitems_framed n l _ (proj1 Hv) _ _ Hc1 Hdel) as [Hk2 Hc2].
    intros [= <- <- _]. split_and!; [done|by eapply keeps_below_trans|done].
Qed.

Lemma conversation_scan_dict_framed find n path entries :
  conversation_find_framed find →
  ∀ st missing_fields keys st' missing_fields' keys',
    closed_from n st →
    Forall (λ kv, value_in n (length st) kv.2) entries →
    conversation_scan_dict find path entries st missing_fields keys
      = Some (st', missing_fields', keys') →
    keeps_below n st st' ∧ closed_from n st'.
Proof.
  intros Hfind.
  induction entries as [|[key value] rest IH]; intros st mf keys st' mf' keys' Hc Hall;
    cbn [conversation_scan_dict].
  - intros [= <- _ _]. split; [apply keeps_below_refl|done].
  - apply Forall_cons in Hall as [Hv Hrest]. cbn [snd] in Hv.
    destruct (is_container value).
    + destruct (find st value _ mf) as [[st1 mf1]|] eqn:Hrec; [|done]. cbn.
      destruct (Hfind _ _ _ _ _ _ _ Hc Hv Hrec) as ([Hlen1 Hk1] & Hc1).
      intros Hrun.
      assert (Forall (λ kv, value_in n (length st1) kv.2) rest) as Hrest1
        by (by rewrite Hlen1).
      destruct (IH _ _ _ _ _ _ Hc1 Hrest1 Hrun) as [Hk3 Hc3].
      split; [|done]. eapply keeps_below_trans; [|exact Hk3]. by split.
    + destruct (is_missing value); intros Hrun; by eapply IH.
Qed.

Lemma conversation_scan_list_framed find n path items :
  conversation_find_framed find →
  ∀ i st missing_fields indices st' missing_fields' indices',
    closed_from n st →
    Forall (value_in n (length st)) items →
    conversation_scan_list find path items i st missing_fields indices
      = Some (st', missing_fields', indices') →
    keeps_below n st st' ∧ closed_from n st'.
Proof.
  intros Hfind.
  induction items as [|item rest IH]; intros i st mf idx st' mf' idx' Hc Hall;
    cbn [conversation_scan_list].
  - intros [= <- _ _]. split; [apply keeps_below_refl|done].
  - apply Forall_cons in Hall as [Hv Hrest].
    destruct (is_container item).
    + destruct (find st item _ mf) as [[st1 mf1]|] eqn:Hrec; [|done]. cbn.
      destruct (Hfind _ _ _ _ _ _ _ Hc Hv Hrec) as ([Hlen1 Hk1] & Hc1).
      intros Hrun.
      assert (Forall (value_in n (length st1)) rest) as Hrest1
        by (by rewrite Hlen1).
      destruct (IH _ _ _ _ _ _ _ Hc1 Hrest1 Hrun) as [Hk3 Hc3].
      split; [|done]. eapply keeps_below_trans; [|exact Hk3]. by split.
    + destruct (is_missing item); intros Hrun; by eapply IH.
Qed.

Lemma conversation_find_rec_framed fuel :
  conversation_find_framed (conversation_find_rec fuel).
Proof.
  induction fuel as [|fuel IH]; intros n st data path mf st' mf' Hc Hv; [done|].
  cbn [conversation_find_rec].
  destruct data as [| | | | |l];
    try (intros [= <- _]; split; [apply keeps_below_refl|done]).
  cbn in Hv. case_lookup l Hlook; [| |done].
  - pose proof (closed_from_lookup _ _ _ _ Hc (proj1 Hv) Hlook) as Hentries. cbn in Hentries.
    destruct (conversation_scan_dict _ path entries st mf [])
      as [[[st1 mf1] keys]|] eqn:Hscan; [|done]. cbn.
    destruct (conversation_scan_dict_framed _ n path entries IH
                _ _ _ _ _ _ Hc Hentries Hscan) as [Hk1 Hc1].
    destruct (dict_delitems st1 l keys) as [st2|] eqn:Hdel; [|done]. cbn.
    destruct (dict_delitems_framed n l keys (proj1 Hv) _ _ Hc1 Hdel) as [Hk2 Hc2].
    intros [= <- _]. split; [by eapply keeps_below_trans|done].
  - pose proof (closed_from_lookup _ _ _ _ Hc (proj1 Hv) Hlook) as Hitems. cbn in Hitems.
    destruct (conversation_scan_list _ path items 0 st mf [])
      as [[[st1 mf1] idx]|] eqn:Hscan; [|done]. cbn.
    destruct (conversation_scan_list_framed _ n path items IH
                _ _ _ _ _ _ _ Hc Hitems Hscan) as [Hk1 Hc1].
    destruct (list_delitems st1 l (sorted_reverse idx)) as [st2|] eqn:Hdel; [|done]. cbn.
    destruct (list_delitems_framed n l _ (proj1 Hv) _ _ Hc1 Hdel) as [Hk2 Hc2].
    intros [= <- _]. split; [by eapply keeps_below_trans|done].
Qed.

(** **** What the caller holds is unchanged *)

Lemma dump_stable fuel (st st' : store) :
  (∀ l o, st !! l = Some o → st' !! l = Some o) →
  ∀ v doc, dump fuel st v = Some doc → dump fuel st' v = Some doc.
Proof.
  intros Hkeep. induction fuel as [|fuel IH]; intros v doc; destruct v; try done.
  cbn [dump]. unfold loc, store in *.
  destruct (st !! l) as [[entries|items]|] eqn:Hlook; [| |done]; rewrite (Hkeep _ _ Hlook).
  - intros (docs & Hdocs & ->)%fmap_Some. apply fmap_Some. exists docs. split; [|done].
    apply mapM_Some. apply mapM_Some in Hdocs.
    eapply Forall2_impl; [exact Hdocs|]. intros kv kd. cbn.
    intros (d & Hd & ->)%fmap_Some. by rewrite (IH _ _ Hd).
  - intros (docs & Hdocs & ->)%fmap_Some. apply fmap_Some. exists docs. split; [|done].
    apply mapM_Some. apply mapM_Some in Hdocs.
    eapply Forall2_impl; [exact Hdocs|]. intros x d. apply IH.
Qed.

(** **** [copy.deepcopy] writes to new objects only *)

Lemma grows_above_refl n st : grows_above n st st.
Proof. by split. Qed.

Lemma grows_above_trans n st1 st2 st3 :
  grows_above n st1 st2 → grows_above n st2 st3 → grows_above n st1 st3.
Proof.
  intros [Hl1 H1] [Hl2 H2]. split; [lia|]. intros l Hl. by rewrite H2, H1.
Qed.

Lemma keeps_below_grows n st st' : keeps_below n st st' → grows_above n st st'.
Proof. intros [Hlen Hk]. split; [lia|done]. Qed.

Lemma memo_in_weaken n (st st' : store) m :
  length st ≤ length st' → memo_in n st m → memo_in n st' m.
Proof. intros Hlen Hm l y Hy. specialize (Hm l y Hy). lia. Qed.

(** A new, empty object at the end of the store. *)
Lemma alloc_empty_above n (st : store) o :
  n ≤ length st → closed_from n st → object_in n (S (length st)) o →
  grows_above n st (st ++ [o]) ∧ closed_from n (st ++ [o]).
Proof.
  intros Hn Hc Ho. unfold grows_above, closed_from, store, loc in *.
  rewrite length_app. cbn [length]. split_and!; [lia| |].
  - intros l Hl. apply lookup_app_l. lia.
  - intros l o' Hl Hlook. destruct (decide (l < length st)) as [Hlt|Hge].
    + rewrite lookup_app_l in Hlook by done.
      eapply object_in_weaken; [| |by apply (Hc l)]; lia.
    + rewrite lookup_app_r in Hlook by lia.
      destruct (l - length st) as [|k]; [|done]. injection Hlook as <-.
      eapply object_in_weaken; [| |exact Ho]; lia.
Qed.

Lemma list_append_framed n st y v st' :
  closed_from n st → n ≤ y → value_in n (length st) v →
  list_append st y v = Some st' →
  keeps_below n st st' ∧ closed_from n st'.
Proof.
  intros Hc Hy Hv. unfold list_append.
  case_lookup y Hlook; try done. intros [= <-].
  apply write_framed; [done|done|].
  pose proof (closed_from_lookup _ _ _ _ Hc Hy Hlook) as Hitems. cbn in *.
  apply Forall_app. split; [done|]. by constructor.
Qed.

Lemma dict_store_framed n st y key v st' :
  closed_from n st → n ≤ y → value_in n (length st) v →
  dict_store st y key v = Some st' →
  keeps_below n st st' ∧ closed_from n st'.
Proof.
  intros Hc Hy Hv. unfold dict_store.
  case_lookup y Hlook; try done.
  pose proof (closed_from_lookup _ _ _ _ Hc Hy Hlook) as Hentries. cbn in Hentries.
  case_bool_decide; intros [= <-]; (apply write_framed; [done|done|]); cbn.
  - by apply setitem_entries_in.
  - apply Forall_app. split; [done|]. by constructor.
Qed.

Lemma copy_items_above copy n y items :
  copies_above copy → n ≤ y →
  ∀ st m st' m',
    n ≤ length st → closed_from n st → memo_in n st m →
    copy_items copy y items st m = Some (st', m') →
    grows_above n st st' ∧ closed_from n st' ∧ memo_in n st' m'.
Proof.
  intros Hcopy Hy. induction items as [|a rest IH]; intros st m st' m' Hn Hc Hm;
    cbn [copy_items].
  - intros [= <- <-]. split_and!; [apply grows_above_refl|done|done].
  - destruct (copy st m a) as [[[a' st1] m1]|] eqn:Ha; [|done]. cbn.
    destruct (Hcopy _ _ _ _ _ _ _ Hn Hc Hm Ha) as (Hg1 & Hc1 & Hm1 & Ha').
    destruct (list_append st1 y a') as [st2|] eqn:Happ; [|done]. cbn. intros Hrest.
    destruct (list_append_framed _ _ _ _ _ Hc1 Hy Ha' Happ) as [Hk2 Hc2].
    pose proof Hg1 as [Hlen1 _]. pose proof Hk2 as [Hlen2 _].
    destruct (IH st2 m1 st' m') as (Hg3 & Hc3 & Hm3); [lia|done| |done|].
    { eapply memo_in_weaken; [|exact Hm1]. lia. }
    split_and!; [|done|done].
    eapply grows_above_trans; [exact Hg1|].
    eapply grows_above_trans; [by apply keeps_below_grows|done].
Qed.

Lemma copy_entries_above copy n y entries :
  copies_above copy → n ≤ y →
  ∀ st m st' m',
    n ≤ length st → closed_from n st → memo_in n st m →
    copy_entries copy y entries st m = Some (st', m') →
    grows_above n st st' ∧ closed_from n st' ∧ memo_in n st' m'.
Proof.
  intros Hcopy Hy. induction entries as [|[key a] rest IH]; intros st m st' m' Hn Hc Hm;
    cbn [copy_entries].
  - intros [= <- <-]. split_and!; [apply grows_above_refl|done|done].
  - destruct (copy st m a) as [[[a' st1] m1]|] eqn:Ha; [|done]. cbn.
    destruct (Hcopy _ _ _ _ _ _ _ Hn Hc Hm Ha) as (Hg1 & Hc1 & Hm1 & Ha').
    destruct (dict_store st1 y key a') as [st2|] eqn:Happ; [|done]. cbn. intros Hrest.
    destruct (dict_store_framed _ _ _ _ _ _ Hc1 Hy Ha' Happ) as [Hk2 Hc2].
    pose proof Hg1 as [Hlen1 _]. pose proof Hk2 as [Hlen2 _].
    destruct (IH st2 m1 st' m') as (Hg3 & Hc3 & Hm3); [lia|done| |done|].
    { eapply memo_in_weaken; [|exact Hm1]. lia. }
    split_and!; [|done|done].
    eapply grows_above_trans; [exact Hg1|].
    eapply grows_above_trans; [by apply keeps_below_grows|done].
Qed.

Lemma memo_in_insert n (st : store) m l o :
  n ≤ length st → memo_in n st m → memo_in n (st ++ [o]) (<[l := length st]> m).
Proof.
  intros Hn Hm k y. unfold store in *. rewrite length_app. cbn [length].
  intros [[_ <-]|[_ Hy]]%lookup_insert_Some; [lia|]. specialize (Hm k y Hy). lia.
Qed.

Lemma deepcopy_above fuel : copies_above (deepcopy fuel).
Proof.
  induction fuel as [|fuel IH]; intros n st m x x' st' m' Hn Hc Hm Hrun.
  - destruct x; cbn in Hrun; try (injection Hrun as <- <- <-;
      split_and!; [apply grows_above_refl|done|done|done]).
    destruct (m !! l) as [y|] eqn:Hy; [|done]. injection Hrun as <- <- <-.
    split_and!; [apply grows_above_refl|done|done|]. cbn. by apply (Hm l).
  - destruct x; cbn [deepcopy] in Hrun; try (injection Hrun as <- <- <-;
      split_and!; [apply grows_above_refl|done|done|done]).
    destruct (m !! l) as [y|] eqn:Hy.
    { injection Hrun as <- <- <-.
      split_and!; [apply grows_above_refl|done|done|]. cbn. by apply (Hm l). }
    unfold store, loc in *.
    destruct (st !! l) as [[entries|items]|]; [| |done]; cbv zeta in Hrun.
    + destruct (alloc_empty_above n st (ODict []) Hn Hc) as [Hg0 Hc0]; [by constructor|].
      destruct (copy_entries _ _ entries _ _) as [[st1 m1]|] eqn:Hloop; [|done].
      cbn in Hrun. injection Hrun as <- <- <-.
      assert (n ≤ length (st ++ [ODict []])) as Hn0 by (rewrite length_app; lia).
      destruct (copy_entries_above _ n (length st) entries IH Hn _ _ _ _ Hn0 Hc0
                  (memo_in_insert n st m l _ Hn Hm) Hloop) as (Hg1 & Hc1 & Hm1).
      split_and!; [by eapply grows_above_trans|done|done|].
      destruct Hg1 as [Hlen _]. unfold store in *. rewrite length_app in Hlen.
      cbn in *. lia.
    + destruct (alloc_empty_above n st (OList []) Hn Hc) as [Hg0 Hc0]; [by constructor|].
      destruct (copy_items _ _ items _ _) as [[st1 m1]|] eqn:Hloop; [|done].
      cbn in Hrun. injection Hrun as <- <- <-.
      assert (n ≤ length (st ++ [OList []])) as Hn0 by (rewrite length_app; lia).
      destruct (copy_items_above _ n (length st) items IH Hn _ _ _ _ Hn0 Hc0
                  (memo_in_insert n st m l _ Hn Hm) Hloop) as (Hg1 & Hc1 & Hm1).
      split_and!; [by eapply grows_above_trans|done|done|].
      destruct Hg1 as [Hlen _]. unfold store in *. rewrite length_app in Hlen.
      cbn in *. lia.
Qed.

Lemma deepcopy_closed fuel (st : store) v v' st' m' :
  deepcopy fuel st ∅ v = Some (v', st', m') →
  closed_from (length st) st' ∧ value_in (length st) (length st') v' ∧
  ∀ l o, st !! l = Some o → st' !! l = Some o.
Proof.
  intros Hrun.
  destruct (deepcopy_above fuel (length st) st ∅ v v' st' m') as ([_ Hk] & Hc & _ & Hv);
    [done| |done|done|].
  { intros l o Hl Hlook. apply lookup_lt_Some in Hlook. unfold store in *. lia. }
  split_and!; [done|done|].
  intros l o Hlook. rewrite Hk; [done|]. by eapply lookup_lt_Some.
Qed.

(** X16. The strippers that copy first write to the copy only: every object the
    store held before the call is there, unchanged, after it, and a record
    the caller could read before reads the same after. This holds for
    [process_ground_truth] and for the evaluator's stripper called without a
    [missing_fields] list. *)
Theorem copying_strippers_keep_original fuel (st : store) data path copy st' missing_fields :
  process_ground_truth fuel st data = Some (copy, st', missing_fields)
  ∨ evaluator_find_missing_fields fuel st data path None = Some (copy, st', missing_fields) →
  (∀ l o, st !! l = Some o → st' !! l = Some o) ∧
  (∀ fuel' v doc, dump fuel' st v = Some doc → dump fuel' st' v = Some doc).
Proof.
  intros Hrun.
  assert (∀ l o, st !! l = Some o → st' !! l = Some o) as Hkeep.
  { destruct Hrun as [Hrun|Hrun].
    - unfold process_ground_truth in Hrun.
      destruct (deepcopy fuel st ∅ data) as [[[copy1 st1] m1]|] eqn:Hcopy; [|done].
      cbn in Hrun.
      destruct (conversation_find_rec fuel st1 copy1 "" []) as [[st2 mf]|] eqn:Hfind;
        [|done].
      cbn in Hrun. injection Hrun as <- <- <-.
      destruct (deepcopy_closed _ _ _ _ _ _ Hcopy) as (Hclosed & Hin & Hkeep1).
      destruct (conversation_find_rec_framed fuel _ _ _ _ _ _ _ Hclosed Hin Hfind)
        as [[_ Hkeep2] _].
      intros l o Hlook. rewrite Hkeep2; [by apply Hkeep1|]. by eapply lookup_lt_Some.
    - unfold evaluator_find_missing_fields in Hrun.
      destruct (deepcopy fuel st ∅ data) as [[[copy1 st1] m1]|] eqn:Hcopy; [|done].
      cbn in Hrun.
      destruct (deepcopy_closed _ _ _ _ _ _ Hcopy) as (Hclosed & Hin & Hkeep1).
      destruct (evaluator_find_rec_framed fuel _ _ _ _ _ _ _ _ Hclosed Hin Hrun)
        as (_ & [_ Hkeep2] & _).
      intros l o Hlook. rewrite Hkeep2; [by apply Hkeep1|]. by eapply lookup_lt_Some. }
  split; [done|]. intros fuel' v doc. by apply dump_stable.
Qed.

End StoreFacts.

(** * Further properties of the code

    Properties of the same functions, of their callers and of the helpers
    they use, read off the code. *)

(** ** The counters and ratios of [_calculate_metrics] *)

Lemma count_result_categories st r k :
  c_categories (count_result st r) !! k =
    (λ c, {| total := ((if in_category k r then 1 else 0) + total c)%nat;
             matched := ((if matched_in_category k r then 1 else 0) + matched c)%nat |})
      <$> c_categories st !! k.
Proof.
  assert (c_categories (count_result st r) =
            if bool_decide (is_Some (c_categories st !! category r)) then
              alter (λ c, {| total := S (total c);
                             matched := if match_ r then S (matched c) else matched c |})
                    (category r) (c_categories st)
            else c_categories st) as ->.
  { unfold count_result. repeat case_bool_decide; by destruct (match_ r). }
  unfold in_category, matched_in_category.
  destruct (decide (category r = k)) as [<-|Hne].
  - rewrite !(bool_decide_eq_true_2 (category r = category r)) by done.
    case_bool_decide as Hsome.
    + rewrite lookup_alter_eq. destruct (c_categories st !! category r) as [[t m]|]; [|done].
      cbn. by destruct (match_ r).
    + destruct (c_categories st !! category r) as [c|] eqn:Hc; [|done].
      exfalso. apply Hsome. by eexists.
  - rewrite !(bool_decide_eq_false_2 (category r = k)) by done. cbn.
    assert (∀ o : option CategoryCount,
              o = (λ c, {| total := total c; matched := matched c |}) <$> o) as Hid.
    { by intros [[t m]|]. }
    case_bool_decide; [rewrite lookup_alter_ne by done|]; apply Hid.
Qed.

Lemma count_results_categories l st k :
  c_categories (foldl (λ st fr, count_result st fr.2) st l) !! k =
    (λ c, {| total := (length (filter (λ fr : string * FieldResult, in_category k fr.2 = true) l)
                       + total c)%nat;
             matched := (length (filter (λ fr : string * FieldResult,
                                           matched_in_category k fr.2 = true) l)
                         + matched c)%nat |})
      <$> c_categories st !! k.
Proof.
  revert st. induction l as [|fr l IH]; intros st; cbn [foldl].
  - rewrite !filter_nil. by destruct (c_categories st !! k) as [[t m]|].
  - rewrite IH, count_result_categories, !count_results_step.
    destruct (c_categories st !! k) as [[t m]|]; [|done]. cbn. do 2 f_equal; lia.
Qed.

Lemma category_counts_disjoint (l : list (string * FieldResult)) :
  (length (filter (λ fr : string * FieldResult, in_category "present" fr.2 = true) l)
   + length (filter (λ fr : string * FieldResult, in_category "extra" fr.2 = true) l)
   + length (filter (λ fr : string * FieldResult, in_category "missing" fr.2 = true) l)
   ≤ length l)%nat.
Proof.
  induction l as [|fr l IH]; [by rewrite !filter_nil|].
  rewrite !count_results_step. cbn [length]. unfold in_category in *.
  repeat case_bool_decide; try lia; congruence.
Qed.

Lemma judgments_by_category (l : list (string * FieldResult)) :
  (length (filter (λ fr : string * FieldResult, is_true_positive fr.2 = true) l)
   + (length (filter (λ fr : string * FieldResult, is_present_mismatch fr.2 = true) l)
      + length (filter (λ fr : string * FieldResult, is_extra fr.2 = true) l))
   + length (filter (λ fr : string * FieldResult, is_false_negative fr.2 = true) l)
   = length (filter (λ fr : string * FieldResult, in_category "present" fr.2 = true) l)
     + length (filter (λ fr : string * FieldResult, in_category "extra" fr.2 = true) l))%nat.
Proof.
  induction l as [|fr l IH]; [by rewrite !filter_nil|].
  rewrite !count_results_step.
  unfold is_true_positive, is_present_mismatch, is_extra, is_false_negative, in_category in *.
  repeat case_bool_decide; destruct (match_ fr.2); cbn; try lia; congruence.
Qed.

Lemma matched_le_total c (l : list (string * FieldResult)) :
  (length (filter (λ fr : string * FieldResult, matched_in_category c fr.2 = true) l)
   ≤ length (filter (λ fr : string * FieldResult, in_category c fr.2 = true) l))%nat.
Proof.
  induction l as [|fr l IH]; [by rewrite !filter_nil|].
  rewrite !count_results_step. unfold matched_in_category, in_category in *.
  case_bool_decide; destruct (match_ fr.2); cbn; lia.
Qed.

(** X1. The category counters of [_calculate_metrics]. The report has
    exactly the three categories present, extra and missing; the total and
    the matched count of each are the numbers of field results of that
    category, and of those that match; [total_fields] counts the results of
    the three categories only, so never more than there are results; and the
    three judgments together count the present and the extra results. *)
Theorem calculate_metrics_categories (field_results : gmap string FieldResult)
    (missing_fields : option (list string)) :
  let m := calculate_metrics field_results missing_fields in
  dom (categories m) = list_to_set category_names ∧
  (∀ c, c ∈ category_names →
     ∃ cm, categories m !! c = Some cm ∧
           cm_total cm = count (in_category c) field_results ∧
           cm_matched cm = count (matched_in_category c) field_results ∧
           (cm_matched cm ≤ cm_total cm)%nat) ∧
  total_fields m =
    (count (in_category "present") field_results + count (in_category "extra") field_results
     + count (in_category "missing") field_results)%nat ∧
  (total_fields m ≤ size field_results)%nat ∧
  (true_positives m + false_positives m + false_negatives m =
     count (in_category "present") field_results
     + count (in_category "extra") field_results)%nat.
Proof.
  cbv zeta.
  pose proof (count_results_categories (map_to_list field_results) initial_counters) as Hcat.
  destruct (count_results_fold (map_to_list field_results) initial_counters)
    as (Htp & Hfp & Hfn). cbn in Htp, Hfp, Hfn.
  set (st := count_results (map_to_list field_results)) in *.
  assert (∀ c, c ∈ category_names →
            c_categories st !! c =
              Some {| total := count (in_category c) field_results;
                      matched := count (matched_in_category c) field_results |}) as Hin.
  { intros c Hc. unfold st, count_results. rewrite Hcat. unfold count, initial_counters.
    cbn [c_categories]. unfold category_names in Hc. set_unfold in Hc.
    destruct Hc as [->|[->|[->|[]]]]; simplify_map_eq; cbn; by rewrite !Nat.add_0_r. }
  assert (∀ c, c ∉ category_names → c_categories st !! c = None) as Hout.
  { intros c Hc. unfold st, count_results. rewrite Hcat. unfold initial_counters.
    cbn [c_categories]. unfold category_names in Hc. set_unfold in Hc.
    rewrite !lookup_insert_ne, lookup_empty; [done|..]; intros <-; apply Hc; auto. }
  assert (c_categories st =
            <["present" := {| total := count (in_category "present") field_results;
                              matched := count (matched_in_category "present") field_results |}]>
            (<["extra" := {| total := count (in_category "extra") field_results;
                             matched := count (matched_in_category "extra") field_results |}]>
            (<["missing" := {| total := count (in_category "missing") field_results;
                               matched := count (matched_in_category "missing") field_results |}]>
             ∅))) as Hmap.
  { apply map_eq. intros c.
    destruct (decide (c ∈ category_names)) as [Hc|Hc].
    - rewrite (Hin c Hc). unfold category_names in Hc. set_unfold in Hc.
      destruct Hc as [->|[->|[->|[]]]]; by simplify_map_eq.
    - rewrite (Hout c Hc). unfold category_names in Hc. set_unfold in Hc.
      rewrite !lookup_insert_ne, lookup_empty; [done|..]; intros <-; apply Hc; auto. }
  split_and!.
  - apply set_eq. intros c. unfold calculate_metrics. cbn [categories]. fold st.
    rewrite dom_fmap, elem_of_dom, elem_of_list_to_set.
    destruct (decide (c ∈ category_names)) as [Hc|Hc].
    + rewrite (Hin c Hc). split; [done|by eexists].
    + rewrite (Hout c Hc). split; [by intros [? ?]|done].
  - intros c Hc. unfold calculate_metrics. cbn [categories]. fold st.
    rewrite lookup_fmap, (Hin c Hc). cbn. eexists. split; [reflexivity|]. cbn.
    split_and!; [done..|]. apply matched_le_total.
  - unfold calculate_metrics. cbn [total_fields]. fold st. rewrite Hmap.
    rewrite !map_fold_insert_L, map_fold_empty; cbn; try lia; try done.
    all: intros; lia.
  - unfold calculate_metrics. cbn [total_fields]. fold st. rewrite Hmap.
    rewrite !map_fold_insert_L, map_fold_empty; cbn; try done.
    2-4: intros; lia.
    unfold count. rewrite Nat.add_0_r, Nat.add_assoc.
    etrans; [apply category_counts_disjoint|]. by rewrite length_map_to_list.
  - unfold calculate_metrics. cbn [true_positives false_positives false_negatives].
    unfold count_results. rewrite Htp, Hfp, Hfn. apply judgments_by_category.
Qed.

Lemma Qnat_le a b : (a ≤ b)%nat → (Qnat a <= Qnat b)%Q.
Proof. intros H. unfold Qnat. rewrite <- Zle_Qle. lia. Qed.

Lemma Qnat_pos b : (0 < b)%nat → (0 < Qnat b)%Q.
Proof. intros H. unfold Qnat. replace 0%Q with (inject_Z 0) by done. rewrite <- Zlt_Qlt. lia. Qed.

Lemma Qnat_ratio_le a b c :
  (0 < b)%nat → (b ≤ c)%nat → (Qnat a / Qnat c <= Qnat a / Qnat b)%Q.
Proof.
  intros Hb Hbc.
  pose proof (Qnat_pos b Hb) as Hb'. pose proof (Qnat_le b c Hbc) as Hbc'.
  pose proof (Qnat_le 0 a (Nat.le_0_l a)) as Ha. change (Qnat 0) with 0%Q in Ha.
  assert (0 < Qnat c)%Q as Hc' by (apply Qnat_pos; lia).
  apply Qle_shift_div_l; [done|].
  unfold Qdiv. rewrite <- Qmult_assoc, (Qmult_comm (/ Qnat c)), Qmult_assoc.
  apply Qle_shift_div_r; [done|]. nra.
Qed.

Lemma Qnat_ratio_unit a b : (a ≤ b)%nat → (0 < b)%nat → in_unit (Qnat a / Qnat b).
Proof.
  intros Hab Hb.
  pose proof (Qnat_pos b Hb) as Hb'. pose proof (Qnat_le a b Hab) as Hab'.
  pose proof (Qnat_le 0 a (Nat.le_0_l a)) as Ha. change (Qnat 0) with 0%Q in Ha.
  split.
  - apply Qle_shift_div_l; [done|]. lra.
  - apply Qle_shift_div_r; [done|]. lra.
Qed.

Lemma in_unit_0 : in_unit 0.
Proof. split; lra. Qed.

Lemma harmonic_unit p r :
  in_unit p → in_unit r → (0 < p + r)%Q → in_unit (2 * (p * r) / (p + r)).
Proof.
  intros [Hp0 Hp1] [Hr0 Hr1] Hpos. split.
  - apply Qle_shift_div_l; [done|]. nra.
  - apply Qle_shift_div_r; [done|]. nra.
Qed.

(** X2. Every ratio [_calculate_metrics] reports lies between 0 and 1:
    precision, recall, F1, the overall accuracy and the accuracy of each
    category; and the overall accuracy is at most the precision and at most
    the recall. *)
Theorem calculate_metrics_bounds (field_results : gmap string FieldResult)
    (missing_fields : option (list string)) :
  let m := calculate_metrics field_results missing_fields in
  in_unit (precision m) ∧ in_unit (recall m) ∧ in_unit (f1_score m) ∧
  in_unit (overall_accuracy m) ∧
  (overall_accuracy m <= precision m)%Q ∧ (overall_accuracy m <= recall m)%Q ∧
  (∀ c cm, categories m !! c = Some cm → in_unit (cm_accuracy cm)).
Proof.
  cbv zeta. unfold calculate_metrics.
  set (st := count_results (map_to_list field_results)).
  cbn [precision recall f1_score overall_accuracy categories].
  set (tp := c_true_positives st). set (fp := c_false_positives st).
  set (fn := c_false_negatives st).
  assert (in_unit (if (0 <? tp + fp)%nat then Qnat tp / Qnat (tp + fp) else 0)%Q) as Hp.
  { destruct (0 <? tp + fp)%nat eqn:H; [|apply in_unit_0].
    apply Nat.ltb_lt in H. apply Qnat_ratio_unit; lia. }
  assert (in_unit (if (0 <? tp + fn)%nat then Qnat tp / Qnat (tp + fn) else 0)%Q) as Hr.
  { destruct (0 <? tp + fn)%nat eqn:H; [|apply in_unit_0].
    apply Nat.ltb_lt in H. apply Qnat_ratio_unit; lia. }
  split_and!; try done.
  - destruct (Qpositive _) eqn:Hpos; [|apply in_unit_0].
    apply Qpositive_spec in Hpos. by apply harmonic_unit.
  - destruct (0 <? tp + fp + fn)%nat eqn:H; [|apply in_unit_0].
    apply Nat.ltb_lt in H. apply Qnat_ratio_unit; lia.
  - destruct (0 <? tp + fp + fn)%nat eqn:H; [|apply Hp].
    destruct (0 <? tp + fp)%nat eqn:H'.
    + apply Nat.ltb_lt in H'. apply Qnat_ratio_le; lia.
    + apply Nat.ltb_ge in H'. assert (tp = 0%nat) as -> by lia.
      unfold Qdiv. change (Qnat 0) with 0%Q. lra.
  - destruct (0 <? tp + fp + fn)%nat eqn:H; [|apply Hr].
    destruct (0 <? tp + fn)%nat eqn:H'.
    + apply Nat.ltb_lt in H'. apply Qnat_ratio_le; lia.
    + apply Nat.ltb_ge in H'. assert (tp = 0%nat) as -> by lia.
      unfold Qdiv. change (Qnat 0) with 0%Q. lra.
  - intros c cm. rewrite lookup_fmap.
    destruct (c_categories st !! c) as [[t mt]|] eqn:Hc; [|done].
    intros [= <-]. cbn [cm_accuracy total matched].
    destruct (0 <? t)%nat eqn:H; [|apply in_unit_0].
    apply Nat.ltb_lt in H. apply Qnat_ratio_unit; [|done].
    unfold st, count_results in Hc. rewrite count_results_categories in Hc.
    destruct (c_categories initial_counters !! c) as [[t0 m0]|] eqn:Hc0; [|done].
    assert (t0 = 0%nat ∧ m0 = 0%nat) as [-> ->].
    { unfold initial_counters in Hc0. cbn [c_categories] in Hc0.
      repeat (apply lookup_insert_Some in Hc0 as [[_ Hc0]|[_ Hc0]];
              [by injection Hc0 as <- <-|]).
      by rewrite lookup_empty in Hc0. }
    injection Hc as <- <-. cbn. rewrite !Nat.add_0_r. apply matched_le_total.
Qed.

(** ** The comparator and the reconciler at the edges *)

(** X3. Two strings that agree once lower-cased and stripped of surrounding
    blanks, and that agree on containing [MISSING_FIELD], match, and the
    model is not asked. *)
Theorem compare_values_normalised_equal oracle py_repr (s1 s2 : string) calls :
  str_strip (str_lower s1) = str_strip (str_lower s2) →
  str_contains MISSING_FIELD s1 = str_contains MISSING_FIELD s2 →
  compare_values oracle py_repr (JStr s1) (JStr s2) calls = (Ok true, calls).
Proof.
  intros Hnorm Hin.
  rewrite (compare_values_text oracle py_repr (JStr s1) (JStr s2)
             (str_contains MISSING_FIELD s1) (str_contains MISSING_FIELD s2));
    try done.
  rewrite Hin. destruct (str_contains MISSING_FIELD s2); [done|].
  cbn [andb orb py_str]. cbv zeta. by rewrite bool_decide_eq_true_2.
Qed.

Lemma compare_values_normalised_equal_witness :
  compare_values (λ _ _, None) (λ _, "") (JStr "  Jane DOE") (JStr "jane doe ") []
  = (Ok true, []).
Proof.
  apply (compare_values_normalised_equal (λ _ _, None) (λ _, "") "  Jane DOE" "jane doe " []);
    reflexivity.
Defined.

(** X4. [_semantic_match] never raises and asks the model at most once. A
    call that fails is answered [False]; the answer is [True] only when the
    model was asked, the lengths differ by at most 20, both are at least 3,
    and the reply, stripped and lower-cased, contains ["yes"]. *)
Theorem semantic_match_never_raises oracle (value1 value2 : string) calls :
  ∃ b calls',
    semantic_match oracle value1 value2 calls = (Ok b, calls') ∧
    (calls' = calls ∨ calls' = calls ++ [(value1, value2)]) ∧
    (oracle value1 value2 = None → b = false) ∧
    (b = true →
       calls' = calls ++ [(value1, value2)] ∧
       (Z.abs (Z.of_nat (String.length value1) - Z.of_nat (String.length value2)) ≤ 20)%Z ∧
       3 ≤ String.length value1 ∧ 3 ≤ String.length value2 ∧
       ∃ output_text, oracle value1 value2 = Some output_text ∧
                      str_contains "yes" (str_lower (str_strip output_text)) = true).
Proof.
  unfold semantic_match.
  destruct (_ || _) eqn:Hskip.
  - exists false, calls. split_and!; auto. done.
  - apply orb_false_elim in Hskip as [Hdiff Hmin].
    apply Z.ltb_ge in Hdiff. apply Nat.ltb_ge in Hmin.
    destruct (oracle value1 value2) as [output_text|] eqn:Horacle.
    + eexists _, _. split_and!; [done|by right|done|].
      intros Hyes. split_and!; [done|done|lia|lia|]. by exists output_text.
    + exists false, (calls ++ [(value1, value2)]). split_and!; auto. done.
Qed.

Lemma present_loop_quiet oracle py_repr flat_extracted items calls :
  (∀ field truth_value, (field, truth_value) ∈ items →
     ∃ r, present_result oracle py_repr flat_extracted field truth_value calls
          = (Ok r, calls)) →
  ∀ field_results,
    ∃ field_results',
      present_loop oracle py_repr flat_extracted items field_results calls
        = (Ok field_results', calls).
Proof.
  induction items as [|[field truth_value] rest IH]; intros Hq field_results.
  - by eexists.
  - cbn [present_loop]. unfold mbind, eval_bind.
    destruct (Hq field truth_value) as [r ->]; [left|].
    apply IH. intros f v Hmem. apply Hq. by right.
Qed.

Lemma compare_values_same oracle py_repr v calls :
  comparable v v = true → compare_values oracle py_repr v v calls = (Ok true, calls).
Proof.
  intros Hc. destruct (is_null v) eqn:Hn; [by destruct v|].
  assert (is_text v = true) as Ht by (by destruct v).
  assert (v ≠ JNull) as Hne by (by intros ->).
  destruct (contains_marker_text _ Ht) as [b Hb].
  rewrite (compare_values_text oracle py_repr v v b b calls Hne Hne Hb Hb).
  destruct b; [done|]. cbn [andb orb]. cbv zeta. by rewrite bool_decide_eq_true_2.
Qed.

Lemma count_results_ext (P : FieldResult → bool) (b : bool)
    (field_results : gmap string FieldResult) :
  map_Forall (λ _ r, P r = b) field_results →
  count P field_results = if b then size field_results else 0%nat.
Proof.
  intros Hall. unfold count. rewrite <- length_map_to_list.
  assert (Forall (λ fr : string * FieldResult, P fr.2 = b) (map_to_list field_results))
    as Hl.
  { apply Forall_forall. intros [k r] Hmem%elem_of_map_to_list. by apply (Hall k). }
  induction Hl as [|fr l Hfr _ IH]; [by destruct b|].
  rewrite count_results_step, Hfr, IH. by destruct b.
Qed.

Lemma calculate_metrics_counters field_results missing_fields :
  let m := calculate_metrics field_results missing_fields in
  true_positives m = count is_true_positive field_results ∧
  false_positives m =
    (count is_present_mismatch field_results + count is_extra field_results)%nat ∧
  false_negatives m = count is_false_negative field_results.
Proof.
  destruct (count_results_fold (map_to_list field_results) initial_counters)
    as (Htp & Hfp & Hfn).
  done.
Qed.

Lemma calculate_metrics_ratios field_results missing_fields :
  let m := calculate_metrics field_results missing_fields in
  let tp := true_positives m in
  let fp := false_positives m in
  let fn := false_negatives m in
  precision m = (if (0 <? tp + fp)%nat then Qnat tp / Qnat (tp + fp) else 0)%Q ∧
  recall m = (if (0 <? tp + fn)%nat then Qnat tp / Qnat (tp + fn) else 0)%Q ∧
  f1_score m = (if Qpositive (precision m + recall m)
                then 2 * (precision m * recall m) / (precision m + recall m) else 0)%Q ∧
  overall_accuracy m =
    (if (0 <? tp + fp + fn)%nat then Qnat tp / Qnat (tp + fp + fn) else 0)%Q.
Proof. done. Qed.

Lemma Qnat_0_ratio n : (Qnat 0 / Qnat n == 0)%Q.
Proof. unfold Qdiv. change (Qnat 0) with 0%Q. lra. Qed.

Lemma Qnat_same_ratio n : (0 < n)%nat → (Qnat n / Qnat n == 1)%Q.
Proof.
  intros Hn. apply Qnat_pos in Hn. apply Qmult_inv_r. intros H0. rewrite H0 in Hn.
  by apply Qlt_irrefl in Hn.
Qed.

(** X5. Scoring an empty extraction. Against an extracted record [{}],
    whatever the values of the ground truth (numbers included),
    [_evaluate_data] returns without asking the model: every ground-truth
    field is a present result with the missing-field error, all of them are
    false negatives, and the four ratios are 0. *)
Theorem evaluate_data_nothing_extracted oracle py_repr ground_truth flat_ground_truth
    missing_fields calls :
  flatten_dict ground_truth "" = Ok flat_ground_truth →
  ∃ out,
    evaluate_data oracle py_repr ground_truth (JDict []) missing_fields calls
      = (Ok out, calls) ∧
    ev_field_results out = missing_field_result <$> flat_ground_truth ∧
    true_positives (ev_metrics out) = 0%nat ∧
    false_positives (ev_metrics out) = 0%nat ∧
    false_negatives (ev_metrics out) = size flat_ground_truth ∧
    (precision (ev_metrics out) == 0)%Q ∧ (recall (ev_metrics out) == 0)%Q ∧
    (f1_score (ev_metrics out) == 0)%Q ∧ (overall_accuracy (ev_metrics out) == 0)%Q.
Proof.
  intros Hgt.
  assert (flatten_dict (JDict []) "" = Ok (∅ : gmap string json)) as Hex by done.
  destruct (present_loop_quiet oracle py_repr ∅ (map_to_list flat_ground_truth) calls)
    with (field_results := (∅ : gmap string FieldResult)) as [present Hloop].
  { intros field tv _. unfold present_result. rewrite lookup_empty. by eexists. }
  assert (∃ out, evaluate_data oracle py_repr ground_truth (JDict []) missing_fields calls
                 = (Ok out, calls)) as [out Hrun].
  { unfold evaluate_data, mbind, eval_bind, lift, mret, eval_ret.
    rewrite Hgt, Hex, Hloop. by eexists. }
  exists out. split; [done|].
  assert (ev_field_results out = missing_field_result <$> flat_ground_truth) as Hres.
  { apply map_eq. intros field. rewrite lookup_fmap.
    pose proof (evaluate_data_lookup oracle py_repr _ _ _ _ _ _ _ _ field Hrun Hgt Hex)
      as Hlook.
    rewrite lookup_empty in Hlook.
    destruct (flat_ground_truth !! field) as [tv|]; [|done].
    destruct Hlook as (r & -> & Hg & Hc & Hshape). rewrite lookup_empty in Hshape.
    destruct Hshape as (He & Hm & Herr). destruct r. cbn in *. by subst. }
  split; [done|].
  destruct (evaluate_data_returned oracle py_repr _ _ _ _ _ _ Hrun)
    as (_ & _ & _ & _ & _ & _ & _ & _ & Hmetrics).
  rewrite Hmetrics, Hres.
  set (results := missing_field_result <$> flat_ground_truth).
  destruct (calculate_metrics_counters results (Some (default [] missing_fields)))
    as (Htp & Hfp & Hfn).
  destruct (calculate_metrics_ratios results (Some (default [] missing_fields)))
    as (Hp & Hr & Hf & Ha).
  cbv zeta in *.
  assert (∀ P b, (∀ v, P (missing_field_result v) = b) →
            count P results = if b then size flat_ground_truth else 0%nat) as Hcount.
  { intros P b HP. rewrite (count_results_ext P b).
    - unfold results. by rewrite map_size_fmap.
    - intros k r. unfold results. rewrite lookup_fmap.
      destruct (flat_ground_truth !! k); [|done]. intros [= <-]. apply HP. }
  rewrite (Hcount is_true_positive false) in Htp by done.
  rewrite (Hcount is_present_mismatch false), (Hcount is_extra false) in Hfp by done.
  rewrite (Hcount is_false_negative true) in Hfn by done.
  rewrite Hf, Hp, Hr, Ha, Htp, Hfp, Hfn. cbn [Nat.add].
  change (0 <? 0)%nat with false. cbv iota.
  set (r := if (0 <? size flat_ground_truth)%nat
            then (Qnat 0 / Qnat (size flat_ground_truth))%Q else 0%Q).
  assert (r == 0)%Q as H0.
  { unfold r. destruct (0 <? size flat_ground_truth)%nat; [apply Qnat_0_ratio|done]. }
  split_and!; try done; try reflexivity.
  destruct (Qpositive (0 + r)) eqn:Hpos; [|reflexivity].
  apply Qpositive_spec in Hpos. rewrite H0 in Hpos. by apply Qlt_irrefl in Hpos.
Qed.

Lemma evaluate_data_nothing_extracted_witness :
  ∃ out,
    evaluate_data (λ _ _, None) (λ _, "")
      (JDict [("name", JStr "Jane Doe"); ("age", JInt 42)]) (JDict []) None []
      = (Ok out, []) ∧
    true_positives (ev_metrics out) = 0%nat.
Proof.
  destruct (evaluate_data_nothing_extracted (λ _ _, None) (λ _, "")
              (JDict [("name", JStr "Jane Doe"); ("age", JInt 42)])
              (flatten_dict_rec (JDict [("name", JStr "Jane Doe"); ("age", JInt 42)]) "")
              None [] eq_refl) as (out & Hrun & _ & Htp & _).
  exists out. split; [exact Hrun|exact Htp].
Defined.

Lemma present_loop_exact oracle py_repr flat_extracted (f : string → json → FieldResult)
    items calls :
  (∀ field truth_value, (field, truth_value) ∈ items →
     present_result oracle py_repr flat_extracted field truth_value calls
       = (Ok (f field truth_value), calls)) →
  ∀ field_results,
    present_loop oracle py_repr flat_extracted items field_results calls
      = (Ok (foldl (λ acc item, <[item.1 := f item.1 item.2]> acc) field_results items),
         calls).
Proof.
  induction items as [|[field truth_value] rest IH]; intros Hq field_results; [done|].
  cbn [present_loop foldl]. unfold mbind, eval_bind.
  rewrite (Hq field truth_value) by left.
  apply IH. intros fd v Hmem. apply Hq. by right.
Qed.

Lemma foldl_insert_lookup (f : string → json → FieldResult) (items : list (string * json)) :
  NoDup items.*1 →
  ∀ (field_results : gmap string FieldResult) field,
    foldl (λ acc item, <[item.1 := f item.1 item.2]> acc) field_results items !! field =
      match (list_to_map items : gmap string json) !! field with
      | Some v => Some (f field v)
      | None => field_results !! field
      end.
Proof.
  induction items as [|[k v] rest IH]; intros Hnd field_results field; [done|].
  cbn in Hnd. apply NoDup_cons in Hnd as [Hfresh Hnd].
  cbn [foldl fst snd]. rewrite (IH Hnd), list_to_map_cons.
  destruct (decide (k = field)) as [->|Hne].
  - rewrite (not_elem_of_list_to_map_1 rest field Hfresh). by rewrite !lookup_insert_eq.
  - rewrite !(lookup_insert_ne _ k field) by done. done.
Qed.

Lemma present_loop_exact_map oracle py_repr flat_extracted (f : string → json → FieldResult)
    (flat : gmap string json) calls :
  (∀ field truth_value, flat !! field = Some truth_value →
     present_result oracle py_repr flat_extracted field truth_value calls
       = (Ok (f field truth_value), calls)) →
  ∃ present,
    present_loop oracle py_repr flat_extracted (map_to_list flat) ∅ calls
      = (Ok present, calls) ∧
    ∀ field, present !! field = f field <$> flat !! field.
Proof.
  intros Hq. eexists. split.
  - apply (present_loop_exact oracle py_repr flat_extracted f).
    intros field v Hmem%elem_of_map_to_list. by apply Hq.
  - intros field. rewrite foldl_insert_lookup by apply NoDup_fst_map_to_list.
    rewrite list_to_map_to_list, lookup_empty. by destruct (flat !! field).
Qed.

(** X6. Scoring a record against itself. When every flattened value is a
    string, a list, a dict or null, [_evaluate_data] returns without asking
    the model: every field is a present result that matches, there are no
    false positives or negatives, and for a record with at least one field
    the four ratios are 1. *)
Theorem evaluate_data_same_record oracle py_repr record flat missing_fields calls :
  flatten_dict record "" = Ok flat →
  (∀ field value, flat !! field = Some value → comparable value value = true) →
  ∃ out,
    evaluate_data oracle py_repr record record missing_fields calls = (Ok out, calls) ∧
    ev_field_results out = matched_result <$> flat ∧
    true_positives (ev_metrics out) = size flat ∧
    false_positives (ev_metrics out) = 0%nat ∧
    false_negatives (ev_metrics out) = 0%nat ∧
    (flat ≠ ∅ →
       (precision (ev_metrics out) == 1)%Q ∧ (recall (ev_metrics out) == 1)%Q ∧
       (f1_score (ev_metrics out) == 1)%Q ∧ (overall_accuracy (ev_metrics out) == 1)%Q).
Proof.
  intros Hflat Hcmp.
  destruct (present_loop_exact_map oracle py_repr flat (λ _, matched_result) flat calls)
    as (present & Hloop & Hpresent).
  { intros field tv Hfield. unfold present_result. rewrite Hfield.
    unfold mbind, eval_bind. by rewrite compare_values_same by by eapply Hcmp. }
  assert (extra_loop flat (map_to_list flat) present = matched_result <$> flat) as Hres.
  { apply map_eq. intros field.
    rewrite extra_loop_map_lookup, Hpresent, lookup_fmap.
    destruct (flat !! field); [|done]. by rewrite bool_decide_eq_true_2 by done. }
  eexists. split.
  { unfold evaluate_data, mbind, eval_bind, lift, mret, eval_ret.
    rewrite Hflat, Hloop. reflexivity. }
  cbn [ev_field_results ev_metrics]. rewrite Hres. split; [done|].
  set (results := matched_result <$> flat).
  destruct (calculate_metrics_counters results (Some (default [] missing_fields)))
    as (Htp & Hfp & Hfn).
  destruct (calculate_metrics_ratios results (Some (default [] missing_fields)))
    as (Hp & Hr & Hf & Ha).
  cbv zeta in *.
  assert (∀ P b, (∀ v, P (matched_result v) = b) →
            count P results = if b then size flat else 0%nat) as Hcount.
  { intros P b HP. rewrite (count_results_ext P b).
    - unfold results. by rewrite map_size_fmap.
    - intros k r. unfold results. rewrite lookup_fmap.
      destruct (flat !! k); [|done]. intros [= <-]. apply HP. }
  rewrite (Hcount is_true_positive true) in Htp by done.
  rewrite (Hcount is_present_mismatch false), (Hcount is_extra false) in Hfp by done.
  rewrite (Hcount is_false_negative false) in Hfn by done.
  split_and!; try done.
  intros Hne. apply map_size_non_empty_iff in Hne.
  assert (0 < size flat)%nat as Hpos by lia.
  rewrite Hf, Hp, Hr, Ha, Htp, Hfp, Hfn. cbn [Nat.add]. rewrite !Nat.add_0_r.
  pose proof (Qnat_same_ratio (size flat) Hpos) as H1.
  apply Nat.ltb_lt in Hpos as ->.
  set (x := (Qnat (size flat) / Qnat (size flat))%Q) in *.
  split_and!; try done.
  destruct (Qpositive (x + x)) eqn:Hq.
  - rewrite H1. reflexivity.
  - exfalso. apply not_true_iff_false in Hq. apply Hq. apply Qpositive_spec.
    rewrite H1. reflexivity.
Qed.

Lemma evaluate_data_same_record_witness :
  ∃ out,
    evaluate_data (λ _ _, None) (λ _, "")
      (JDict [("name", JStr "Jane Doe"); ("phone", JNull)])
      (JDict [("name", JStr "Jane Doe"); ("phone", JNull)]) None []
      = (Ok out, []) ∧
    false_positives (ev_metrics out) = 0%nat.
Proof.
  destruct (evaluate_data_same_record (λ _ _, None) (λ _, "")
              (JDict [("name", JStr "Jane Doe"); ("phone", JNull)])
              (flatten_dict_rec (JDict [("name", JStr "Jane Doe"); ("phone", JNull)]) "")
              None [] eq_refl) as (out & Hrun & _ & _ & Hfp & _).
  - intros field value Hfield.
    assert (map_Forall (λ _ v, comparable v v = true)
              (flatten_dict_rec (JDict [("name", JStr "Jane Doe"); ("phone", JNull)]) ""))
      as Hall.
    { rewrite flatten_dict_rec_unfold. apply dict_of_items_Forall. cbn.
      repeat constructor. }
    exact (Hall field value Hfield).
  - exists out. split; [exact Hrun|exact Hfp].
Defined.

(** ** The model calls of a reconciliation *)

Lemma semantic_match_calls oracle value1 value2 calls :
  ∃ b new, semantic_match oracle value1 value2 calls = (Ok b, calls ++ new) ∧ length new ≤ 1.
Proof.
  unfold semantic_match. destruct (_ || _).
  - exists false, []. rewrite app_nil_r. split; [done|cbn; lia].
  - destruct (oracle value1 value2); eexists _, [_]; (split; [done|cbn; lia]).
Qed.

Lemma compare_values_calls oracle py_repr v1 v2 calls :
  comparable v1 v2 = true →
  ∃ b new, compare_values oracle py_repr v1 v2 calls = (Ok b, calls ++ new) ∧ length new ≤ 1.
Proof.
  intros Hc.
  assert (∀ b, ∃ b' new,
            (Ok b, calls) = (Ok b' : result bool, calls ++ new) ∧ length new ≤ 1) as Hquiet.
  { intros b. exists b, []. rewrite app_nil_r. split; [done|cbn; lia]. }
  destruct (is_null v1) eqn:Hn1;
    [destruct v1; try done; rewrite compare_values_null_l; apply Hquiet|].
  destruct (is_null v2) eqn:Hn2;
    [destruct v2; try done; rewrite compare_values_null_r; apply Hquiet|].
  assert (is_text v1 = true ∧ is_text v2 = true) as [Ht1 Ht2].
  { destruct v1, v2; try done. }
  assert (v1 ≠ JNull) as Hn1' by (by intros ->).
  assert (v2 ≠ JNull) as Hn2' by (by intros ->).
  destruct (contains_marker_text _ Ht1) as [b1 H1].
  destruct (contains_marker_text _ Ht2) as [b2 H2].
  rewrite (compare_values_text _ _ _ _ _ _ _ Hn1' Hn2' H1 H2).
  destruct (b1 && b2); [apply Hquiet|].
  destruct (b1 || b2); [apply Hquiet|].
  cbv zeta. case_bool_decide; [apply Hquiet|].
  apply semantic_match_calls.
Qed.

Lemma present_loop_calls oracle py_repr flat_extracted items :
  (∀ field truth_value extracted_value,
     (field, truth_value) ∈ items → flat_extracted !! field = Some extracted_value →
     comparable truth_value extracted_value = true) →
  ∀ field_results calls,
    ∃ field_results' new,
      present_loop oracle py_repr flat_extracted items field_results calls
        = (Ok field_results', calls ++ new) ∧
      length new ≤ length (filter (λ item, is_Some (flat_extracted !! item.1)) items).
Proof.
  induction items as [|[field truth_value] rest IH]; intros Hc field_results calls.
  - exists field_results, []. by rewrite app_nil_r.
  - cbn [present_loop]. unfold mbind, eval_bind, present_result.
    rewrite filter_cons. cbn [fst].
    destruct (flat_extracted !! field) as [extracted_value|] eqn:Hfield.
    + destruct (compare_values_calls oracle py_repr truth_value extracted_value calls)
        as (b & new1 & Hcmp & Hlen1).
      { apply (Hc field); [left|done]. }
      unfold mbind, eval_bind. rewrite Hcmp. cbn.
      edestruct (IH) as (fr' & new2 & Hrun & Hlen2).
      { intros f v ev Hmem. apply Hc. by right. }
      rewrite Hrun. exists fr', (new1 ++ new2).
      rewrite decide_True by done. rewrite app_assoc, length_app. cbn [length]. split; [done|lia].
    + cbn. edestruct (IH) as (fr' & new2 & Hrun & Hlen2).
      { intros f v ev Hmem. apply Hc. by right. }
      rewrite Hrun. exists fr', new2.
      rewrite decide_False by (by intros [? ?]). done.
Qed.

(** X22. A reconciliation asks the model at most once for each field that
    is in both flattened records, whatever the model answers: when the two
    records flatten and the values of the shared fields can be compared,
    [_evaluate_data] returns, and the calls it made number at most the
    fields the two flat records share. Fields of one record only cost no
    call. *)
Theorem evaluate_data_calls oracle py_repr ground_truth extracted missing_fields calls
    flat_ground_truth flat_extracted :
  flatten_dict ground_truth "" = Ok flat_ground_truth →
  flatten_dict extracted "" = Ok flat_extracted →
  (∀ field truth_value extracted_value,
     flat_ground_truth !! field = Some truth_value →
     flat_extracted !! field = Some extracted_value →
     comparable truth_value extracted_value = true) →
  ∃ out new,
    evaluate_data oracle py_repr ground_truth extracted missing_fields calls
      = (Ok out, calls ++ new) ∧
    length new ≤ size (dom flat_ground_truth ∩ dom flat_extracted).
Proof.
  intros Hgt Hex Hcmp.
  destruct (present_loop_calls oracle py_repr flat_extracted (map_to_list flat_ground_truth))
    with (field_results := (∅ : gmap string FieldResult)) (calls := calls)
    as (present & new & Hloop & Hlen).
  { intros f v ev Hmem. apply elem_of_map_to_list in Hmem. by apply Hcmp. }
  eexists _, new. split.
  { unfold evaluate_data, mbind, eval_bind, lift, mret, eval_ret.
    rewrite Hgt, Hex, Hloop. reflexivity. }
  etrans; [exact Hlen|].
  set (shared := filter (λ item : string * json, is_Some (flat_extracted !! item.1))
                        (map_to_list flat_ground_truth)).
  assert (NoDup shared.*1) as Hnd.
  { apply NoDup_fmap_fst.
    - intros k v1 v2 [_ H1]%list_elem_of_filter [_ H2]%list_elem_of_filter.
      apply elem_of_map_to_list in H1, H2. congruence.
    - apply NoDup_filter, NoDup_map_to_list. }
  rewrite <- (length_fmap fst shared).
  rewrite <- (size_list_to_set (C := gset string) shared.*1) by done.
  apply subseteq_size. intros k Hk. apply elem_of_list_to_set in Hk.
  apply list_elem_of_fmap in Hk as ([k' v] & -> & [Hex' Hmem]%list_elem_of_filter).
  apply elem_of_map_to_list in Hmem. cbn in *.
  apply elem_of_intersection. split; apply elem_of_dom; [by eexists|done].
Qed.

Lemma evaluate_data_calls_witness :
  ∃ out new,
    evaluate_data (λ _ _, Some "YES") (λ _, "")
      (JDict [("name", JStr "Jane Doe"); ("city", JStr "Leeds")])
      (JDict [("name", JStr "J. Doe"); ("phone", JStr "555-0100")]) None []
      = (Ok out, [] ++ new) ∧
    length new ≤ size (dom (flatten_dict_rec
                              (JDict [("name", JStr "Jane Doe"); ("city", JStr "Leeds")]) "")
                       ∩ dom (flatten_dict_rec
                                (JDict [("name", JStr "J. Doe"); ("phone", JStr "555-0100")])
                                "")).
Proof.
  apply (evaluate_data_calls (λ _ _, Some "YES") (λ _, "")
           (JDict [("name", JStr "Jane Doe"); ("city", JStr "Leeds")])
           (JDict [("name", JStr "J. Doe"); ("phone", JStr "555-0100")]) None []
           _ _ eq_refl eq_refl).
  intros field tv ev Htv Hev.
  assert (map_Forall (λ _ v, is_text v = true)
            (flatten_dict_rec (JDict [("name", JStr "Jane Doe"); ("city", JStr "Leeds")]) ""))
    as Hall1.
  { rewrite flatten_dict_rec_unfold. apply dict_of_items_Forall. by repeat constructor. }
  assert (map_Forall (λ _ v, is_text v = true)
            (flatten_dict_rec (JDict [("name", JStr "J. Doe"); ("phone", JStr "555-0100")]) ""))
    as Hall2.
  { rewrite flatten_dict_rec_unfold. apply dict_of_items_Forall. by repeat constructor. }
  pose proof (Hall1 field tv Htv) as H1. pose proof (Hall2 field ev Hev) as H2.
  destruct tv; try done; destruct ev; done.
Defined.

(** ** Errors the aggregator does not catch *)

Lemma aggregate_loop_app l1 l2 st :
  aggregate_loop (l1 ++ l2) st = st' ← aggregate_loop l1 st; aggregate_loop l2 st'.
Proof.
  revert st. induction l1 as [|loaded l1 IH]; intros st; [done|].
  cbn [app aggregate_loop]. destruct (aggregate_step st loaded) as [st1|e]; [|done].
  cbn [mbind result_bind]. apply IH.
Qed.

(** X7. An error the aggregator does not catch ends the aggregation. When
    the runs listed before one are passed or counted and the processing of
    that one raises whatever the running totals are (a load that fails with
    another error, a file whose root is not a dict, a metric that is not a
    number), [EvaluationAggregator.generate] raises that error: no report is
    returned for the earlier runs. *)
Theorem aggregator_generate_aborts (experiment_name : string)
    (before : list (result json)) (loaded : result json) (after : list (result json))
    (e : exn) :
  Forall (λ loaded, loaded_or_skipped loaded = true) before →
  (∀ st, aggregate_step st loaded = Raise e) →
  aggregator_generate experiment_name (before ++ loaded :: after) = Raise e.
Proof.
  intros Hbefore Hfail.
  assert (aggregate_loop (before ++ loaded :: after) (0%nat, initial_metrics_sum) = Raise e)
    as Hloop.
  { rewrite aggregate_loop_app.
    destruct (aggregate_loop_spec before Hbefore 0%nat initial_metrics_sum)
      as (metrics_sum & -> & _).
    { apply Forall_forall. intros key Hkey. rewrite initial_metrics_sum_lookup.
      by rewrite bool_decide_eq_true_2. }
    cbn [mbind result_bind aggregate_loop]. by rewrite Hfail. }
  unfold aggregator_generate.
  destruct (before ++ loaded :: after) eqn:Hl; [by destruct before|].
  by rewrite Hloop.
Qed.

Lemma aggregator_generate_aborts_witness :
  aggregator_generate "experiment_1"
    ([Ok (JDict [("metrics", JDict [("precision", JInt 1)])])]
     ++ Ok (JList []) :: [Raise FileNotFoundError]) = Raise AttributeError.
Proof.
  apply (aggregator_generate_aborts "experiment_1"
           [Ok (JDict [("metrics", JDict [("precision", JInt 1)])])]
           (Ok (JList [])) [Raise FileNotFoundError] AttributeError).
  - repeat constructor.
  - intros st. reflexivity.
Defined.

(** ** The aggregator on the evaluator's output *)

(** The four ratios the aggregator reads lie between 0 and 1. *)
Lemma calculate_metrics_in_unit field_results missing_fields :
  let m := calculate_metrics field_results missing_fields in
  in_unit (overall_accuracy m) ∧ in_unit (precision m) ∧ in_unit (recall m) ∧
  in_unit (f1_score m).
Proof.
  cbv zeta. unfold calculate_metrics.
  set (st := count_results (map_to_list field_results)).
  cbn [precision recall f1_score overall_accuracy].
  set (tp := c_true_positives st). set (fp := c_false_positives st).
  set (fn := c_false_negatives st).
  assert (in_unit (if (0 <? tp + fp)%nat then Qnat tp / Qnat (tp + fp) else 0)%Q) as Hp.
  { destruct (0 <? tp + fp)%nat eqn:H; [|apply in_unit_0].
    apply Nat.ltb_lt in H. apply Qnat_ratio_unit; lia. }
  assert (in_unit (if (0 <? tp + fn)%nat then Qnat tp / Qnat (tp + fn) else 0)%Q) as Hr.
  { destruct (0 <? tp + fn)%nat eqn:H; [|apply in_unit_0].
    apply Nat.ltb_lt in H. apply Qnat_ratio_unit; lia. }
  split_and!; try done.
  - destruct (0 <? tp + fp + fn)%nat eqn:H; [|apply in_unit_0].
    apply Nat.ltb_lt in H. apply Qnat_ratio_unit; lia.
  - destruct (Qpositive _) eqn:Hpos; [|apply in_unit_0].
    apply Qpositive_spec in Hpos. by apply harmonic_unit.
Qed.

Lemma records_metrics_counted evaluation m :
  records_metrics evaluation m →
  loaded_or_skipped (Ok evaluation) = true ∧
  ∃ metrics, counted_metrics (Ok evaluation) = Some metrics ∧
    metric_value "overall_accuracy" metrics = overall_accuracy m ∧
    metric_value "precision" metrics = precision m ∧
    metric_value "recall" metrics = recall m ∧
    metric_value "f1_score" metrics = f1_score m.
Proof.
  intros (d & metrics & -> & Hm & Ha & Hp & Hr & Hf).
  unfold loaded_or_skipped, counted_metrics, metric_value. rewrite Hm.
  destruct metrics as [|entry metrics]; [done|].
  split.
  - unfold metric_keys. cbn [forallb].
    destruct (dict_get "overall_accuracy" _) as [a|]; [|done].
    destruct (dict_get "precision" _) as [p|]; [|done].
    destruct (dict_get "recall" _) as [r|]; [|done].
    destruct (dict_get "f1_score" _) as [f|]; [|done].
    cbn in Ha, Hp, Hr, Hf. rewrite Ha, Hp, Hr, Hf. done.
  - eexists. split; [done|]. by rewrite Ha, Hp, Hr, Hf.
Qed.

Lemma sum_metric_bounds key (runs : list (list (string * json))) :
  Forall (λ metrics, in_unit (metric_value key metrics)) runs →
  (0 <= sum_metric key runs ∧ sum_metric key runs <= Qnat (length runs))%Q.
Proof.
  induction 1 as [|metrics rest [H0 H1] _ [IH0 IH1]]; cbn [sum_metric length].
  - change (Qnat 0) with 0%Q. split; lra.
  - assert (Qnat (S (length rest)) == 1 + Qnat (length rest))%Q as ->.
    { unfold Qnat. rewrite Nat2Z.inj_succ, <- Z.add_1_l, inject_Z_plus. reflexivity. }
    split; lra.
Qed.

(** X23. The aggregator on what the evaluator wrote. When at least one run
    is listed and the evaluation file of every run records the metrics
    [_calculate_metrics] computed for it, [EvaluationAggregator.generate]
    raises nothing, counts every run, and each of the four averages it
    reports lies between 0 and 1. *)
Theorem aggregator_on_evaluations (experiment_name : string)
    (runs : list (json * (gmap string FieldResult * option (list string)))) :
  runs ≠ [] →
  Forall (λ run, records_metrics run.1 (calculate_metrics run.2.1 run.2.2)) runs →
  ∃ report,
    aggregator_generate experiment_name ((λ run, Ok run.1) <$> runs) = Ok (Some report) ∧
    total_conversations report = length runs ∧
    ∀ key, key ∈ metric_keys →
      ∃ mean, aggregated_metrics report !! key = Some mean ∧ in_unit mean.
Proof.
  intros Hne Hall.
  set (conversations := (λ run : json * (gmap string FieldResult * option (list string)),
                           Ok run.1) <$> runs).
  assert (Forall (λ loaded, loaded_or_skipped loaded = true) conversations) as Hok.
  { apply Forall_fmap. eapply Forall_impl; [exact Hall|].
    intros run Hrun. by apply records_metrics_counted in Hrun as [? _]. }
  assert (length (omap counted_metrics conversations) = length runs ∧
          ∀ key, key ∈ metric_keys →
            Forall (λ metrics, in_unit (metric_value key metrics))
                   (omap counted_metrics conversations)) as [Hlen Hunit].
  { unfold conversations. clear -Hall.
    induction Hall as [|run rest Hrun _ [IHlen IHunit]]; [by split|].
    apply records_metrics_counted in Hrun as (_ & metrics & Hc & Ha & Hp & Hr & Hf).
    pose proof (calculate_metrics_in_unit run.2.1 run.2.2) as (Ua & Up & Ur & Uf).
    cbv zeta in *. rewrite fmap_cons. cbn [omap list_omap]. rewrite Hc. split.
    - cbn [length]. by rewrite IHlen.
    - intros key Hkey. constructor; [|by apply IHunit].
      unfold metric_keys in Hkey.
      repeat (apply elem_of_cons in Hkey as [->|Hkey]; [congruence|]).
      by apply elem_of_nil in Hkey. }
  destruct (aggregate_loop_spec conversations Hok 0%nat initial_metrics_sum)
    as (metrics_sum & Hrun & Hsum).
  { apply Forall_forall. intros key Hkey. rewrite initial_metrics_sum_lookup.
    by rewrite bool_decide_eq_true_2. }
  assert (0 < length runs) as Hpos by (destruct runs; [done|cbn; lia]).
  unfold aggregator_generate. fold conversations.
  destruct conversations as [|c cs] eqn:Hconv.
  { destruct runs; done. }
  rewrite Hrun. cbn [mbind result_bind Nat.add]. rewrite Hlen.
  eexists. split; [reflexivity|]. cbn [total_conversations aggregated_metrics].
  split; [done|]. intros key Hkey.
  apply Nat.ltb_lt in Hpos as Hpos'. rewrite Hpos'. rewrite lookup_fmap.
  specialize (Hsum key). rewrite initial_metrics_sum_lookup in Hsum.
  rewrite bool_decide_eq_true_2 in Hsum by done.
  destruct (metrics_sum !! key) as [q|]; [|done].
  eexists. split; [reflexivity|].
  destruct (sum_metric_bounds key _ (Hunit key Hkey)) as [H0 H1].
  rewrite Hlen in H1. pose proof (Qnat_pos _ Hpos) as HN.
  split.
  - apply Qle_shift_div_l; [done|]. lra.
  - apply Qle_shift_div_r; [done|]. lra.
Qed.

Lemma aggregator_on_evaluations_witness :
  let field_results : gmap string FieldResult :=
    {[ "name" := matched_result (JStr "Jane Doe") ]} in
  let m := calculate_metrics field_results (Some []) in
  let evaluation :=
    JDict [("metrics",
            JDict [("overall_accuracy", JFloat (overall_accuracy m));
                   ("precision", JFloat (precision m));
                   ("recall", JFloat (recall m));
                   ("f1_score", JFloat (f1_score m));
                   ("true_positives", JInt 1)]);
           ("missing_fields", JList [])] in
  ∃ report,
    aggregator_generate "experiment_1"
      ((λ run, Ok run.1) <$> [(evaluation, (field_results, Some ([] : list string)))])
      = Ok (Some report) ∧
    total_conversations report = 1 ∧
    ∀ key, key ∈ metric_keys →
      ∃ mean, aggregated_metrics report !! key = Some mean ∧ in_unit mean.
Proof.
  cbv zeta.
  apply (aggregator_on_evaluations "experiment_1"); [done|].
  constructor; [|constructor].
  eexists _, _. split_and!; reflexivity.
Defined.

(** ** The stripper as a function *)

Lemma marker_paths_dict d path :
  marker_paths (JDict d) path = marker_paths_entries path d.
Proof.
  cbn [marker_paths]. induction d as [|[k x] rest IH]; [done|].
  cbn [marker_paths_entries]. by rewrite <- IH.
Qed.

Lemma marker_paths_list l path :
  marker_paths (JList l) path = marker_paths_elements path l 0.
Proof.
  cbn [marker_paths]. generalize 0%nat.
  induction l as [|x rest IH]; intros i; [done|].
  cbn [marker_paths_elements]. by rewrite <- IH.
Qed.

Lemma is_missing_prune v : is_missing (prune v) = is_missing v.
Proof. by destruct v. Qed.

Lemma is_container_prune v : is_container (prune v) = is_container v.
Proof. by destruct v. Qed.

Lemma prune_scalar v : is_container v = false → prune v = v.
Proof. by destruct v. Qed.

Lemma marker_indices_prune l i : marker_indices (map prune l) i = marker_indices l i.
Proof.
  revert i. induction l as [|x l IH]; intros i; [done|].
  cbn [map marker_indices]. by rewrite is_missing_prune, IH.
Qed.

Lemma dict_del_head k x rest : dict_del k ((k, x) :: rest) = Ok rest.
Proof. cbn. by rewrite decide_True. Qed.

Lemma del_keys_skip keys k x rest :
  k ∉ keys →
  del_keys keys ((k, x) :: rest) = d' ← del_keys keys rest; Ok ((k, x) :: d').
Proof.
  revert rest. induction keys as [|key keys IH]; intros rest Hk; [done|].
  apply not_elem_of_cons in Hk as [Hne Hk].
  cbn [del_keys dict_del]. rewrite decide_False by done.
  destruct (dict_del key rest) as [rest'|e]; [|done]. cbn [mbind result_bind].
  by apply IH.
Qed.

Lemma del_keys_markers d :
  NoDup d.*1 →
  del_keys (marker_keys d) d = Ok (filter (λ kv, is_missing kv.2 = false) d).
Proof.
  unfold marker_keys. induction d as [|[k x] rest IH]; intros Hnd; [done|].
  cbn in Hnd. apply NoDup_cons in Hnd as [Hfresh Hnd].
  rewrite !filter_cons. cbn [snd]. destruct (is_missing x) eqn:Hx.
  - rewrite decide_True by done. rewrite decide_False by done.
    cbn [fmap list_fmap fst del_keys]. rewrite dict_del_head. cbn. by apply IH.
  - rewrite decide_False by done. rewrite decide_True by done.
    rewrite del_keys_skip.
    + by rewrite (IH Hnd).
    + intros Hin. apply Hfresh. apply list_elem_of_fmap in Hin as ([k' x'] & -> & Hin).
      apply list_elem_of_filter in Hin as [_ Hin]. apply list_elem_of_fmap. by exists (k', x').
Qed.

Lemma marker_keys_prune d :
  marker_keys (map (λ kv, (kv.1, prune kv.2)) d) = marker_keys d.
Proof.
  unfold marker_keys. induction d as [|[k x] rest IH]; [done|].
  cbn [map fst snd]. rewrite !filter_cons. cbn [snd]. rewrite is_missing_prune.
  destruct (decide (is_missing x = true)); cbn; by rewrite IH.
Qed.

Lemma scan_list_prunes path l :
  Forall (λ x, ∀ path missing_fields,
            find_missing_fields_rec x path missing_fields
              = Ok (prune x, missing_fields ++ marker_paths x path)) l →
  ∀ i missing_fields indices_to_delete,
    scan_list path l i missing_fields indices_to_delete =
      Ok (map prune l, missing_fields ++ marker_paths_elements path l i,
          indices_to_delete ++ marker_indices l i).
Proof.
  induction 1 as [|x l Hx _ IH]; intros i mf idx.
  - cbn. by rewrite !app_nil_r.
  - cbn [scan_list marker_paths_elements marker_indices map].
    fold (index_key path i).
    destruct (is_container x) eqn:Hc.
    + rewrite Hx. cbn [mbind result_bind]. rewrite IH. cbn [mbind result_bind].
      assert (is_missing x = false) as ->.
      { destruct (is_missing x) eqn:E; [|done].
        apply is_missing_not_container in E. congruence. }
      by rewrite app_assoc.
    + rewrite (prune_scalar x Hc). destruct (is_missing x).
      * rewrite IH. cbn [mbind result_bind]. by rewrite <- !app_assoc.
      * rewrite IH. cbn [mbind result_bind]. by rewrite app_nil_l.
Qed.

Lemma scan_dict_prunes path d :
  Forall (λ kv, ∀ path missing_fields,
            find_missing_fields_rec kv.2 path missing_fields
              = Ok (prune kv.2, missing_fields ++ marker_paths kv.2 path)) d →
  ∀ missing_fields keys_to_delete,
    scan_dict path d missing_fields keys_to_delete =
      Ok (map (λ kv, (kv.1, prune kv.2)) d, missing_fields ++ marker_paths_entries path d,
          keys_to_delete ++ marker_keys d).
Proof.
  unfold marker_keys.
  induction 1 as [|[k x] d Hx _ IH]; intros mf keys.
  - cbn. by rewrite !app_nil_r.
  - cbn [scan_dict marker_paths_entries map fst snd] in *. rewrite filter_cons. cbn [snd].
    destruct (is_container x) eqn:Hc.
    + rewrite Hx. cbn [mbind result_bind]. rewrite IH. cbn [mbind result_bind].
      assert (is_missing x = false) as ->.
      { destruct (is_missing x) eqn:E; [|done].
        apply is_missing_not_container in E. congruence. }
      rewrite decide_False by done. by rewrite app_assoc.
    + rewrite (prune_scalar x Hc). destruct (is_missing x).
      * rewrite IH. cbn [mbind result_bind]. rewrite decide_True by done.
        cbn. by rewrite <- !app_assoc.
      * rewrite IH. cbn [mbind result_bind]. rewrite decide_False by done.
        by rewrite app_nil_l.
Qed.

Lemma find_missing_fields_rec_prunes v :
  unique_keys v = true →
  ∀ path missing_fields,
    find_missing_fields_rec v path missing_fields
      = Ok (prune v, missing_fields ++ marker_paths v path).
Proof.
  induction v as [| | | | |l IH|d IH] using json_ind'; intros Hu path mf;
    try (by cbn; rewrite app_nil_r).
  - rewrite find_missing_fields_rec_list, marker_paths_list.
    rewrite scan_list_prunes.
    + cbn [mbind result_bind app].
      rewrite sorted_reverse_increasing by apply marker_indices_sorted.
      rewrite <- (marker_indices_prune l 0), del_indices_markers. done.
    + cbn [unique_keys] in Hu. rewrite forallb_forall in Hu.
      rewrite Forall_forall in IH. apply Forall_forall. intros x Hx.
      apply IH; [done|]. apply Hu. by apply list_elem_of_In.
  - rewrite find_missing_fields_rec_dict, marker_paths_dict.
    cbn [unique_keys] in Hu. apply andb_prop in Hu as [Hnd Hu].
    apply bool_decide_eq_true in Hnd.
    rewrite scan_dict_prunes.
    + cbn [mbind result_bind app]. rewrite <- marker_keys_prune.
      rewrite del_keys_markers; [done|].
      rewrite <- list_fmap_compose. exact Hnd.
    + rewrite forallb_forall in Hu.
      rewrite Forall_forall in IH. apply Forall_forall. intros kv Hkv.
      apply IH; [done|]. apply Hu. by apply list_elem_of_In.
Qed.

Lemma marker_free_prune v : is_missing v = false → marker_free (prune v) = true.
Proof.
  induction v as [| | | | |l IH|d IH] using json_ind'; try done; intros Hm.
  - destruct s; try done. cbn in *. by rewrite Hm.
  - clear Hm. cbn [prune marker_free]. apply forallb_forall. intros x Hx.
    apply list_elem_of_In, list_elem_of_filter in Hx as [Hmx Hx].
    apply list_elem_of_fmap in Hx as (y & -> & Hy).
    rewrite Forall_forall in IH. apply IH; [done|]. by rewrite <- is_missing_prune.
  - clear Hm. cbn [prune marker_free]. apply forallb_forall. intros kv Hkv.
    apply list_elem_of_In, list_elem_of_filter in Hkv as [Hmx Hkv].
    apply list_elem_of_fmap in Hkv as ([k y] & -> & Hy). cbn [snd] in *.
    rewrite Forall_forall in IH. apply (IH (k, y)); [done|]. by rewrite <- is_missing_prune.
Qed.

(** X8. What the stripper computes. On a record whose dicts have distinct
    keys, [_find_missing_fields] returns the record without its entries and
    elements equal to [MISSING_FIELD], at every depth, and appends their
    paths to [missing_fields] in document order; the position in a path is
    the one the element had before the deletions. *)
Theorem find_missing_fields_prunes (record : json) (path : string)
    (missing_fields : option (list string)) :
  unique_keys record = true →
  find_missing_fields record path missing_fields
    = Ok (prune record, default [] missing_fields ++ marker_paths record path).
Proof. intros Hu. unfold find_missing_fields. by apply find_missing_fields_rec_prunes. Qed.

Lemma find_missing_fields_prunes_witness :
  find_missing_fields
    (JDict [("name", JStr "Jane Doe");
            ("phones", JList [JStr MISSING_FIELD; JStr "555-0100"; JStr MISSING_FIELD]);
            ("address", JDict [("city", JStr MISSING_FIELD); ("zip", JStr "LS1")])])
    "" None
  = Ok (JDict [("name", JStr "Jane Doe"); ("phones", JList [JStr "555-0100"]);
               ("address", JDict [("zip", JStr "LS1")])],
        ["phones[0]"; "phones[2]"; "address.city"]).
Proof.
  apply (find_missing_fields_prunes
    (JDict [("name", JStr "Jane Doe");
            ("phones", JList [JStr MISSING_FIELD; JStr "555-0100"; JStr MISSING_FIELD]);
            ("address", JDict [("city", JStr MISSING_FIELD); ("zip", JStr "LS1")])])
    "" None).
  vm_compute. reflexivity.
Defined.

(** X9. Stripping twice. What [_find_missing_fields] returns for a dict or
    a list has no leaf equal to [MISSING_FIELD], and stripping it again, at
    any path, returns it unchanged and adds no path. *)
Theorem find_missing_fields_idempotent (record : json) (path path' : string)
    (missing_fields : option (list string)) stripped missing_fields' :
  unique_keys record = true → is_container record = true →
  find_missing_fields record path missing_fields = Ok (stripped, missing_fields') →
  marker_free stripped = true ∧
  find_missing_fields stripped path' (Some missing_fields') = Ok (stripped, missing_fields').
Proof.
  intros Hu Hc Hrun. unfold find_missing_fields in Hrun.
  rewrite find_missing_fields_rec_prunes in Hrun by done. injection Hrun as <- <-.
  assert (marker_free (prune record) = true) as Hfree.
  { apply marker_free_prune. destruct (is_missing record) eqn:E; [|done].
    apply is_missing_not_container in E. congruence. }
  split; [done|]. unfold find_missing_fields.
  by rewrite find_missing_fields_rec_marker_free.
Qed.

Lemma find_missing_fields_idempotent_witness :
  marker_free (JDict [("name", JStr "Jane Doe")]) = true ∧
  find_missing_fields (JDict [("name", JStr "Jane Doe")]) "" (Some ["phone"])
  = Ok (JDict [("name", JStr "Jane Doe")], ["phone"]).
Proof.
  apply (find_missing_fields_idempotent
           (JDict [("name", JStr "Jane Doe"); ("phone", JStr MISSING_FIELD)]) "" "" None
           (JDict [("name", JStr "Jane Doe")]) ["phone"]);
    vm_compute; reflexivity.
Defined.

Lemma flatten_value_marker_free v :
  marker_free v = true →
  ∀ path, Forall (λ item, is_missing item.2 = false) (flatten_value v path).
Proof.
  induction v as [| | | | |l IH|d IH] using json_ind'; intros Hfree path;
    try (repeat constructor; done).
  - repeat constructor. by apply marker_free_not_missing.
  - cbn [flatten_value]. cbn [marker_free] in Hfree. generalize 0%nat.
    induction IH as [|item l Hitem _ IHl]; intros i; [constructor|].
    cbn [forallb] in Hfree. apply andb_prop in Hfree as [Hfi Hfl].
    cbn [flatten_elements]. apply Forall_app. split; [|by apply IHl].
    destruct item; try (repeat constructor; done).
    + repeat constructor. by apply marker_free_not_missing.
    + by apply (Hitem Hfi).
  - cbn [flatten_value]. rewrite flatten_dict_rec_unfold.
    apply Forall_forall. intros [k x] Hmem%elem_of_map_to_list.
    revert k x Hmem. apply (dict_of_items_Forall (λ leaf, is_missing leaf = false)).
    cbn [marker_free] in Hfree. unfold flatten_items.
    induction IH as [|[k x] d Hx _ IHd]; [constructor|].
    cbn [forallb snd] in Hfree, Hx. apply andb_prop in Hfree as [Hfx Hfd].
    cbn [map concat]. apply Forall_app. split; [|by apply IHd].
    rewrite flatten_entry_value. by apply Hx.
Qed.

Lemma flatten_dict_rec_marker_free v parent_key :
  marker_free v = true →
  map_Forall (λ _ leaf, is_missing leaf = false) (flatten_dict_rec v parent_key).
Proof.
  intros Hfree. destruct v; try (intros k x Hk; cbn in Hk; by rewrite lookup_empty in Hk).
  intros k x Hk. apply elem_of_map_to_list in Hk.
  pose proof (flatten_value_marker_free (JDict d) Hfree parent_key) as Hall.
  cbn [flatten_value] in Hall. rewrite Forall_forall in Hall. exact (Hall (k, x) Hk).
Qed.

(** X10. [Evaluator.generate] scores the ground truth without its marker
    fields. Their paths are the [missing_fields] of the evaluation and
    [missing_fields_count] is their number; every present result is a field
    of the flattened stripped ground truth, and its ground-truth value is
    never the marker. *)
Theorem evaluator_generate_drops_markers oracle py_repr record extracted calls
    flat_ground_truth flat_extracted :
  unique_keys record = true →
  flatten_dict (prune record) "" = Ok flat_ground_truth →
  flatten_dict extracted "" = Ok flat_extracted →
  (∀ field truth_value extracted_value,
     flat_ground_truth !! field = Some truth_value →
     flat_extracted !! field = Some extracted_value →
     comparable truth_value extracted_value = true) →
  ∃ out calls',
    evaluator_generate oracle py_repr record extracted calls = (Ok out, calls') ∧
    ev_missing_fields out = marker_paths record "" ∧
    missing_fields_count (ev_metrics out) = length (marker_paths record "") ∧
    (∀ field r,
       ev_field_results out !! field = Some r → category r = "present" →
       flat_ground_truth !! field = Some (ground_truth r) ∧
       is_missing (ground_truth r) = false).
Proof.
  intros Hu Hgt Hex Hcmp.
  destruct (present_loop_returns oracle py_repr flat_extracted (map_to_list flat_ground_truth))
    with (field_results := (∅ : gmap string FieldResult)) (calls := calls)
    as (present & calls' & Hloop).
  { intros f v ev Hmem. apply elem_of_map_to_list in Hmem. by apply Hcmp. }
  assert (∃ out, evaluate_data oracle py_repr (prune record) extracted
                   (Some (marker_paths record "")) calls = (Ok out, calls'))
    as [out Hrun].
  { unfold evaluate_data, mbind, eval_bind, lift, mret, eval_ret.
    rewrite Hgt, Hex, Hloop. by eexists. }
  exists out, calls'. split.
  { unfold evaluator_generate, mbind, eval_bind, lift, find_missing_fields.
    rewrite find_missing_fields_rec_prunes by done. exact Hrun. }
  assert (marker_free (prune record) = true) as Hfree.
  { apply marker_free_prune. destruct record; try done. }
  destruct (evaluate_data_returned oracle py_repr _ _ _ _ _ _ Hrun)
    as (_ & _ & _ & _ & _ & _ & _ & _ & Hmetrics).
  split_and!.
  - unfold evaluate_data, mbind, eval_bind, lift, mret, eval_ret in Hrun.
    rewrite Hgt, Hex, Hloop in Hrun. by injection Hrun as <-.
  - by rewrite Hmetrics.
  - intros field r Hr Hcat.
    pose proof (evaluate_data_lookup oracle py_repr _ _ _ _ _ _ _ _ field Hrun Hgt Hex)
      as Hlook.
    destruct (flat_ground_truth !! field) as [tv|] eqn:Hfield.
    + destruct Hlook as (r' & Hr' & Hg & _). rewrite Hr in Hr'. injection Hr' as <-.
      rewrite Hg. split; [done|].
      destruct (prune record) as [| | | | | |d] eqn:Hp; try done.
      injection Hgt as <-.
      by apply (flatten_dict_rec_marker_free (JDict d) "" Hfree field tv).
    + destruct (flat_extracted !! field) as [ev|]; [|congruence].
      rewrite Hlook in Hr. injection Hr as <-. unfold extra_result in Hcat.
      by destruct (is_missing ev).
Qed.

Lemma evaluator_generate_drops_markers_witness :
  ∃ out calls',
    evaluator_generate (λ _ _, Some "NO") (λ _, "")
      (JDict [("name", JStr "Jane Doe"); ("phone", JStr MISSING_FIELD)])
      (JDict [("name", JStr "jane doe"); ("phone", JStr MISSING_FIELD)]) []
      = (Ok out, calls') ∧
    ev_missing_fields out = ["phone"].
Proof.
  destruct (evaluator_generate_drops_markers (λ _ _, Some "NO") (λ _, "")
              (JDict [("name", JStr "Jane Doe"); ("phone", JStr MISSING_FIELD)])
              (JDict [("name", JStr "jane doe"); ("phone", JStr MISSING_FIELD)]) []
              (flatten_dict_rec (JDict [("name", JStr "Jane Doe")]) "")
              (flatten_dict_rec
                 (JDict [("name", JStr "jane doe"); ("phone", JStr MISSING_FIELD)]) ""))
    as (out & calls' & Hrun & Hmf & _).
  - vm_compute. reflexivity.
  - reflexivity.
  - reflexivity.
  - intros field tv ev Htv Hev.
    assert (map_Forall (λ _ v, is_text v = true)
              (flatten_dict_rec (JDict [("name", JStr "Jane Doe")]) "")) as Hall1.
    { rewrite flatten_dict_rec_unfold. apply dict_of_items_Forall. by repeat constructor. }
    assert (map_Forall (λ _ v, is_text v = true)
              (flatten_dict_rec
                 (JDict [("name", JStr "jane doe"); ("phone", JStr MISSING_FIELD)]) ""))
      as Hall2.
    { rewrite flatten_dict_rec_unfold. apply dict_of_items_Forall. by repeat constructor. }
    pose proof (Hall1 field tv Htv) as H1. pose proof (Hall2 field ev Hev) as H2.
    destruct tv; try done; destruct ev; done.
  - exists out, calls'. split; [exact Hrun|exact Hmf].
Defined.

(** ** Flattening twice *)

Lemma flatten_items_flat (items : list (string * json)) :
  Forall (λ item, is_container item.2 = false) items →
  flatten_items "" items = items.
Proof.
  unfold flatten_items. induction 1 as [|[k v] items Hv _ IH]; [done|].
  cbn [map concat]. rewrite IH. cbn [snd] in Hv. by destruct v.
Qed.

(** Without a list inside a list, every leaf the flattener records is a
    scalar. *)
Lemma flatten_value_leaves v :
  no_seq_in_seq v = true →
  ∀ path, Forall (λ item, is_container item.2 = false) (flatten_value v path).
Proof.
  induction v as [| | | | |l IH|d IH] using json_ind'; intros Hns path;
    try (repeat constructor; done).
  - cbn [flatten_value]. cbn [no_seq_in_seq] in Hns. generalize 0%nat.
    induction IH as [|item l Hitem _ IHl]; intros i; [constructor|].
    cbn [forallb] in Hns. apply andb_prop in Hns as [Hi Hl].
    apply andb_prop in Hi as [Hnl Hnsi].
    cbn [flatten_elements]. apply Forall_app. split; [|by apply IHl].
    destruct item; try (repeat constructor; done). by apply (Hitem Hnsi).
  - cbn [flatten_value]. rewrite flatten_dict_rec_unfold.
    apply Forall_forall. intros [k x] Hmem%elem_of_map_to_list.
    revert k x Hmem. apply (dict_of_items_Forall (λ leaf, is_container leaf = false)).
    cbn [no_seq_in_seq] in Hns. unfold flatten_items.
    induction IH as [|[k x] d Hx _ IHd]; [constructor|].
    cbn [forallb snd] in Hns, Hx. apply andb_prop in Hns as [Hnsx Hnsd].
    cbn [map concat]. apply Forall_app. split; [|by apply IHd].
    rewrite flatten_entry_value. by apply Hx.
Qed.

Lemma dict_of_items_NoDup {A} (items : list (string * A)) :
  NoDup items.*1 → dict_of_items items = list_to_map items.
Proof.
  intros Hnd. unfold dict_of_items. apply list_to_map_proper.
  - by rewrite fmap_reverse, reverse_Permutation.
  - apply reverse_Permutation.
Qed.

(** X11. Flattening a flat record changes nothing. The flat map of a
    record with no list directly inside a list, written back as a dict with
    the paths as keys, flattens to itself: a key is kept as it is, dots and
    brackets included. *)
Theorem flatten_dict_idempotent (record : json) (parent_key : string)
    (flat : gmap string json) (items : list (string * json)) :
  no_seq_in_seq record = true →
  flatten_dict record parent_key = Ok flat →
  NoDup items.*1 → list_to_map items = flat →
  flatten_dict (JDict items) "" = Ok flat.
Proof.
  intros Hns Hflat Hnd Hitems.
  assert (map_Forall (λ _ leaf, is_container leaf = false) flat) as Hleaves.
  { destruct record as [| | | | | |d]; try done. unfold flatten_dict in Hflat.
    assert (flat = flatten_dict_rec (JDict d) parent_key) as -> by congruence.
    intros k x Hk. apply elem_of_map_to_list in Hk.
    pose proof (flatten_value_leaves (JDict d) Hns parent_key) as Hall.
    cbn [flatten_value] in Hall. rewrite Forall_forall in Hall. exact (Hall (k, x) Hk). }
  unfold flatten_dict. f_equal. rewrite flatten_dict_rec_unfold, flatten_items_flat.
  - by rewrite dict_of_items_NoDup.
  - apply Forall_forall. intros [k v] Hkv. apply (Hleaves k). rewrite <- Hitems.
    by apply elem_of_list_to_map_1.
Qed.

Lemma flatten_dict_idempotent_witness :
  flatten_dict (JDict [("address.city", JStr "Leeds"); ("tags[0]", JStr "a")]) "" =
  Ok (flatten_dict_rec
        (JDict [("address", JDict [("city", JStr "Leeds")]); ("tags", JList [JStr "a"])]) "").
Proof.
  apply (flatten_dict_idempotent
           (JDict [("address", JDict [("city", JStr "Leeds")]); ("tags", JList [JStr "a"])])
           "" _ [("address.city", JStr "Leeds"); ("tags[0]", JStr "a")]).
  - reflexivity.
  - reflexivity.
  - by apply (bool_decide_unpack _).
  - vm_compute. reflexivity.
Defined.

(** ** The strippers on the store, for any loaded or copied record *)

(** Looking behind two segments of a store. *)
Lemma lookup_behind {A} (front middle back : list A) off :
  (front ++ middle ++ back) !! (length front + length middle + off) = back !! off.
Proof.
  rewrite lookup_app_r by lia. rewrite lookup_app_r by lia. f_equal. lia.
Qed.

Lemma insert_behind {A} (front middle back : list A) off x :
  <[length front + length middle + off := x]> (front ++ middle ++ back) =
  front ++ middle ++ <[off := x]> back.
Proof.
  rewrite insert_app_r_alt by lia. f_equal.
  rewrite insert_app_r_alt by lia. do 2 f_equal. lia.
Qed.

(** The object of a container, before or behind the objects of its items. *)
Lemma length_place o parent items : length (place o parent items) = S (length items).
Proof. destruct o; cbn; [rewrite length_app; cbn; lia|done]. Qed.

Lemma place_split o pre parent items post :
  pre ++ place o parent items ++ post
  = front_of o pre parent ++ items ++ back_of o parent post.
Proof. destruct o; cbn; by rewrite <- ?app_assoc. Qed.

Lemma length_front_of o pre parent : length (front_of o pre parent) = inner o (length pre).
Proof. destruct o; cbn; [done|]. rewrite length_app. cbn. lia. Qed.

Lemma lookup_parent o pre parent items post :
  (front_of o pre parent ++ items ++ back_of o parent post)
    !! root_loc o (length pre) (length items) = Some parent.
Proof.
  destruct o; cbn.
  - rewrite <- (Nat.add_0_r (_ + _)). by rewrite lookup_behind.
  - rewrite <- app_assoc. cbn [app]. by apply list_lookup_middle.
Qed.

Lemma insert_parent o pre parent parent' items post :
  <[root_loc o (length pre) (length items) := parent']>
    (front_of o pre parent ++ items ++ back_of o parent post)
  = front_of o pre parent' ++ items ++ back_of o parent' post.
Proof.
  destruct o; cbn.
  - rewrite <- (Nat.add_0_r (_ + _)). by rewrite insert_behind.
  - rewrite <- !app_assoc. cbn [app]. rewrite insert_app_r_alt by lia.
    by rewrite Nat.sub_diag.
Qed.

Section Placement.
Variable o : placement.

Lemma layout_list base l :
  layout o base (JList l)
  = place o (Store.OList (roots o (inner o base) l)) (layouts o (inner o base) l).
Proof.
  cbn [layout]. generalize (inner o base). intros b.
  f_equal; [f_equal|]; revert b;
    induction l as [|x rest IH]; intros b; cbn; by rewrite ?IH.
Qed.

Lemma layout_dict base d :
  layout o base (JDict d)
  = place o (Store.ODict (entry_roots o (inner o base) d)) (layouts o (inner o base) d.*2).
Proof.
  cbn [layout]. generalize (inner o base). intros b.
  f_equal; [f_equal|]; revert b;
    induction d as [|[k x] rest IH]; intros b; cbn; by rewrite ?IH.
Qed.

Lemma objects_list l : objects (JList l) = S (list_sum (map objects l)).
Proof. done. Qed.

Lemma objects_dict d : objects (JDict d) = S (list_sum (map objects d.*2)).
Proof. cbn [objects]. do 2 f_equal. induction d as [|[k x] d IH]; [done|]. cbn. by rewrite IH. Qed.

Lemma length_layouts_list (l : list json) :
  Forall (λ x, ∀ base, length (layout o base x) = objects x) l →
  ∀ base, length (layouts o base l) = list_sum (map objects l).
Proof.
  induction 1 as [|x rest Hx _ IH]; intros base; [done|].
  cbn [layouts map list_sum]. by rewrite length_app, Hx, IH.
Qed.

Lemma length_layout v base : length (layout o base v) = objects v.
Proof.
  revert base. induction v as [| | | | |l IH|d IH] using json_ind'; intros base; try done.
  - by rewrite layout_list, objects_list, length_place, length_layouts_list.
  - rewrite layout_dict, objects_dict, length_place, length_layouts_list; [done|].
    apply Forall_fmap. exact IH.
Qed.

Lemma length_layouts l base : length (layouts o base l) = list_sum (map objects l).
Proof. apply length_layouts_list, Forall_forall. intros x _ b. apply length_layout. Qed.

Lemma is_container_root base x : Store.is_container (root o base x) = is_container x.
Proof. by destruct x. Qed.

Lemma is_missing_root base x : Store.is_missing (root o base x) = is_missing x.
Proof. by destruct x. Qed.

Lemma scalar_layout base x : is_container x = false → layout o base x = [] ∧ objects x = 0.
Proof. by destruct x. Qed.

Lemma scalar_root base base' x : is_container x = false → root o base x = root o base' x.
Proof. by destruct x. Qed.

Lemma missing_scalar x : is_missing x = true → is_container x = false.
Proof. apply is_missing_not_container. Qed.

Lemma list_sum_cons a l : list_sum (a :: l) = a + list_sum l.
Proof. done. Qed.

Lemma list_sum_objects_filter (l : list json) :
  list_sum (map objects (filter (λ x, is_missing x = false) l)) = list_sum (map objects l).
Proof.
  induction l as [|x l IH]; [done|]. rewrite filter_cons.
  destruct (decide (is_missing x = false)) as [Hx|Hx]; cbn [map];
    rewrite ?list_sum_cons, IH; [done|].
  apply not_false_is_true, missing_scalar in Hx. by destruct (scalar_layout 0 x Hx) as [_ ->].
Qed.

Lemma objects_prune v : objects (prune v) = objects v.
Proof.
  induction v as [| | | | |l IH|d IH] using json_ind'; try done.
  - cbn [prune]. rewrite !objects_list, list_sum_objects_filter. do 2 f_equal.
    induction IH as [|x l Hx _ IHl]; [done|]. cbn [map]. by rewrite Hx, IHl.
  - cbn [prune]. rewrite !objects_dict. f_equal.
    induction IH as [|[k x] d Hx _ IHd]; [done|]. cbn [map fst snd]. rewrite filter_cons.
    cbn [snd] in *. rewrite is_missing_prune.
    destruct (decide (is_missing x = false)) as [Hm|Hm]; cbn [map fst snd fmap list_fmap];
      rewrite ?list_sum_cons, IHd; [by rewrite Hx|].
    apply not_false_is_true, missing_scalar in Hm. by destruct (scalar_layout 0 x Hm) as [_ ->].
Qed.

Lemma root_prune base v : root o base (prune v) = root o base v.
Proof.
  pose proof (objects_prune v) as H.
  destruct v; try done; cbn [prune] in *; unfold root; by rewrite H.
Qed.

Lemma roots_prune base l : roots o base (map prune l) = roots o base l.
Proof.
  revert base. induction l as [|x l IH]; intros base; [done|].
  cbn [map roots]. by rewrite root_prune, objects_prune, IH.
Qed.

Lemma entry_roots_prune base d :
  entry_roots o base (map (λ kv, (kv.1, prune kv.2)) d) = entry_roots o base d.
Proof.
  revert base. induction d as [|[k x] d IH]; intros base; [done|].
  cbn [map entry_roots fst snd]. by rewrite root_prune, objects_prune, IH.
Qed.

Lemma layouts_filter base l :
  layouts o base (filter (λ x, is_missing x = false) l) = layouts o base l.
Proof.
  revert base. induction l as [|x l IH]; intros base; [done|]. rewrite filter_cons.
  destruct (decide (is_missing x = false)) as [Hx|Hx]; cbn [layouts]; rewrite IH; [done|].
  apply not_false_is_true, missing_scalar in Hx.
  destruct (scalar_layout base x Hx) as [-> ->]. by rewrite Nat.add_0_r.
Qed.

Lemma roots_filter base l :
  roots o base (filter (λ x, is_missing x = false) l) =
  filter (λ v, Store.is_missing v = false) (roots o base l).
Proof.
  revert base. induction l as [|x l IH]; intros base; [done|].
  cbn [roots]. rewrite !filter_cons, is_missing_root.
  destruct (decide (is_missing x = false)) as [Hx|Hx]; cbn [roots]; rewrite IH; [done|].
  apply not_false_is_true, missing_scalar in Hx.
  destruct (scalar_layout base x Hx) as [_ ->]. by rewrite Nat.add_0_r.
Qed.

Lemma layouts_filter_entries base (d : list (string * json)) :
  layouts o base (filter (λ kv, is_missing kv.2 = false) d).*2 = layouts o base d.*2.
Proof.
  revert base. induction d as [|[k x] d IH]; intros base; [done|]. rewrite filter_cons.
  cbn [snd].
  destruct (decide (is_missing x = false)) as [Hx|Hx]; cbn [layouts fmap list_fmap snd];
    rewrite IH; [done|].
  apply not_false_is_true, missing_scalar in Hx.
  destruct (scalar_layout base x Hx) as [-> ->]. by rewrite Nat.add_0_r.
Qed.

Lemma entry_roots_filter base (d : list (string * json)) :
  entry_roots o base (filter (λ kv, is_missing kv.2 = false) d) =
  filter (λ kv, Store.is_missing kv.2 = false) (entry_roots o base d).
Proof.
  revert base. induction d as [|[k x] d IH]; intros base; [done|].
  cbn [entry_roots]. rewrite !filter_cons. cbn [snd]. rewrite is_missing_root.
  destruct (decide (is_missing x = false)) as [Hx|Hx]; cbn [entry_roots]; rewrite IH; [done|].
  apply not_false_is_true, missing_scalar in Hx.
  destruct (scalar_layout base x Hx) as [_ ->]. by rewrite Nat.add_0_r.
Qed.

Lemma fmap_snd_prune (d : list (string * json)) :
  (map (λ kv, (kv.1, prune kv.2)) d).*2 = map prune d.*2.
Proof. induction d as [|[k x] d IH]; [done|]. cbn. by rewrite <- IH. Qed.

Lemma layout_prune_list base l :
  layout o base (prune (JList l)) =
  place o (Store.OList (filter (λ v, Store.is_missing v = false)
                               (roots o (inner o base) l)))
          (layouts o (inner o base) (map prune l)).
Proof.
  cbn [prune]. by rewrite layout_list, layouts_filter, roots_filter, roots_prune.
Qed.

Lemma layout_prune_dict base d :
  layout o base (prune (JDict d)) =
  place o (Store.ODict (filter (λ kv, Store.is_missing kv.2 = false)
                               (entry_roots o (inner o base) d)))
          (layouts o (inner o base) (map prune d.*2)).
Proof.
  cbn [prune].
  by rewrite layout_dict, layouts_filter_entries, entry_roots_filter, entry_roots_prune,
    fmap_snd_prune.
Qed.

Lemma length_roots base l : length (roots o base l) = length l.
Proof. revert base. induction l as [|x l IH]; intros base; [done|]. cbn. by rewrite IH. Qed.

Lemma roots_app base l1 l2 :
  roots o base (l1 ++ l2) = roots o base l1 ++ roots o (base + list_sum (map objects l1)) l2.
Proof.
  revert base. induction l1 as [|x l1 IH]; intros base.
  - cbn. by rewrite Nat.add_0_r.
  - cbn [app roots map]. rewrite list_sum_cons, IH. by rewrite Nat.add_assoc.
Qed.

Lemma length_layouts_prune base l :
  length (layouts o base (map prune l)) = length (layouts o base l).
Proof.
  rewrite !length_layouts. f_equal. induction l as [|x l IH]; [done|].
  cbn [map]. by rewrite objects_prune, IH.
Qed.

(** *** Deleting the markers of an object in the store *)

Lemma list_delitems_markers l :
  ∀ base tail (st : list Store.object) l0,
    st !! l0 = Some (Store.OList (roots o base l ++ tail)) →
    Store.list_delitems st l0 (reverse (marker_indices l 0)) =
      Some (<[l0 := Store.OList (filter (λ v, Store.is_missing v = false) (roots o base l)
                                 ++ tail)]> st).
Proof.
  induction l as [|x l IH] using rev_ind; intros base tail st l0 Hlook.
  - cbn. f_equal. symmetry. by apply list_insert_id.
  - rewrite marker_indices_app. cbn [marker_indices Nat.add].
    rewrite roots_app in *. cbn [roots] in *. rewrite filter_app, filter_cons, filter_nil.
    rewrite is_missing_root. rewrite <- app_assoc in Hlook. cbn [app] in Hlook.
    destruct (is_missing x) eqn:Hx.
    + rewrite reverse_app, reverse_singleton. cbn [app Store.list_delitems].
      unfold Store.list_delitem, Store.store, Store.loc in *. rewrite Hlook.
      rewrite decide_True by (rewrite length_app, length_roots; cbn; lia).
      cbn [mbind option_bind].
      replace (delete (length l) (roots o base l ++ root o _ x :: tail))
        with (roots o base l ++ tail).
      2:{ rewrite <- (length_roots base l) at 1. by rewrite delete_middle. }
      rewrite (IH base tail).
      * rewrite list_insert_insert_eq. rewrite decide_False by done. by rewrite app_nil_r.
      * apply list_lookup_insert_eq. by eapply lookup_lt_Some.
    + rewrite app_nil_r. rewrite decide_True by done.
      rewrite (IH base (root o (base + list_sum (map objects l)) x :: tail) st l0 Hlook).
      by rewrite <- app_assoc.
Qed.

Lemma remove_key_fresh key value (front rest : list (string * Store.value)) :
  key ∉ front.*1 →
  Store.remove_key key (front ++ (key, value) :: rest) = Some (front ++ rest).
Proof.
  induction front as [|[k v] front IH]; intros Hfresh.
  - cbn. by rewrite decide_True.
  - cbn in Hfresh. apply not_elem_of_cons in Hfresh as [Hne Hfresh].
    cbn [app Store.remove_key]. rewrite decide_False by done. by rewrite IH.
Qed.

Lemma fmap_fst_entry_roots base d : (entry_roots o base d).*1 = d.*1.
Proof. revert base. induction d as [|[k x] d IH]; intros base; [done|]. cbn. by rewrite IH. Qed.

Lemma dict_delitems_markers d :
  ∀ base (front : list (string * Store.value)) (st : list Store.object) l0,
    NoDup (front.*1 ++ d.*1) →
    st !! l0 = Some (Store.ODict (front ++ entry_roots o base d)) →
    Store.dict_delitems st l0 (marker_keys d) =
      Some (<[l0 := Store.ODict
                      (front ++ filter (λ kv, Store.is_missing kv.2 = false)
                                       (entry_roots o base d))]> st).
Proof.
  unfold marker_keys.
  induction d as [|[k x] d IH]; intros base front st l0 Hnd Hlook.
  - cbn. f_equal. symmetry. by apply list_insert_id.
  - cbn [entry_roots] in *. rewrite !filter_cons. cbn [snd]. rewrite is_missing_root.
    destruct (is_missing x) eqn:Hx.
    + rewrite decide_True by done. rewrite decide_False by done.
      cbn [fmap list_fmap fst Store.dict_delitems].
      unfold Store.dict_delitem, Store.store, Store.loc in *. rewrite Hlook. rewrite remove_key_fresh.
      2:{ cbn in Hnd. apply NoDup_app in Hnd as (_ & Hnd & _).
          intros Hin. apply (Hnd k Hin). by left. }
      cbn [mbind option_bind].
      destruct (scalar_layout base x (missing_scalar x Hx)) as [_ Hobj].
      rewrite Hobj, Nat.add_0_r in *.
      rewrite (IH base front).
      * by rewrite list_insert_insert_eq.
      * cbn in Hnd. apply NoDup_app in Hnd as (Hf & Hdisj & Hd).
        apply NoDup_cons in Hd as [_ Hd]. apply NoDup_app. split_and!; try done.
        intros y Hy Hy'. apply (Hdisj y Hy). by right.
      * apply list_lookup_insert_eq. by eapply lookup_lt_Some.
    + rewrite decide_False by done. rewrite decide_True by done.
      rewrite (IH (base + objects x) (front ++ [(k, root o base x)]) st l0).
      * by rewrite <- app_assoc.
      * rewrite fmap_app. cbn. rewrite <- app_assoc. exact Hnd.
      * by rewrite <- app_assoc.
Qed.

(** *** The evaluator's stripper on the objects of a document *)

Lemma drop_cons_lookup {A} i (l : list A) x rest :
  drop i l = x :: rest → l !! i = Some x ∧ i < length l ∧ drop (S i) l = rest.
Proof.
  intros Hdrop.
  assert (l !! i = Some x) as Hx.
  { rewrite <- (Nat.add_0_r i), <- lookup_drop, Hdrop. done. }
  split_and!; [done|by eapply lookup_lt_Some|].
  replace (S i) with (i + 1) by lia. by rewrite <- drop_drop, Hdrop.
Qed.

Lemma evaluator_scan_list_sim find l0 path (all_items : list Store.value)
    (back : list Store.object) :
  ∀ rest,
    Forall (λ x, is_container x = true →
              ∀ pre post path mf,
                find (pre ++ layout o (length pre) x ++ post) (root o (length pre) x) path mf
                = Some (root o (length pre) x, pre ++ layout o (length pre) (prune x) ++ post,
                        mf ++ marker_paths x path)) rest →
    ∀ i front mf idx,
      (∀ middle, length middle = length (layouts o (length front) rest) →
                 (front ++ middle ++ back) !! l0 = Some (Store.OList all_items)) →
      drop i all_items = roots o (length front) rest →
      Store.evaluator_scan_list find l0 path (roots o (length front) rest) i
        (front ++ layouts o (length front) rest ++ back) mf idx
      = Some (front ++ layouts o (length front) (map prune rest) ++ back,
              mf ++ marker_paths_elements path rest i, idx ++ marker_indices rest i).
Proof.
  intros rest Hfind.
  induction Hfind as [|x rest Hx _ IH]; intros i front mf idx Hparent Hdrop.
  - cbn. by rewrite !app_nil_r.
  - cbn [roots layouts map marker_paths_elements marker_indices Store.evaluator_scan_list]
      in *.
    apply drop_cons_lookup in Hdrop as (Hitem & Hi & Hdrop).
    rewrite is_container_root, is_missing_root.
    destruct (is_container x) eqn:Hc.
    + rewrite <- (app_assoc (layout o (length front) x)).
      fold (index_key path i). rewrite (Hx eq_refl). cbn [mbind option_bind].
      assert (is_missing x = false) as Hm.
      { destruct (is_missing x) eqn:E; [|done]. apply missing_scalar in E. congruence. }
      rewrite Hm.
      set (front' := front ++ layout o (length front) (prune x)).
      assert (length front' = length front + objects x) as Hlen.
      { unfold front'. by rewrite length_app, length_layout, objects_prune. }
      assert (∀ middle, length middle = length (layouts o (length front') rest) →
                (front' ++ middle ++ back) !! l0 = Some (Store.OList all_items))
        as Hparent'.
      { intros middle Hmiddle. unfold front'. rewrite <- app_assoc, (app_assoc _ middle back).
        apply Hparent.
        by rewrite !length_app, !length_layout, objects_prune, Hmiddle, !length_layouts. }
      assert (front ++ layout o (length front) (prune x)
                ++ layouts o (length front + objects x) rest ++ back
              = front' ++ layouts o (length front') rest ++ back) as ->.
      { rewrite <- Hlen. unfold front'. by rewrite <- app_assoc. }
      unfold Store.list_setitem, Store.store, Store.loc in *.
      rewrite (Hparent' _ eq_refl).
      rewrite decide_True by done. cbn [mbind option_bind].
      rewrite (list_insert_id all_items i) by done.
      rewrite (list_insert_id _ l0) by apply (Hparent' _ eq_refl).
      rewrite <- Hlen in Hdrop. rewrite objects_prune, <- Hlen.
      rewrite (IH (S i) front' _ idx Hparent' Hdrop). unfold front'.
      by rewrite <- !app_assoc.
    + destruct (scalar_layout (length front) x Hc) as [Hlay Hobj].
      rewrite (prune_scalar x Hc).
      rewrite Hlay, Hobj, Nat.add_0_r in *. cbn [app] in *. fold (index_key path i).
      destruct (is_missing x).
      * rewrite (IH (S i) front _ _ Hparent Hdrop). by rewrite <- !app_assoc.
      * by rewrite (IH (S i) front _ _ Hparent Hdrop).
Qed.

Lemma setitem_same key value (entries : list (string * Store.value)) :
  NoDup entries.*1 → (key, value) ∈ entries →
  map (λ kv, if decide (kv.1 = key) then (key, value) else kv) entries = entries.
Proof.
  induction entries as [|[k v] entries IH]; intros Hnd Hin; [done|].
  cbn in Hnd. apply NoDup_cons in Hnd as [Hfresh Hnd]. cbn [map fst].
  destruct (decide (k = key)) as [->|Hne].
  - apply elem_of_cons in Hin as [[= ->]|Hin].
    + f_equal. clear IH Hnd. induction entries as [|[k' v'] entries IH]; [done|].
      cbn in Hfresh. apply not_elem_of_cons in Hfresh as [Hne Hfresh].
      cbn [map fst]. rewrite decide_False by done. by rewrite IH.
    + exfalso. apply Hfresh. apply list_elem_of_fmap. by exists (key, value).
  - apply elem_of_cons in Hin as [[= -> ->]|Hin]; [done|]. by rewrite IH.
Qed.

Lemma evaluator_scan_dict_sim find l0 path (all_entries : list (string * Store.value))
    (back : list Store.object) :
  NoDup all_entries.*1 →
  ∀ rest,
    Forall (λ kv, is_container kv.2 = true →
              ∀ pre post path mf,
                find (pre ++ layout o (length pre) kv.2 ++ post) (root o (length pre) kv.2)
                     path mf
                = Some (root o (length pre) kv.2,
                        pre ++ layout o (length pre) (prune kv.2) ++ post,
                        mf ++ marker_paths kv.2 path)) rest →
    ∀ front mf keys,
      (∀ middle, length middle = length (layouts o (length front) rest.*2) →
                 (front ++ middle ++ back) !! l0 = Some (Store.ODict all_entries)) →
      (∀ e, e ∈ entry_roots o (length front) rest → e ∈ all_entries) →
      Store.evaluator_scan_dict find l0 path (entry_roots o (length front) rest)
        (front ++ layouts o (length front) rest.*2 ++ back) mf keys
      = Some (front ++ layouts o (length front) (map prune rest.*2) ++ back,
              mf ++ marker_paths_entries path rest, keys ++ marker_keys rest).
Proof.
  intros Hnd rest Hfind. unfold marker_keys.
  induction Hfind as [|[k x] rest Hx _ IH]; intros front mf keys Hparent Hsub.
  - cbn. by rewrite !app_nil_r.
  - cbn [entry_roots layouts map marker_paths_entries Store.evaluator_scan_dict
         fmap list_fmap fst snd] in *.
    rewrite filter_cons. cbn [snd].
    rewrite is_container_root, is_missing_root.
    assert (∀ e, e ∈ entry_roots o (length front + objects x) rest → e ∈ all_entries)
      as Hsub' by (intros e He; apply Hsub; by right).
    destruct (is_container x) eqn:Hc.
    + rewrite <- (app_assoc (layout o (length front) x)).
      rewrite (Hx eq_refl). cbn [mbind option_bind].
      assert (is_missing x = false) as Hm.
      { destruct (is_missing x) eqn:E; [|done]. apply missing_scalar in E. congruence. }
      rewrite Hm. rewrite decide_False by done.
      set (front' := front ++ layout o (length front) (prune x)).
      assert (length front' = length front + objects x) as Hlen.
      { unfold front'. by rewrite length_app, length_layout, objects_prune. }
      assert (∀ middle, length middle = length (layouts o (length front') rest.*2) →
                (front' ++ middle ++ back) !! l0 = Some (Store.ODict all_entries))
        as Hparent'.
      { intros middle Hmiddle. unfold front'. rewrite <- app_assoc, (app_assoc _ middle back).
        apply Hparent.
        by rewrite !length_app, !length_layout, objects_prune, Hmiddle, !length_layouts. }
      assert (front ++ layout o (length front) (prune x)
                ++ layouts o (length front + objects x) rest.*2 ++ back
              = front' ++ layouts o (length front') rest.*2 ++ back) as ->.
      { rewrite <- Hlen. unfold front'. by rewrite <- app_assoc. }
      unfold Store.dict_setitem, Store.store, Store.loc in *.
      rewrite (Hparent' _ eq_refl).
      rewrite setitem_same by (try done; apply Hsub; by left).
      rewrite (list_insert_id _ l0) by apply (Hparent' _ eq_refl).
      cbn [mbind option_bind].
      rewrite <- Hlen in Hsub'. rewrite objects_prune, <- Hlen.
      rewrite (IH front' _ keys Hparent' Hsub'). unfold front'.
      by rewrite <- !app_assoc.
    + destruct (scalar_layout (length front) x Hc) as [Hlay Hobj].
      rewrite (prune_scalar x Hc).
      rewrite Hlay, Hobj, Nat.add_0_r in *. cbn [app] in *.
      destruct (is_missing x).
      * rewrite decide_True by done.
        rewrite (IH front _ _ Hparent Hsub'). cbn. by rewrite <- !app_assoc.
      * rewrite decide_False by done. by rewrite (IH front _ _ Hparent Hsub').
Qed.

Lemma list_max_lt (l : list nat) n : list_max l < n → Forall (λ m, m < n) l.
Proof.
  intros Hmax. apply Forall_forall. intros m Hm.
  assert (list_max l ≤ list_max l) as Hle by done.
  apply list_max_le in Hle. rewrite List.Forall_forall in Hle.
  apply list_elem_of_In in Hm. specialize (Hle m Hm). lia.
Qed.

Lemma depth_list_lt l fuel : depth (JList l) < S fuel → Forall (λ x, depth x < fuel) l.
Proof.
  cbn [depth]. intros Hd. assert (list_max (map depth l) < fuel) as Hmax by lia.
  apply list_max_lt in Hmax. by apply Forall_fmap in Hmax.
Qed.

Lemma depth_dict_lt d fuel :
  depth (JDict d) < S fuel → Forall (λ kv, depth kv.2 < fuel) d.
Proof.
  cbn [depth]. intros Hd.
  assert (list_max (map (λ kv, depth kv.2) d) < fuel) as Hmax by lia.
  apply list_max_lt in Hmax. by apply Forall_fmap in Hmax.
Qed.

Lemma unique_keys_list l : unique_keys (JList l) = true → Forall (λ x, unique_keys x = true) l.
Proof.
  cbn [unique_keys]. rewrite forallb_forall. intros Hl. apply Forall_forall.
  intros x Hx. apply Hl. by apply list_elem_of_In.
Qed.

Lemma unique_keys_dict d :
  unique_keys (JDict d) = true →
  NoDup d.*1 ∧ Forall (λ kv, unique_keys kv.2 = true) d.
Proof.
  cbn [unique_keys]. intros [Hnd Hd]%andb_prop. apply bool_decide_eq_true in Hnd.
  split; [done|]. rewrite forallb_forall in Hd. apply Forall_forall.
  intros x Hx. apply Hd. by apply list_elem_of_In.
Qed.

Lemma root_list base l :
  root o base (JList l)
  = Store.VRef (root_loc o base (length (layouts o (inner o base) l))).
Proof. unfold root. by rewrite objects_list, length_layouts. Qed.

Lemma root_dict base d :
  root o base (JDict d)
  = Store.VRef (root_loc o base (length (layouts o (inner o base) d.*2))).
Proof. unfold root. by rewrite objects_dict, length_layouts. Qed.

(** On the objects of a document, wherever they lie in the store, the
    evaluator's stripper returns the reference it was given and leaves there
    the objects of the pruned document. *)
Lemma evaluator_find_rec_sim v :
  unique_keys v = true →
  ∀ fuel pre post path missing_fields,
    depth v < fuel →
    Store.evaluator_find_rec fuel (pre ++ layout o (length pre) v ++ post)
                             (root o (length pre) v) path missing_fields
    = Some (root o (length pre) v, pre ++ layout o (length pre) (prune v) ++ post,
            missing_fields ++ marker_paths v path).
Proof.
  induction v as [| | | | |l IH|d IH] using json_ind';
    intros Hu [|fuel] pre post path mf Hdepth; try lia;
    try (cbn; by rewrite app_nil_r).
  - (* a list *)
    apply unique_keys_list in Hu. apply depth_list_lt in Hdepth.
    rewrite root_list, layout_list, layout_prune_list, marker_paths_list.
    set (parent := Store.OList (roots o (inner o (length pre)) l)).
    set (parent' := Store.OList _).
    rewrite !place_split. cbn [Store.evaluator_find_rec].
    unfold Store.store, Store.loc in *. rewrite lookup_parent. unfold parent at 1.
    rewrite <- (length_front_of o pre parent).
    set (l0 := root_loc o (length pre) _).
    rewrite (evaluator_scan_list_sim _ l0 path (roots o (length (front_of o pre parent)) l)
               (back_of o parent post) l).
    + cbn [mbind option_bind].
      rewrite sorted_reverse_increasing by apply marker_indices_sorted.
      rewrite (list_delitems_markers l (length (front_of o pre parent)) []).
      * cbn [mbind option_bind]. rewrite app_nil_r. do 3 f_equal.
        unfold l0. rewrite <- (length_layouts_prune _ l).
        rewrite insert_parent. unfold parent'. by rewrite length_front_of.
      * rewrite app_nil_r. unfold l0. rewrite <- (length_layouts_prune _ l).
        rewrite lookup_parent. unfold parent. by rewrite length_front_of.
    + rewrite Forall_forall in IH, Hu, Hdepth. apply Forall_forall.
      intros x Hx _ pre' post' path' mf'. apply IH; [done|by apply Hu|by apply Hdepth].
    + intros middle Hmiddle. unfold l0. rewrite <- Hmiddle, lookup_parent.
      by rewrite (length_front_of o pre parent).
    + done.
  - (* a dict *)
    apply unique_keys_dict in Hu as [Hnd Hu]. apply depth_dict_lt in Hdepth.
    rewrite root_dict, layout_dict, layout_prune_dict, marker_paths_dict.
    set (parent := Store.ODict (entry_roots o (inner o (length pre)) d)).
    set (parent' := Store.ODict _).
    rewrite !place_split. cbn [Store.evaluator_find_rec].
    unfold Store.store, Store.loc in *. rewrite lookup_parent. unfold parent at 1.
    rewrite <- (length_front_of o pre parent).
    set (l0 := root_loc o (length pre) _).
    rewrite (evaluator_scan_dict_sim _ l0 path
               (entry_roots o (length (front_of o pre parent)) d)
               (back_of o parent post) ltac:(by rewrite fmap_fst_entry_roots) d).
    + cbn [mbind option_bind].
      rewrite (dict_delitems_markers d (length (front_of o pre parent)) []).
      * cbn [mbind option_bind app]. do 3 f_equal.
        unfold l0. rewrite <- (length_layouts_prune _ d.*2).
        rewrite insert_parent. unfold parent'. by rewrite length_front_of.
      * done.
      * cbn [app]. unfold l0. rewrite <- (length_layouts_prune _ d.*2).
        rewrite lookup_parent. unfold parent. by rewrite length_front_of.
    + rewrite Forall_forall in IH, Hu, Hdepth. apply Forall_forall.
      intros kv Hkv _ pre' post' path' mf'. apply IH; [done|by apply Hu|by apply Hdepth].
    + intros middle Hmiddle. unfold l0. rewrite <- Hmiddle, lookup_parent.
      by rewrite (length_front_of o pre parent).
    + done.
Qed.

(** *** The conversation generator's stripper on the objects of a document *)

Lemma conversation_scan_list_sim find path :
  ∀ rest,
    Forall (λ x, is_container x = true →
              ∀ pre post path mf,
                find (pre ++ layout o (length pre) x ++ post) (root o (length pre) x) path mf
                = Some (pre ++ layout o (length pre) (prune x) ++ post,
                        mf ++ marker_paths x path)) rest →
    ∀ i front back mf idx,
      Store.conversation_scan_list find path (roots o (length front) rest) i
        (front ++ layouts o (length front) rest ++ back) mf idx
      = Some (front ++ layouts o (length front) (map prune rest) ++ back,
              mf ++ marker_paths_elements path rest i, idx ++ marker_indices rest i).
Proof.
  intros rest Hfind.
  induction Hfind as [|x rest Hx _ IH]; intros i front back mf idx.
  - cbn. by rewrite !app_nil_r.
  - cbn [roots layouts map marker_paths_elements marker_indices
         Store.conversation_scan_list].
    rewrite is_container_root, is_missing_root.
    destruct (is_container x) eqn:Hc.
    + rewrite <- (app_assoc (layout o (length front) x)).
      fold (index_key path i). rewrite (Hx eq_refl). cbn [mbind option_bind].
      assert (is_missing x = false) as Hm.
      { destruct (is_missing x) eqn:E; [|done]. apply missing_scalar in E. congruence. }
      rewrite Hm.
      set (front' := front ++ layout o (length front) (prune x)).
      assert (length front' = length front + objects x) as Hlen.
      { unfold front'. by rewrite length_app, length_layout, objects_prune. }
      assert (front ++ layout o (length front) (prune x)
                ++ layouts o (length front + objects x) rest ++ back
              = front' ++ layouts o (length front') rest ++ back) as ->.
      { rewrite <- Hlen. unfold front'. by rewrite <- app_assoc. }
      rewrite objects_prune, <- Hlen. rewrite IH. unfold front'.
      by rewrite <- !app_assoc.
    + destruct (scalar_layout (length front) x Hc) as [Hlay Hobj].
      rewrite (prune_scalar x Hc).
      rewrite Hlay, Hobj, Nat.add_0_r. cbn [app]. fold (index_key path i).
      destruct (is_missing x); rewrite IH; by rewrite <- ?app_assoc.
Qed.

Lemma conversation_scan_dict_sim find path :
  ∀ rest,
    Forall (λ kv, is_container kv.2 = true →
              ∀ pre post path mf,
                find (pre ++ layout o (length pre) kv.2 ++ post) (root o (length pre) kv.2)
                     path mf
                = Some (pre ++ layout o (length pre) (prune kv.2) ++ post,
                        mf ++ marker_paths kv.2 path)) rest →
    ∀ front back mf keys,
      Store.conversation_scan_dict find path (entry_roots o (length front) rest)
        (front ++ layouts o (length front) rest.*2 ++ back) mf keys
      = Some (front ++ layouts o (length front) (map prune rest.*2) ++ back,
              mf ++ marker_paths_entries path rest, keys ++ marker_keys rest).
Proof.
  intros rest Hfind. unfold marker_keys.
  induction Hfind as [|[k x] rest Hx _ IH]; intros front back mf keys.
  - cbn. by rewrite !app_nil_r.
  - cbn [entry_roots layouts map marker_paths_entries Store.conversation_scan_dict
         fmap list_fmap fst snd] in *.
    rewrite filter_cons. cbn [snd].
    rewrite is_container_root, is_missing_root.
    destruct (is_container x) eqn:Hc.
    + rewrite <- (app_assoc (layout o (length front) x)).
      rewrite (Hx eq_refl). cbn [mbind option_bind].
      assert (is_missing x = false) as Hm.
      { destruct (is_missing x) eqn:E; [|done]. apply missing_scalar in E. congruence. }
      rewrite Hm. rewrite decide_False by done.
      set (front' := front ++ layout o (length front) (prune x)).
      assert (length front' = length front + objects x) as Hlen.
      { unfold front'. by rewrite length_app, length_layout, objects_prune. }
      assert (front ++ layout o (length front) (prune x)
                ++ layouts o (length front + objects x) rest.*2 ++ back
              = front' ++ layouts o (length front') rest.*2 ++ back) as ->.
      { rewrite <- Hlen. unfold front'. by rewrite <- app_assoc. }
      rewrite objects_prune, <- Hlen. rewrite IH. unfold front'.
      by rewrite <- !app_assoc.
    + destruct (scalar_layout (length front) x Hc) as [Hlay Hobj].
      rewrite (prune_scalar x Hc).
      rewrite Hlay, Hobj, Nat.add_0_r. cbn [app].
      destruct (is_missing x).
      * rewrite decide_True by done. rewrite IH. cbn. by rewrite <- !app_assoc.
      * rewrite decide_False by done. by rewrite IH.
Qed.

Lemma conversation_find_rec_sim v :
  unique_keys v = true →
  ∀ fuel pre post path missing_fields,
    depth v < fuel →
    Store.conversation_find_rec fuel (pre ++ layout o (length pre) v ++ post)
                                (root o (length pre) v) path missing_fields
    = Some (pre ++ layout o (length pre) (prune v) ++ post,
            missing_fields ++ marker_paths v path).
Proof.
  induction v as [| | | | |l IH|d IH] using json_ind';
    intros Hu [|fuel] pre post path mf Hdepth; try lia;
    try (cbn; by rewrite app_nil_r).
  - apply unique_keys_list in Hu. apply depth_list_lt in Hdepth.
    rewrite root_list, layout_list, layout_prune_list, marker_paths_list.
    set (parent := Store.OList (roots o (inner o (length pre)) l)).
    set (parent' := Store.OList _).
    rewrite !place_split. cbn [Store.conversation_find_rec].
    unfold Store.store, Store.loc in *. rewrite lookup_parent. unfold parent at 1.
    rewrite <- (length_front_of o pre parent).
    set (l0 := root_loc o (length pre) _).
    rewrite (conversation_scan_list_sim _ path l).
    + cbn [mbind option_bind].
      rewrite sorted_reverse_increasing by apply marker_indices_sorted.
      rewrite (list_delitems_markers l (length (front_of o pre parent)) []).
      * cbn [mbind option_bind]. rewrite app_nil_r. do 2 f_equal.
        unfold l0. rewrite <- (length_layouts_prune _ l).
        rewrite insert_parent. unfold parent'. by rewrite length_front_of.
      * rewrite app_nil_r. unfold l0. rewrite <- (length_layouts_prune _ l).
        rewrite lookup_parent. unfold parent. by rewrite length_front_of.
    + rewrite Forall_forall in IH, Hu, Hdepth. apply Forall_forall.
      intros x Hx _ pre' post' path' mf'. apply IH; [done|by apply Hu|by apply Hdepth].
  - apply unique_keys_dict in Hu as [Hnd Hu]. apply depth_dict_lt in Hdepth.
    rewrite root_dict, layout_dict, layout_prune_dict, marker_paths_dict.
    set (parent := Store.ODict (entry_roots o (inner o (length pre)) d)).
    set (parent' := Store.ODict _).
    rewrite !place_split. cbn [Store.conversation_find_rec].
    unfold Store.store, Store.loc in *. rewrite lookup_parent. unfold parent at 1.
    rewrite <- (length_front_of o pre parent).
    set (l0 := root_loc o (length pre) _).
    rewrite (conversation_scan_dict_sim _ path d).
    + cbn [mbind option_bind].
      rewrite (dict_delitems_markers d (length (front_of o pre parent)) []).
      * cbn [mbind option_bind app]. do 2 f_equal.
        unfold l0. rewrite <- (length_layouts_prune _ d.*2).
        rewrite insert_parent. unfold parent'. by rewrite length_front_of.
      * done.
      * cbn [app]. unfold l0. rewrite <- (length_layouts_prune _ d.*2).
        rewrite lookup_parent. unfold parent. by rewrite length_front_of.
    + rewrite Forall_forall in IH, Hu, Hdepth. apply Forall_forall.
      intros kv Hkv _ pre' post' path' mf'. apply IH; [done|by apply Hu|by apply Hdepth].
Qed.

(** *** Reading the objects of a document *)

Lemma depth_list_le l fuel : depth (JList l) ≤ S fuel → Forall (λ x, depth x ≤ fuel) l.
Proof.
  intros Hd. assert (depth (JList l) < S (S fuel)) as Hlt by lia.
  apply depth_list_lt in Hlt. eapply Forall_impl; [exact Hlt|]. cbn. lia.
Qed.

Lemma depth_dict_le d fuel :
  depth (JDict d) ≤ S fuel → Forall (λ kv, depth kv.2 ≤ fuel) d.
Proof.
  intros Hd. assert (depth (JDict d) < S (S fuel)) as Hlt by lia.
  apply depth_dict_lt in Hlt. eapply Forall_impl; [exact Hlt|]. cbn. lia.
Qed.

Lemma dump_sim v :
  ∀ fuel pre post,
    depth v ≤ fuel →
    Store.dump fuel (pre ++ layout o (length pre) v ++ post) (root o (length pre) v)
    = Some v.
Proof.
  induction v as [| | | | |l IH|d IH] using json_ind'; intros fuel pre post Hdepth;
    try (by destruct fuel).
  - destruct fuel as [|fuel]; [cbn [depth] in Hdepth; lia|]. apply depth_list_le in Hdepth.
    rewrite root_list, layout_list.
    set (parent := Store.OList (roots o (inner o (length pre)) l)).
    rewrite place_split. cbn [Store.dump].
    unfold Store.store, Store.loc in *. rewrite lookup_parent. unfold parent at 1.
    rewrite <- (length_front_of o pre parent).
    apply fmap_Some. exists l. split; [|done]. apply mapM_Some.
    assert (∀ rest front back,
              Forall (λ x, ∀ pre post,
                        Store.dump fuel (pre ++ layout o (length pre) x ++ post)
                                   (root o (length pre) x) = Some x) rest →
              Forall2 (λ value x,
                         Store.dump fuel (front ++ layouts o (length front) rest ++ back)
                                    value = Some x)
                      (roots o (length front) rest) rest) as Hloop.
    { clear. intros rest front back Hrest. revert front back.
      induction Hrest as [|x rest Hx _ IHrest]; intros front back; [constructor|].
      cbn [roots layouts]. rewrite <- !app_assoc. constructor; [apply Hx|].
      specialize (IHrest (front ++ layout o (length front) x) back).
      rewrite length_app, length_layout, <- !app_assoc in IHrest. exact IHrest. }
    apply Hloop. rewrite Forall_forall in IH, Hdepth. apply Forall_forall.
    intros x Hx pre' post'. apply IH; [done|by apply Hdepth].
  - destruct fuel as [|fuel]; [cbn [depth] in Hdepth; lia|]. apply depth_dict_le in Hdepth.
    rewrite root_dict, layout_dict.
    set (parent := Store.ODict (entry_roots o (inner o (length pre)) d)).
    rewrite place_split. cbn [Store.dump].
    unfold Store.store, Store.loc in *. rewrite lookup_parent. unfold parent at 1.
    rewrite <- (length_front_of o pre parent).
    apply fmap_Some. exists d. split; [|done]. apply mapM_Some.
    assert (∀ (rest : list (string * json)) front back,
              Forall (λ kv, ∀ pre post,
                        Store.dump fuel (pre ++ layout o (length pre) kv.2 ++ post)
                                   (root o (length pre) kv.2) = Some kv.2) rest →
              Forall2 (λ (entry : string * Store.value) (kv : string * json),
                         pair entry.1
                           <$> Store.dump fuel (front ++ layouts o (length front) rest.*2
                                                ++ back) entry.2
                         = Some kv)
                      (entry_roots o (length front) rest) rest) as Hloop.
    { clear. intros rest front back Hrest. revert front back.
      induction Hrest as [|[k x] rest Hx _ IHrest]; intros front back; [constructor|].
      cbn [entry_roots layouts fmap list_fmap snd] in *. rewrite <- !app_assoc.
      constructor; [cbn [fst snd]; by rewrite Hx|].
      specialize (IHrest (front ++ layout o (length front) x) back).
      rewrite length_app, length_layout, <- !app_assoc in IHrest. exact IHrest. }
    apply Hloop. rewrite Forall_forall in IH, Hdepth. apply Forall_forall.
    intros kv Hkv pre' post'. apply IH; [done|by apply Hdepth].
Qed.

Lemma depth_prune v : depth (prune v) ≤ depth v.
Proof.
  induction v as [| | | | |l IH|d IH] using json_ind'; try done.
  - cbn [prune depth]. apply le_n_S. apply list_max_le. apply List.Forall_forall.
    intros m Hm. apply list_elem_of_In, list_elem_of_fmap in Hm as (y & -> & Hy).
    apply list_elem_of_filter in Hy as [_ Hy].
    apply list_elem_of_fmap in Hy as (x & -> & Hx).
    rewrite Forall_forall in IH. etrans; [by apply IH|].
    assert (list_max (map depth l) ≤ list_max (map depth l)) as Hle by done.
    apply list_max_le in Hle. rewrite List.Forall_forall in Hle. apply Hle.
    apply list_elem_of_In, list_elem_of_fmap. by exists x.
  - cbn [prune depth]. apply le_n_S. apply list_max_le. apply List.Forall_forall.
    intros m Hm. apply list_elem_of_In, list_elem_of_fmap in Hm as ([k y] & -> & Hy).
    apply list_elem_of_filter in Hy as [_ Hy].
    apply list_elem_of_fmap in Hy as ([k' x] & [= -> ->] & Hx). cbn [snd].
    rewrite Forall_forall in IH. etrans; [by apply (IH (k', x))|].
    assert (list_max (map (λ kv, depth kv.2) d) ≤ list_max (map (λ kv, depth kv.2) d))
      as Hle by done.
    apply list_max_le in Hle. rewrite List.Forall_forall in Hle. apply Hle.
    apply list_elem_of_In. apply (list_elem_of_fmap_2 (λ kv, depth kv.2) d (k', x)). done.
Qed.

End Placement.

(** *** Loading and copying a document *)

(** [Store.load] puts the objects of a document at the end of the store,
    the object of a dict or list after those of its items. *)
Lemma load_layout v :
  ∀ st, Store.load v st = (root Loaded (length st) v, st ++ layout Loaded (length st) v).
Proof.
  induction v as [| | | | |l IH|d IH] using json_ind'; intros st;
    try (cbn; by rewrite app_nil_r).
  - cbn [Store.load].
    match goal with
    | |- (let '(_, _) := ?go l st in _) = _ =>
        assert (go l st = (roots Loaded (length st) l, st ++ layouts Loaded (length st) l))
          as ->
    end.
    { clear -IH. revert st. induction IH as [|x rest Hx _ IHl]; intros st.
      - cbn. by rewrite app_nil_r.
      - cbn -[Store.load]. rewrite Hx. rewrite IHl. rewrite length_app, length_layout.
        by rewrite <- app_assoc. }
    unfold Store.alloc. rewrite layout_list, root_list, length_app. cbn [place inner root_loc].
    by rewrite app_assoc.
  - cbn [Store.load].
    match goal with
    | |- (let '(_, _) := ?go d st in _) = _ =>
        assert (go d st = (entry_roots Loaded (length st) d,
                           st ++ layouts Loaded (length st) d.*2)) as ->
    end.
    { clear -IH. revert st. induction IH as [|[k x] rest Hx _ IHl]; intros st.
      - cbn. by rewrite app_nil_r.
      - cbn -[Store.load]. cbn [snd] in Hx. rewrite Hx. rewrite IHl.
        rewrite length_app, length_layout. by rewrite <- app_assoc. }
    unfold Store.alloc. rewrite layout_dict, root_dict, length_app. cbn [place inner root_loc].
    by rewrite app_assoc.
Qed.

(** The object under construction, behind two segments of the store. *)
Lemma lookup_slot {A} (front middle back : list A) x :
  (front ++ middle ++ x :: back) !! (length front + length middle) = Some x.
Proof. rewrite <- (Nat.add_0_r (_ + _)). by rewrite lookup_behind. Qed.

Lemma insert_slot {A} (front middle back : list A) x x' :
  <[length front + length middle := x']> (front ++ middle ++ x :: back)
  = front ++ middle ++ x' :: back.
Proof. rewrite <- (Nat.add_0_r (_ + _)). by rewrite insert_behind. Qed.

Lemma copy_items_sim copy y :
  ∀ rest,
    Forall (copies_document copy) rest →
    ∀ front back acc tail (m : Store.memo) st,
      st = front ++ layouts Loaded (length front) rest ++ back ++ Store.OList acc :: tail →
      y = length front + length (layouts Loaded (length front) rest) + length back →
      (∀ k, length front ≤ k < length front + list_sum (map objects rest) → m !! k = None) →
      ∃ m', Store.copy_items copy y (roots Loaded (length front) rest) st m
            = Some (front ++ layouts Loaded (length front) rest ++ back
                    ++ Store.OList (acc ++ roots Copied (length st) rest)
                    :: tail ++ layouts Copied (length st) rest, m') ∧
            ∀ k, ¬ (length front ≤ k < length front + list_sum (map objects rest)) →
                 m' !! k = m !! k.
Proof.
  intros rest Hrest.
  induction Hrest as [|x rest Hx _ IH]; intros front back acc tail m st Hst Hy Hm.
  - exists m. cbn. by rewrite !app_nil_r, Hst.
  - cbn [roots layouts Store.copy_items map] in *. rewrite list_sum_cons in *.
    destruct (Hx front (layouts Loaded (length front + objects x) rest
                        ++ back ++ Store.OList acc :: tail) m st) as (m1 & Hcopy & Hm1).
    { by rewrite Hst, <- !app_assoc. }
    { intros k Hk. apply Hm. lia. }
    rewrite Hcopy. cbn [mbind option_bind].
    set (r := root Copied (length st) x).
    set (new := layout Copied (length st) x).
    set (front' := front ++ layout Loaded (length front) x).
    assert (length front' = length front + objects x) as Hlen.
    { unfold front'. by rewrite length_app, length_layout. }
    assert (st ++ new = front' ++ layouts Loaded (length front') rest ++ back
                        ++ Store.OList acc :: (tail ++ new)) as Hst1.
    { rewrite Hst, Hlen. unfold front'. by rewrite <- !app_assoc. }
    assert (y = length front' + length (layouts Loaded (length front') rest) + length back)
      as Hy'.
    { rewrite Hy, Hlen, length_app, length_layout, !length_layouts. lia. }
    set (slot := length (front' ++ layouts Loaded (length front') rest) + length back).
    assert (y = slot) as Hy''.
    { unfold slot. rewrite length_app. lia. }
    assert ((st ++ new) !! y = Some (Store.OList acc)) as Hlook.
    { rewrite Hst1, Hy''. rewrite (app_assoc (layouts _ _ _) back), (app_assoc front').
      apply list_lookup_middle. unfold slot. rewrite !length_app. lia. }
    assert (<[y := Store.OList (acc ++ [r])]> (st ++ new)
            = front' ++ layouts Loaded (length front') rest ++ back
              ++ Store.OList (acc ++ [r]) :: tail ++ new) as Hins.
    { rewrite Hst1, Hy''. rewrite (app_assoc (layouts _ _ _) back), (app_assoc front').
      assert (slot = length (front' ++ layouts Loaded (length front') rest ++ back))
        as -> by (unfold slot; rewrite !length_app; lia).
      rewrite insert_app_r_alt by lia. rewrite Nat.sub_diag. cbn [insert list_insert].
      by rewrite <- !app_assoc. }
    unfold Store.list_append, Store.store, Store.loc in *. rewrite Hlook.

    cbn [mbind option_bind]. rewrite Hins.
    destruct (IH front' back (acc ++ [r]) (tail ++ new) m1
                 (front' ++ layouts Loaded (length front') rest ++ back
                  ++ Store.OList (acc ++ [r]) :: tail ++ new) eq_refl Hy')
      as (m2 & Hrun & Hm2).
    { intros k Hk. rewrite Hm1 by lia. apply Hm. lia. }
    rewrite <- Hlen. rewrite Hrun. clear Hrun. exists m2. split.
    + f_equal. f_equal.
      assert (length (front' ++ layouts Loaded (length front') rest ++ back
                      ++ Store.OList (acc ++ [r]) :: tail ++ new)
              = length st + objects x) as ->.
      { rewrite Hst. unfold front', new.
        rewrite !length_app. cbn [length]. rewrite !length_app, !length_layout,
          !length_layouts. lia. }
      unfold front' at 1. by rewrite <- !app_assoc.
    + intros k Hk. rewrite Hm2 by lia. apply Hm1. lia.
Qed.

Lemma copy_entries_sim copy y :
  ∀ (rest : list (string * json)),
    Forall (λ kv, copies_document copy kv.2) rest →
    ∀ front back (acc : list (string * Store.value)) tail (m : Store.memo) st,
      st = front ++ layouts Loaded (length front) rest.*2 ++ back
           ++ Store.ODict acc :: tail →
      y = length front + length (layouts Loaded (length front) rest.*2) + length back →
      NoDup (acc.*1 ++ rest.*1) →
      (∀ k, length front ≤ k < length front + list_sum (map objects rest.*2) →
            m !! k = None) →
      ∃ m', Store.copy_entries copy y (entry_roots Loaded (length front) rest) st m
            = Some (front ++ layouts Loaded (length front) rest.*2 ++ back
                    ++ Store.ODict (acc ++ entry_roots Copied (length st) rest)
                    :: tail ++ layouts Copied (length st) rest.*2, m') ∧
            ∀ k, ¬ (length front ≤ k < length front + list_sum (map objects rest.*2)) →
                 m' !! k = m !! k.
Proof.
  intros rest Hrest.
  induction Hrest as [|[key x] rest Hx _ IH]; intros front back acc tail m st Hst Hy Hnd Hm.
  - exists m. cbn. by rewrite !app_nil_r, Hst.
  - cbn [entry_roots layouts Store.copy_entries map fmap list_fmap fst snd] in *.
    rewrite list_sum_cons in *.
    destruct (Hx front (layouts Loaded (length front + objects x) rest.*2
                        ++ back ++ Store.ODict acc :: tail) m st) as (m1 & Hcopy & Hm1).
    { by rewrite Hst, <- !app_assoc. }
    { intros k Hk. apply Hm. lia. }
    rewrite Hcopy. cbn [mbind option_bind].
    set (r := root Copied (length st) x).
    set (new := layout Copied (length st) x).
    set (front' := front ++ layout Loaded (length front) x).
    assert (length front' = length front + objects x) as Hlen.
    { unfold front'. by rewrite length_app, length_layout. }
    assert (st ++ new = front' ++ layouts Loaded (length front') rest.*2 ++ back
                        ++ Store.ODict acc :: (tail ++ new)) as Hst1.
    { rewrite Hst, Hlen. unfold front'. by rewrite <- !app_assoc. }
    assert (y = length front' + length (layouts Loaded (length front') rest.*2)
                + length back) as Hy'.
    { rewrite Hy, Hlen, length_app, length_layout, !length_layouts. lia. }
    assert (key ∉ acc.*1) as Hfresh.
    { apply NoDup_app in Hnd as (_ & Hdisj & _). intros Hin. apply (Hdisj key Hin). by left. }
    set (slot := length (front' ++ layouts Loaded (length front') rest.*2) + length back).
    assert (y = slot) as Hy''.
    { unfold slot. rewrite length_app. lia. }
    assert ((st ++ new) !! y = Some (Store.ODict acc)) as Hlook.
    { rewrite Hst1, Hy''. rewrite (app_assoc (layouts _ _ _) back), (app_assoc front').
      apply list_lookup_middle. unfold slot. rewrite !length_app. lia. }
    assert (<[y := Store.ODict (acc ++ [(key, r)])]> (st ++ new)
            = front' ++ layouts Loaded (length front') rest.*2 ++ back
              ++ Store.ODict (acc ++ [(key, r)]) :: tail ++ new) as Hins.
    { rewrite Hst1, Hy''. rewrite (app_assoc (layouts _ _ _) back), (app_assoc front').
      assert (slot = length (front' ++ layouts Loaded (length front') rest.*2 ++ back))
        as -> by (unfold slot; rewrite !length_app; lia).
      rewrite insert_app_r_alt by lia. rewrite Nat.sub_diag. cbn [insert list_insert].
      by rewrite <- !app_assoc. }
    unfold Store.dict_store, Store.store, Store.loc in *. rewrite Hlook.
    rewrite bool_decide_eq_false_2 by done.
    cbn [mbind option_bind]. rewrite Hins.
    destruct (IH front' back (acc ++ [(key, r)]) (tail ++ new) m1
                 (front' ++ layouts Loaded (length front') rest.*2 ++ back
                  ++ Store.ODict (acc ++ [(key, r)]) :: tail ++ new) eq_refl Hy')
      as (m2 & Hrun & Hm2).
    { rewrite fmap_app. cbn. rewrite <- app_assoc. exact Hnd. }
    { intros k Hk. rewrite Hm1 by lia. apply Hm. lia. }
    rewrite <- Hlen. rewrite Hrun. clear Hrun. exists m2. split.
    + f_equal. f_equal.
      assert (length (front' ++ layouts Loaded (length front') rest.*2 ++ back
                      ++ Store.ODict (acc ++ [(key, r)]) :: tail ++ new)
              = length st + objects x) as ->.
      { rewrite Hst. unfold front', new.
        rewrite !length_app. cbn [length]. rewrite !length_app, !length_layout,
          !length_layouts. lia. }
      unfold front' at 1. by rewrite <- !app_assoc.
    + intros k Hk. rewrite Hm2 by lia. apply Hm1. lia.
Qed.

Lemma deepcopy_sim v :
  unique_keys v = true →
  ∀ fuel, depth v ≤ fuel → copies_document (Store.deepcopy fuel) v.
Proof.
  induction v as [| | | | |l IH|d IH] using json_ind'; intros Hu fuel Hdepth pre post m st Hst Hm;
    try (exists m; destruct fuel; cbn; by rewrite !app_nil_r).
  - destruct fuel as [|fuel]; [cbn [depth] in Hdepth; lia|]. apply depth_list_le in Hdepth.
    apply unique_keys_list in Hu.
    rewrite (root_list Loaded), (root_list Copied), (layout_list Copied).
    rewrite (layout_list Loaded) in Hst. cbn [place inner root_loc] in *.
    rewrite <- !app_assoc in Hst. cbn [app] in Hst.
    set (l0 := length pre + length (layouts Loaded (length pre) l)).
    cbn [Store.deepcopy]. rewrite Hm.
    2:{ unfold l0. rewrite objects_list, length_layouts. lia. }
    unfold Store.store, Store.memo in *. unfold Store.loc in *.
    assert (st !! l0 = Some (Store.OList (roots Loaded (length pre) l))) as ->.
    { rewrite Hst. unfold l0. by rewrite lookup_slot. }
    cbv zeta.
    destruct (copy_items_sim (Store.deepcopy fuel) (length st) l) with
      (front := pre) (back := Store.OList (roots Loaded (length pre) l) :: post)
      (acc := @nil Store.value) (tail := @nil Store.object)
      (m := <[l0 := length st]> m) (st := st ++ [Store.OList []])
      as (m' & Hrun & Hm'); unfold Store.memo in *; unfold Store.loc in *.
    + rewrite Forall_forall in IH, Hu, Hdepth. apply Forall_forall.
      intros x Hx. apply IH; [done|by apply Hu|by apply Hdepth].
    + rewrite Hst. by rewrite <- !app_assoc.
    + rewrite Hst, !length_app. cbn [length]. lia.
    + intros k Hk. rewrite lookup_insert_ne.
      * apply Hm. rewrite objects_list. lia.
      * unfold l0. rewrite length_layouts. lia.
    + rewrite Hrun. cbn [mbind option_bind]. exists m'. split.
      * rewrite length_app. cbn [length app]. rewrite Nat.add_1_r.
        set (n := length st). rewrite Hst. by rewrite <- !app_assoc.
      * intros k Hk. rewrite Hm'.
        -- apply lookup_insert_ne. unfold l0. rewrite length_layouts.
           rewrite objects_list in Hk. lia.
        -- rewrite objects_list in Hk. lia.
  - destruct fuel as [|fuel]; [cbn [depth] in Hdepth; lia|]. apply depth_dict_le in Hdepth.
    apply unique_keys_dict in Hu as [Hnd Hu].
    rewrite (root_dict Loaded), (root_dict Copied), (layout_dict Copied).
    rewrite (layout_dict Loaded) in Hst. cbn [place inner root_loc] in *.
    rewrite <- !app_assoc in Hst. cbn [app] in Hst.
    set (l0 := length pre + length (layouts Loaded (length pre) d.*2)).
    cbn [Store.deepcopy]. rewrite Hm.
    2:{ unfold l0. rewrite objects_dict, length_layouts. lia. }
    unfold Store.store, Store.memo in *. unfold Store.loc in *.
    assert (st !! l0 = Some (Store.ODict (entry_roots Loaded (length pre) d))) as ->.
    { rewrite Hst. unfold l0. by rewrite lookup_slot. }
    cbv zeta.
    destruct (copy_entries_sim (Store.deepcopy fuel) (length st) d) with
      (front := pre) (back := Store.ODict (entry_roots Loaded (length pre) d) :: post)
      (acc := @nil (string * Store.value)) (tail := @nil Store.object)
      (m := <[l0 := length st]> m) (st := st ++ [Store.ODict []])
      as (m' & Hrun & Hm'); unfold Store.memo in *; unfold Store.loc in *.
    + rewrite Forall_forall in IH, Hu, Hdepth. apply Forall_forall.
      intros kv Hkv. apply IH; [done|by apply Hu|by apply Hdepth].
    + rewrite Hst. by rewrite <- !app_assoc.
    + rewrite Hst, !length_app. cbn [length]. lia.
    + done.
    + intros k Hk. rewrite lookup_insert_ne.
      * apply Hm. rewrite objects_dict. lia.
      * unfold l0. rewrite length_layouts. lia.
    + rewrite Hrun. cbn [mbind option_bind]. exists m'. split.
      * rewrite length_app. cbn [length app]. rewrite Nat.add_1_r.
        set (n := length st). rewrite Hst. by rewrite <- !app_assoc.
      * intros k Hk. rewrite Hm'.
        -- apply lookup_insert_ne. unfold l0. rewrite length_layouts.
           rewrite objects_dict in Hk. lia.
        -- rewrite objects_dict in Hk. lia.
Qed.

(** X12. The evaluator's stripper, called with a [missing_fields] list on a
    record as [json.load] builds it, returns the reference it was given;
    afterwards the caller's record reads as the pruned record, the paths of
    the markers have been appended in document order, and the objects the
    store held before the record was loaded are unchanged. *)
Theorem evaluator_strips_in_place (record : json) (st : list Store.object) (fuel : nat)
    (path : string) (missing_fields : list string) :
  unique_keys record = true → depth record < fuel →
  ∃ data st1 st2,
    Store.load record st = (data, st1) ∧
    Store.evaluator_find_missing_fields fuel st1 data path (Some missing_fields)
      = Some (data, st2, missing_fields ++ marker_paths record path) ∧
    Store.dump fuel st2 data = Some (prune record) ∧
    (∀ l o, st !! l = Some o → st2 !! l = Some o).
Proof.
  intros Hu Hdepth.
  exists (root Loaded (length st) record), (st ++ layout Loaded (length st) record),
         (st ++ layout Loaded (length st) (prune record)).
  split_and!.
  - apply load_layout.
  - cbn [Store.evaluator_find_missing_fields].
    pose proof (evaluator_find_rec_sim Loaded record Hu fuel st [] path missing_fields
                  Hdepth) as Hsim.
    by rewrite !app_nil_r in Hsim.
  - rewrite <- (root_prune Loaded (length st) record).
    pose proof (dump_sim Loaded (prune record) fuel st []) as Hdump.
    rewrite !app_nil_r in Hdump. apply Hdump.
    pose proof (depth_prune record). lia.
  - intros l o Hl. unfold Store.store, Store.loc in *.
    rewrite lookup_app_l; [done|]. by eapply lookup_lt_Some.
Qed.

Lemma evaluator_strips_in_place_witness :
  ∃ data st1 st2,
    Store.load (JDict [("name", JStr "Jane Doe");
                       ("phones", JList [JStr MISSING_FIELD; JStr "555-0100"])]) []
      = (data, st1) ∧
    Store.evaluator_find_missing_fields 3 st1 data "" (Some [])
      = Some (data, st2, ["phones[0]"]) ∧
    Store.dump 3 st2 data
      = Some (JDict [("name", JStr "Jane Doe"); ("phones", JList [JStr "555-0100"])]).
Proof.
  destruct (evaluator_strips_in_place
              (JDict [("name", JStr "Jane Doe");
                      ("phones", JList [JStr MISSING_FIELD; JStr "555-0100"])])
              [] 3 "" []) as (data & st1 & st2 & Hload & Hrun & Hdump & _).
  - vm_compute. reflexivity.
  - vm_compute. lia.
  - exists data, st1, st2. split_and!; [exact Hload|exact Hrun|exact Hdump].
Defined.

(** X13. [process_ground_truth] on a record as [json.load] builds it
    returns: the processed record is a copy that reads as the pruned record,
    the paths are those of the markers in document order, and the caller's
    record reads as before. *)
Theorem process_ground_truth_copies (record : json) (st : list Store.object) (fuel : nat) :
  unique_keys record = true → depth record < fuel →
  ∃ data st1 copy st2,
    Store.load record st = (data, st1) ∧
    Store.process_ground_truth fuel st1 data = Some (copy, st2, marker_paths record "") ∧
    Store.dump fuel st2 copy = Some (prune record) ∧
    Store.dump fuel st2 data = Some record.
Proof.
  intros Hu Hdepth.
  set (st1 := st ++ layout Loaded (length st) record).
  exists (root Loaded (length st) record), st1, (root Copied (length st1) record),
         (st1 ++ layout Copied (length st1) (prune record)).
  destruct (deepcopy_sim record Hu fuel ltac:(lia) st [] ∅ st1) as (memo & Hcopy & _);
    [by rewrite app_nil_r|done|].
  split_and!.
  - apply load_layout.
  - unfold Store.process_ground_truth. rewrite Hcopy. cbn [mbind option_bind].
    pose proof (conversation_find_rec_sim Copied record Hu fuel st1 [] "" [] Hdepth)
      as Hsim.
    rewrite !app_nil_r in Hsim. by rewrite Hsim.
  - rewrite <- (root_prune Copied (length st1) record).
    pose proof (dump_sim Copied (prune record) fuel st1 []) as Hdump.
    rewrite !app_nil_r in Hdump. apply Hdump.
    pose proof (depth_prune record). lia.
  - unfold st1. rewrite <- app_assoc. apply dump_sim. lia.
Qed.

Lemma process_ground_truth_copies_witness :
  ∃ data st1 copy st2,
    Store.load (JDict [("name", JStr "Jane Doe");
                       ("phones", JList [JStr MISSING_FIELD; JStr "555-0100"])]) []
      = (data, st1) ∧
    Store.process_ground_truth 3 st1 data = Some (copy, st2, ["phones[0]"]) ∧
    Store.dump 3 st2 data
      = Some (JDict [("name", JStr "Jane Doe");
                     ("phones", JList [JStr MISSING_FIELD; JStr "555-0100"])]).
Proof.
  destruct (process_ground_truth_copies
              (JDict [("name", JStr "Jane Doe");
                      ("phones", JList [JStr MISSING_FIELD; JStr "555-0100"])])
              [] 3) as (data & st1 & copy & st2 & Hload & Hrun & _ & Hdump).
  - vm_compute. reflexivity.
  - vm_compute. lia.
  - exists data, st1, copy, st2. split_and!; [exact Hload|exact Hrun|exact Hdump].
Defined.

(** X14. The evaluator's stripper called without a [missing_fields] list
    works on a deep copy: it returns a new record that reads as the pruned
    record, with the paths of the markers, and the caller's record reads as
    before. *)
Theorem evaluator_copies_without_list (record : json) (st : list Store.object) (fuel : nat)
    (path : string) :
  unique_keys record = true → depth record < fuel →
  ∃ data st1 copy st2,
    Store.load record st = (data, st1) ∧
    Store.evaluator_find_missing_fields fuel st1 data path None
      = Some (copy, st2, marker_paths record path) ∧
    Store.dump fuel st2 copy = Some (prune record) ∧
    Store.dump fuel st2 data = Some record.
Proof.
  intros Hu Hdepth.
  set (st1 := st ++ layout Loaded (length st) record).
  exists (root Loaded (length st) record), st1, (root Copied (length st1) record),
         (st1 ++ layout Copied (length st1) (prune record)).
  destruct (deepcopy_sim record Hu fuel ltac:(lia) st [] ∅ st1) as (memo & Hcopy & _);
    [by rewrite app_nil_r|done|].
  split_and!.
  - apply load_layout.
  - unfold Store.evaluator_find_missing_fields. rewrite Hcopy. cbn [mbind option_bind].
    pose proof (evaluator_find_rec_sim Copied record Hu fuel st1 [] path [] Hdepth)
      as Hsim.
    rewrite !app_nil_r in Hsim. by rewrite Hsim.
  - rewrite <- (root_prune Copied (length st1) record).
    pose proof (dump_sim Copied (prune record) fuel st1 []) as Hdump.
    rewrite !app_nil_r in Hdump. apply Hdump.
    pose proof (depth_prune record). lia.
  - unfold st1. rewrite <- app_assoc. apply dump_sim. lia.
Qed.

Lemma evaluator_copies_without_list_witness :
  ∃ data st1 copy st2,
    Store.load (JDict [("name", JStr "Jane Doe"); ("phone", JStr MISSING_FIELD)]) []
      = (data, st1) ∧
    Store.evaluator_find_missing_fields 2 st1 data "" None = Some (copy, st2, ["phone"]) ∧
    Store.dump 2 st2 data
      = Some (JDict [("name", JStr "Jane Doe"); ("phone", JStr MISSING_FIELD)]).
Proof.
  destruct (evaluator_copies_without_list
              (JDict [("name", JStr "Jane Doe"); ("phone", JStr MISSING_FIELD)]) [] 2 "")
    as (data & st1 & copy & st2 & Hload & Hrun & _ & Hdump).
  - vm_compute. reflexivity.
  - vm_compute. lia.
  - exists data, st1, copy, st2. split_and!; [exact Hload|exact Hrun|exact Hdump].
Defined.

(** X15. The two copies of the stripping code agree. On a record as
    [json.load] builds it, [Evaluator._find_missing_fields] (with a list)
    and [ConversationGenerator._find_missing_fields] both return, leave the
    same store and report the same paths; the assignments [data[key] = ...]
    that only the evaluator's copy makes change nothing. *)
Theorem strippers_agree (record : json) (st : list Store.object) (fuel : nat)
    (path : string) (missing_fields : list string) :
  unique_keys record = true → depth record < fuel →
  ∃ data st1 st2 missing_fields',
    Store.load record st = (data, st1) ∧
    Store.evaluator_find_rec fuel st1 data path missing_fields
      = Some (data, st2, missing_fields') ∧
    Store.conversation_find_rec fuel st1 data path missing_fields
      = Some (st2, missing_fields').
Proof.
  intros Hu Hdepth.
  exists (root Loaded (length st) record), (st ++ layout Loaded (length st) record),
         (st ++ layout Loaded (length st) (prune record)),
         (missing_fields ++ marker_paths record path).
  split_and!.
  - apply load_layout.
  - pose proof (evaluator_find_rec_sim Loaded record Hu fuel st [] path missing_fields
                  Hdepth) as Hsim.
    by rewrite !app_nil_r in Hsim.
  - pose proof (conversation_find_rec_sim Loaded record Hu fuel st [] path missing_fields
                  Hdepth) as Hsim.
    by rewrite !app_nil_r in Hsim.
Qed.

Lemma strippers_agree_witness :
  ∃ data st1 st2 missing_fields',
    Store.load (JList [JDict [("city", JStr MISSING_FIELD)]; JStr MISSING_FIELD]) []
      = (data, st1) ∧
    Store.evaluator_find_rec 3 st1 data "addresses" [] = Some (data, st2, missing_fields') ∧
    Store.conversation_find_rec 3 st1 data "addresses" [] = Some (st2, missing_fields').
Proof.
  apply (strippers_agree (JList [JDict [("city", JStr MISSING_FIELD)]; JStr MISSING_FIELD])
           [] 3 "addresses" []).
  - vm_compute. reflexivity.
  - vm_compute. lia.
Defined.

(** ** The copying strippers on any store *)

(** X16 is [StoreFacts.copying_strippers_keep_original] above, which holds
    on any store, whatever its objects share; here it is at a record whose
    two entries hold the same list. The copy keeps the sharing, so the
    marker is found, reported and deleted once, and the caller's two
    objects are as they were. *)
Lemma copying_strippers_keep_original_witness :
  let shared := Store.OList [Store.VStr MISSING_FIELD; Store.VStr "x"] in
  let record := Store.ODict [("a", Store.VRef 0); ("b", Store.VRef 0)] in
  ∃ copy st',
    Store.process_ground_truth 3 [shared; record] (Store.VRef 1)
      = Some (copy, st', ["a[0]"]) ∧
    Store.dump 3 st' copy
      = Some (JDict [("a", JList [JStr "x"]); ("b", JList [JStr "x"])]) ∧
    st' !! 0 = Some shared ∧ st' !! 1 = Some record.
Proof.
  cbv zeta. eexists _, _. split; [vm_compute; reflexivity|].
  split; [vm_compute; reflexivity|].
  split;
    eapply (proj1 (StoreFacts.copying_strippers_keep_original 3
              [Store.OList [Store.VStr MISSING_FIELD; Store.VStr "x"];
               Store.ODict [("a", Store.VRef 0); ("b", Store.VRef 0)]]
              (Store.VRef 1) "" _ _ ["a[0]"] (or_introl eq_refl)));
    reflexivity.
Defined.

(** ** Markdown fences *)

Lemma str_splitlines_line line rest :
  one_line line = true →
  str_splitlines (line +:+ LF +:+ rest) = line :: str_splitlines rest.
Proof.
  intros Hline. induction line as [|a line IH].
  - cbn. by destruct rest.
  - cbn [one_line] in Hline. apply andb_prop in Hline as [Ha Hline].
    apply negb_true_iff in Ha.
    change (String a line +:+ LF +:+ rest) with (String a (line +:+ LF +:+ rest)).
    cbn [str_splitlines]. rewrite Ha. by rewrite (IH Hline).
Qed.

Lemma str_splitlines_one_line line :
  one_line line = true →
  str_splitlines line = if bool_decide (line = "") then [] else [line].
Proof.
  intros Hline. induction line as [|a line IH]; [done|].
  cbn [one_line] in Hline. apply andb_prop in Hline as [Ha Hline].
  apply negb_true_iff in Ha. cbn [str_splitlines]. rewrite Ha, (IH Hline).
  rewrite (bool_decide_eq_false_2 (String a line = "")) by done.
  by case_bool_decide; subst.
Qed.

Lemma concat_cons sep line (lines : list string) :
  lines ≠ [] → String.concat sep (line :: lines) = line +:+ sep +:+ String.concat sep lines.
Proof. by destruct lines. Qed.

(** Joining lines with line feeds and splitting again: a final empty line is
    the only one that can be lost. *)
Lemma str_splitlines_concat lines :
  Forall (λ line, one_line line = true) lines →
  str_splitlines (String.concat LF lines) `sublist_of` lines.
Proof.
  induction 1 as [|line lines Hline Hlines IH]; [done|].
  destruct lines as [|line' lines].
  - cbn [String.concat]. rewrite (str_splitlines_one_line _ Hline).
    case_bool_decide; [apply sublist_nil_l|done].
  - rewrite concat_cons by done. rewrite (str_splitlines_line _ _ Hline).
    by apply sublist_skip.
Qed.

Lemma str_app_assoc (s1 s2 s3 : string) : (s1 +:+ s2) +:+ s3 = s1 +:+ (s2 +:+ s3).
Proof.
  induction s1 as [|a s1 IH]; [done|].
  change (String a ((s1 +:+ s2) +:+ s3) = String a (s1 +:+ s2 +:+ s3)). by f_equal.
Qed.

Lemma str_splitlines_concat_then lines rest :
  Forall (λ line, one_line line = true) lines → lines ≠ [] →
  str_splitlines (String.concat LF lines +:+ LF +:+ rest) = lines ++ str_splitlines rest.
Proof.
  induction 1 as [|line lines Hline Hlines IH]; [done|]. intros _.
  destruct lines as [|line' lines].
  - cbn [String.concat app]. by apply str_splitlines_line.
  - rewrite concat_cons by done.
    rewrite !str_app_assoc.
    rewrite (str_splitlines_line _ _ Hline). cbn [app]. f_equal.
    by apply IH.
Qed.

Lemma str_splitlines_one_lines s : Forall (λ line, one_line line = true) (str_splitlines s).
Proof.
  assert (∀ n s, String.length s < n → Forall (λ line, one_line line = true) (str_splitlines s))
    as H; [|apply (H (S (String.length s))); lia].
  intros n. induction n as [|n IH]; intros s' Hlen; [lia|].
  destruct s' as [|a s']; [constructor|]. cbn [String.length] in Hlen.
  cbn [str_splitlines]. destruct (is_line_boundary a) eqn:Ha.
  - constructor; [done|]. destruct s' as [|b s'']; [constructor|].
    cbn [String.length] in Hlen. destruct (_ && _); apply IH; cbn [String.length]; lia.
  - assert (Forall (λ line, one_line line = true) (str_splitlines s')) as Hs' by (apply IH; lia).
    destruct (str_splitlines s') as [|line rest]; [repeat constructor; cbn; by rewrite Ha|].
    apply Forall_cons in Hs' as [Hline Hrest]. constructor; [|done].
    cbn. by rewrite Ha, Hline.
Qed.

Lemma str_rstrip_prefix a p s :
  is_whitespace a = false →
  String.prefix p (str_rstrip s) = true →
  String.prefix (String a p) (str_rstrip (String a s)) = true.
Proof.
  intros Ha Hp. cbn [str_rstrip].
  destruct (str_rstrip s) as [|b r]; [rewrite Ha|]; cbn [String.prefix];
    by destruct (ascii_dec a a).
Qed.

Lemma is_fence_opening lang : is_fence ("```" +:+ lang) = true.
Proof.
  unfold is_fence, str_strip.
  change ("```" +:+ lang) with (String "`" (String "`" (String "`" lang))).
  cbn [str_lstrip]. change (is_whitespace "`") with false. cbv iota.
  do 3 (apply str_rstrip_prefix; [done|]). by destruct (str_rstrip lang).
Qed.

Lemma filter_all {A} (P : A → Prop) `{∀ x, Decision (P x)} (l : list A) :
  Forall P l → filter P l = l.
Proof.
  induction 1 as [|x l Hx _ IH]; [done|]. rewrite filter_cons, decide_True by done.
  by rewrite IH.
Qed.

(** X17. No fence line is left: no line of what
    [strip_markdown_code_block] returns starts, after its leading blanks,
    with three backquotes. *)
Theorem strip_markdown_code_block_no_fence (md_string : string) :
  Forall (λ line, is_fence line = false)
         (str_splitlines (strip_markdown_code_block md_string)).
Proof.
  unfold strip_markdown_code_block. cbv zeta.
  set (filtered := filter (λ line, is_fence line = false) (str_splitlines md_string)).
  assert (Forall (λ line, is_fence line = false) filtered) as Hno.
  { apply Forall_forall. intros line Hline. by apply list_elem_of_filter in Hline as [? _]. }
  assert (Forall (λ line, one_line line = true) filtered) as Hone.
  { apply Forall_forall. intros line Hline. apply list_elem_of_filter in Hline as [_ Hline].
    pose proof (str_splitlines_one_lines md_string) as Hall.
    rewrite Forall_forall in Hall. by apply Hall. }
  apply Forall_forall. intros line Hline. rewrite Forall_forall in Hno. apply Hno.
  eapply elem_of_sublist; [exact Hline|]. by apply str_splitlines_concat.
Qed.

(** X18. Unwrapping a fenced block. For a text made of an opening fence
    with any language tag, lines none of which is a fence, joined by line
    feeds, and a closing fence, [strip_markdown_code_block] returns exactly
    those lines joined by line feeds. *)
Theorem strip_markdown_code_block_fenced (lang : string) (lines : list string) :
  one_line lang = true →
  Forall (λ line, one_line line = true) lines →
  Forall (λ line, is_fence line = false) lines →
  strip_markdown_code_block
    ("```" +:+ lang +:+ LF +:+ String.concat LF lines +:+ LF +:+ "```")
  = String.concat LF lines.
Proof.
  intros Hlang Hone Hno. unfold strip_markdown_code_block. cbv zeta.
  assert (one_line ("```" +:+ lang) = true) as Hopen by done.
  rewrite <- (str_app_assoc "```" lang).
  rewrite (str_splitlines_line ("```" +:+ lang) _ Hopen).
  rewrite filter_cons, decide_False by (by rewrite is_fence_opening).
  destruct lines as [|line lines]; [done|].
  rewrite str_splitlines_concat_then by done.
  rewrite filter_app, (filter_all _ _ Hno). change (str_splitlines "```") with ["```"].
  rewrite filter_cons, decide_False by done. rewrite filter_nil. by rewrite app_nil_r.
Qed.

Lemma strip_markdown_code_block_fenced_witness :
  strip_markdown_code_block
    ("```" +:+ "json" +:+ LF +:+ String.concat LF ["[1,"; "  2"; "]"] +:+ LF +:+ "```")
  = String.concat LF ["[1,"; "  2"; "]"].
Proof.
  apply (strip_markdown_code_block_fenced "json" ["[1,"; "  2"; "]"]).
  - reflexivity.
  - by repeat constructor.
  - by repeat constructor.
Defined.

(** ** Conversation names *)

Lemma string_of_uint_digits d :
  digits_to_end (NilEmpty.string_of_uint d) = true.
Proof. induction d; cbn; done. Qed.

Lemma str_of_nat_shape i :
  ∃ a rest, str_of_nat i = String a rest ∧ is_digit a = true ∧ digits_to_end rest = true.
Proof.
  unfold str_of_nat, NilZero.string_of_uint.
  destruct (Nat.to_uint i) as [|d|d|d|d|d|d|d|d|d|d];
    cbn [NilEmpty.string_of_uint]; eexists _, _;
    (split; [reflexivity|split; [reflexivity|apply string_of_uint_digits || reflexivity]]).
Qed.

Lemma strip_prefix_app prefix s : strip_prefix prefix (prefix +:+ s) = Some s.
Proof.
  induction prefix as [|a prefix IH]; [by destruct s|].
  change (String a prefix +:+ s) with (String a (prefix +:+ s)).
  cbn [strip_prefix]. by rewrite bool_decide_eq_true_2.
Qed.

Lemma strip_prefix_Some prefix s rest :
  strip_prefix prefix s = Some rest → s = prefix +:+ rest.
Proof.
  revert s. induction prefix as [|a prefix IH]; intros s.
  - destruct s; intros [= <-]; reflexivity.
  - destruct s as [|b s]; [done|]. cbn [strip_prefix]. case_bool_decide; [|done].
    subst b. intros ->%IH. reflexivity.
Qed.

Lemma is_conversation_name_conversation i : is_conversation_name (conversation i) = true.
Proof.
  unfold is_conversation_name, conversation. rewrite strip_prefix_app.
  destruct (str_of_nat_shape i) as (a & rest & -> & Ha & Hrest). by rewrite Ha, Hrest.
Qed.

Lemma to_uint_not_nil i : Nat.to_uint i ≠ Decimal.Nil.
Proof.
  intros Hnil. pose proof (Unsigned.of_to i) as Hi. rewrite Hnil in Hi. cbn in Hi.
  subst i. discriminate Hnil.
Qed.

Lemma str_of_nat_inj i j : str_of_nat i = str_of_nat j → i = j.
Proof.
  unfold str_of_nat. intros Heq.
  pose proof (NilZero.usu _ (to_uint_not_nil i)) as Hi.
  pose proof (NilZero.usu _ (to_uint_not_nil j)) as Hj.
  rewrite Heq, Hj in Hi. injection Hi as Hi.
  rewrite <- (Unsigned.of_to i), <- (Unsigned.of_to j). by rewrite Hi.
Qed.

Lemma conversation_inj i j : conversation i = conversation j → i = j.
Proof.
  unfold conversation. intros Heq. apply str_of_nat_inj.
  by apply (String.app_inj "conversation_").
Qed.

Lemma length_list_conversations entries :
  length (list_conversations (Some entries)) =
  length (filter (λ item, is_conversation_name item = true) entries).
Proof.
  destruct entries as [|item entries]; [done|].
  unfold list_conversations. by rewrite merge_sort_Permutation.
Qed.

(** The conversations of a directory, counted through their numbers. *)
Lemma count_conversations entries (numbers : list nat) :
  NoDup entries → NoDup numbers →
  (∀ name, name ∈ entries ∧ is_conversation_name name = true
           ↔ ∃ i, i ∈ numbers ∧ name = conversation i) →
  length (list_conversations (Some entries)) = length numbers.
Proof.
  intros Hentries Hnumbers Hnames. rewrite length_list_conversations.
  rewrite <- (length_fmap conversation numbers). apply Permutation_length.
  apply NoDup_Permutation.
  - by apply NoDup_filter.
  - apply NoDup_fmap_2; [|done]. intros i j. apply conversation_inj.
  - intros name. rewrite list_elem_of_filter, list_elem_of_fmap.
    rewrite (and_comm (is_conversation_name name = true)), Hnames.
    split; intros (i & ? & ?); by exists i.
Qed.

Lemma list_conversations_names entries name :
  name ∈ list_conversations entries → is_conversation_name name = true.
Proof.
  destruct entries as [[|item items]|]; try by intros ?%elem_of_nil.
  unfold list_conversations. rewrite merge_sort_Permutation.
  by intros [? _]%list_elem_of_filter.
Qed.

(** X19. When the conversations of the experiment directory are numbered
    1 to n with none missing, the next conversation name is
    [conversation_(n+1)], and no entry of the directory has that name. *)
Theorem next_conversation_name_fresh (n : nat) (entries : list string) :
  NoDup entries →
  (∀ name, name ∈ entries ∧ is_conversation_name name = true
           ↔ ∃ i, 1 ≤ i ≤ n ∧ name = conversation i) →
  next_conversation_name (Some entries) = conversation (S n) ∧
  conversation (S n) ∉ entries.
Proof.
  intros Hentries Hnames.
  assert (length (list_conversations (Some entries)) = n) as Hcount.
  { rewrite (count_conversations entries (seq 1 n)); [apply length_seq|done|apply NoDup_seq|].
    intros name. rewrite Hnames. split; intros (i & Hi & ->); exists i; split; try done.
    - apply elem_of_seq. lia.
    - apply elem_of_seq in Hi. lia. }
  split.
  - unfold next_conversation_name. rewrite Hcount. f_equal. lia.
  - intros Hin.
    destruct (proj1 (Hnames (conversation (S n)))) as (i & Hi & Heq).
    { split; [done|apply is_conversation_name_conversation]. }
    apply conversation_inj in Heq. lia.
Qed.

Lemma next_conversation_name_fresh_witness :
  next_conversation_name
    (Some ["conversation_2"; "notes.txt"; "conversation_1"; "aggregated_results.json"])
  = conversation 3.
Proof.
  apply (next_conversation_name_fresh 2
           ["conversation_2"; "notes.txt"; "conversation_1"; "aggregated_results.json"]).
  - by apply (bool_decide_unpack _).
  - intros name. split.
    + intros [Hin Hname]. set_unfold in Hin.
      destruct Hin as [->|[->|[->|[->|[]]]]]; try discriminate Hname.
      * exists 2. split; [lia|reflexivity].
      * exists 1. split; [lia|reflexivity].
    + intros (i & Hi & ->). destruct i as [|[|[|i]]]; try lia;
        (split; [by apply (bool_decide_unpack _)|reflexivity]).
Defined.

(** X20. The next name counts the conversations, it does not look for a
    free number. When the conversations are numbered 1 to n except for one
    number k below n (a conversation that was deleted), the next
    conversation name is [conversation_n], the name of a conversation that
    exists. *)
Theorem next_conversation_name_taken (n k : nat) (entries : list string) :
  1 ≤ k < n → NoDup entries →
  (∀ name, name ∈ entries ∧ is_conversation_name name = true
           ↔ ∃ i, 1 ≤ i ≤ n ∧ i ≠ k ∧ name = conversation i) →
  next_conversation_name (Some entries) = conversation n ∧
  conversation n ∈ entries.
Proof.
  intros Hk Hentries Hnames.
  assert (length (list_conversations (Some entries)) = n - 1) as Hcount.
  { rewrite (count_conversations entries (seq 1 (k - 1) ++ seq (S k) (n - k))).
    - rewrite length_app, !length_seq. lia.
    - done.
    - apply NoDup_app. split; [apply NoDup_seq|]. split; [|apply NoDup_seq].
      intros i Hi Hi'. apply elem_of_seq in Hi, Hi'. lia.
    - intros name. rewrite Hnames.
      split; intros (i & Hi & Hrest); exists i.
      + destruct Hrest as [Hne ->]. split; [|done]. rewrite elem_of_app, !elem_of_seq. lia.
      + subst name. rewrite elem_of_app, !elem_of_seq in Hi. split_and!; [lia|lia|lia|done]. }
  split.
  - unfold next_conversation_name. rewrite Hcount. f_equal. lia.
  - apply (Hnames (conversation n)). exists n. split_and!; [lia|lia|lia|done].
Qed.

Lemma next_conversation_name_taken_witness :
  next_conversation_name (Some ["conversation_1"; "conversation_3"]) = conversation 3 ∧
  conversation 3 ∈ ["conversation_1"; "conversation_3"].
Proof.
  apply (next_conversation_name_taken 3 2 ["conversation_1"; "conversation_3"]).
  - lia.
  - by apply (bool_decide_unpack _).
  - intros name. split.
    + intros [Hin Hname]. set_unfold in Hin. destruct Hin as [->|[->|[]]].
      * exists 1. split_and!; [lia|lia|lia|reflexivity].
      * exists 3. split_and!; [lia|lia|lia|reflexivity].
    + intros (i & Hi & Hne & ->). destruct i as [|[|[|[|i]]]]; try lia;
        (split; [by apply (bool_decide_unpack _)|reflexivity]).
Defined.

Lemma digits_to_end_backup rest timestamp :
  digits_to_end (rest +:+ "_backup_" +:+ timestamp) = false.
Proof.
  induction rest as [|a rest IH]; [done|].
  change (String a rest +:+ "_backup_" +:+ timestamp)
    with (String a (rest +:+ "_backup_" +:+ timestamp)).
  cbn [digits_to_end]. destruct (is_digit a); [done|].
  apply andb_false_intro2. apply bool_decide_eq_false_2. by destruct rest.
Qed.

(** X21. The backup that [delete_conversation] makes of a conversation
    directory does not match the pattern of conversation names, so
    [list_conversations] never lists it. *)
Theorem backup_not_listed (entries : option (list string))
    (conversation_name timestamp : string) :
  is_conversation_name conversation_name = true →
  is_conversation_name (backup_name conversation_name timestamp) = false ∧
  backup_name conversation_name timestamp ∉ list_conversations entries.
Proof.
  intros Hname.
  assert (is_conversation_name (backup_name conversation_name timestamp) = false) as Hno.
  { unfold is_conversation_name, backup_name in *.
    destruct (strip_prefix "conversation_" conversation_name) as [[|a rest]|] eqn:Hp;
      try done.
    apply strip_prefix_Some in Hp as ->. rewrite str_app_assoc, strip_prefix_app.
    change (String a rest +:+ "_backup_" +:+ timestamp)
      with (String a (rest +:+ "_backup_" +:+ timestamp)).
    cbv iota. rewrite digits_to_end_backup. apply andb_false_r. }
  split; [done|]. intros Hin%list_conversations_names. congruence.
Qed.

Lemma backup_not_listed_witness :
  is_conversation_name (backup_name "conversation_2" "20250101_120000") = false ∧
  backup_name "conversation_2" "20250101_120000"
    ∉ list_conversations
        (Some ["conversation_1"; "conversation_2_backup_20250101_120000"]).
Proof.
  apply (backup_not_listed
           (Some ["conversation_1"; "conversation_2_backup_20250101_120000"])
           "conversation_2" "20250101_120000").
  reflexivity.
Defined.
